(** * loopline: the model loader and its registry, embedded and verified

    The development follows the JavaScript sources:
    - [Loader]    lib/loader.js: discovery, ordering, assembly, materializing
                  and the entry point [load];
    - [Registry]  lib/registry.js: [createModel], [configureModel], [getModel];
    - [Line]      lib/line.js: [line.model] and its [configureModel];
    and models what they call from outside the repository:
    - [Toposort]  the [toposort] package, after its depth-first algorithm;
    - [Path], [Lodash]  [path.extname], [path.basename], [path.dirname],
                  [_.camelCase] and [_.capitalize] (lodash 3), on ASCII;
    - [State.Host]  the filesystem, [require] and the juggler's
                  [BaseModel.extend], as functions the theorems quantify over.

    Conventions.  A JavaScript exception is the [Throw] outcome of [res]; a
    call that changes the registry returns the changed world with its result
    or with its exception.  An object used as a dictionary is an association
    list in insertion order, or a finite map, over its own keys.  The
    members it inherits from [Object.prototype] ([Js.object_prototype]) are
    modelled where the code tests a key of an object literal of its own:
    [visited] and [registry[base]] in [addAllBaseModels], [options[key]] in
    [buildModelOptionsFromConfig], [excludedProperties] in
    [configureModel]; elsewhere the theorems that depend on it assume that
    no definition is registered under, or names as its base, an inherited
    name ([Spec.plain_names], [Spec.plain_bases]).  A name is a
    string or [undefined] ([None]), and [obj[undefined]] reads the key
    ["undefined"] as it does in JavaScript.  Inputs are well typed: a [base]
    is a string when present, a [config] is an object, [null], [false] or
    absent.  The [debug] traces of the discovery, the module cache of
    [require] and the alias keys [line.models[name]] are not modelled. *)

From Stdlib Require Import Ascii String.
From stdpp Require Import base option list strings gmap relations.

Open Scope string_scope.
Open Scope list_scope.
Open Scope nat_scope.

(** ** Outcomes of JavaScript calls *)

Module Js.

Inductive error :=
| Error (message : string)
| AssertionError (message : string)
| TypeError (message : string).

Definition message (e : error) : string :=
  match e with Error m => m | AssertionError m => m | TypeError m => m end.

Inductive res (A : Type) :=
| Ret (a : A)
| Throw (e : error).
Arguments Ret {A} a.
Arguments Throw {A} e.

Definition bind {A B} (m : res A) (k : A → res B) : res B :=
  match m with Ret a => k a | Throw e => Throw e end.

(** [try { m } catch (e) { handler(e) }]. *)
Definition try_catch {A} (m : res A) (handler : error → res A) : res A :=
  match m with Ret a => Ret a | Throw e => handler e end.

(** [xs.forEach(f)] with the state threaded through; the first exception
    leaves the loop. *)
Fixpoint forEach {S X} (f : X → S → res S) (xs : list X) (s : S) : res S :=
  match xs with
  | [] => Ret s
  | x :: xs' => bind (f x s) (forEach f xs')
  end.

(** [xs.map(f)]. *)
Fixpoint mapM {X Y} (f : X → res Y) (xs : list X) : res (list Y) :=
  match xs with
  | [] => Ret []
  | x :: xs' => bind (f x) (λ y, bind (mapM f xs') (λ ys, Ret (y :: ys)))
  end.

(** Truthiness of a string and of an optional string ([undefined] when
    [None]). *)
Definition truthy (s : string) : bool := negb (String.eqb s "").

Definition truthy_opt (o : option string) : bool :=
  match o with Some s => truthy s | None => false end.

(** [a || b] on optional strings. *)
Definition or_else (a b : option string) : option string :=
  if truthy_opt a then a else b.

Definition dquote : string := String (Ascii.ascii_of_nat 34) EmptyString.

(** The property key a value is coerced to in [obj[key]]. *)
Definition property_key (k : option string) : string :=
  match k with Some s => s | None => "undefined" end.

(** The names every object inherits from [Object.prototype]: for each of
    them [obj[k]] is truthy and [k in obj] holds, whatever the own keys of
    [obj] are. *)
Definition object_prototype : list string :=
  ["constructor"; "toString"; "toLocaleString"; "valueOf"; "hasOwnProperty";
   "isPrototypeOf"; "propertyIsEnumerable"; "__proto__"; "__defineGetter__";
   "__defineSetter__"; "__lookupGetter__"; "__lookupSetter__"].

Definition inherited (k : string) : bool := bool_decide (k ∈ object_prototype).

End Js.

#[global] Instance res_ret : MRet Js.res := @Js.Ret.
#[global] Instance res_bind : MBind Js.res := λ A B k m, Js.bind m k.
#[global] Instance res_fmap : FMap Js.res := λ A B f m, Js.bind m (λ a, Js.Ret (f a)).

(** ** The [toposort] package

  [toposort(edges)] is [toposort(uniqueNodes(edges), edges)]: a depth-first
  visit of the nodes from the last to the first, filling [sorted] from its
  end, and throwing [Cyclic dependency] when a node is met again on the
  path that leads to it.  [visited] is keyed by the node (the package keys
  it by the node's index in the duplicate-free [nodes]); [sorted] is the
  filled suffix of the result array. *)

Module Toposort.
Section toposort.
Context {A : Type} `{EqDecision A}.

Inductive outcome (S : Type) :=
| Done (s : S)
| Cyclic (node : A)
| OutOfFuel.
Arguments Done {S} s.
Arguments Cyclic {S} node.
Arguments OutOfFuel {S}.

Record state := mkState { visited : list A; sorted : list A }.

Definition push_unique (res : list A) (x : A) : list A :=
  if decide (x ∈ res) then res else res ++ [x].

Fixpoint uniqueNodes_from (arr : list (A * A)) (res : list A) : list A :=
  match arr with
  | [] => res
  | e :: arr' => uniqueNodes_from arr' (push_unique (push_unique res e.1) e.2)
  end.

Definition uniqueNodes (arr : list (A * A)) : list A := uniqueNodes_from arr [].

Fixpoint each {S X} (f : X → S → outcome S) (xs : list X) (s : S) : outcome S :=
  match xs with
  | [] => Done s
  | x :: xs' =>
      match f x s with
      | Done s' => each f xs' s'
      | o => o
      end
  end.

Definition outgoing (edges : list (A * A)) (node : A) : list (A * A) :=
  filter (λ e, e.1 = node) edges.

Fixpoint visit (fuel : nat) (edges : list (A * A)) (node : A)
    (predecessors : list A) (s : state) : outcome state :=
  match fuel with
  | 0 => OutOfFuel
  | S fuel' =>
      if decide (node ∈ predecessors) then Cyclic node
      else if decide (node ∈ visited s) then Done s
      else
        let s1 := mkState (node :: visited s) (sorted s) in
        let preds := predecessors ++ [node] in
        match each (λ e, visit fuel' edges e.2 preds)
                   (reverse (outgoing edges node)) s1 with
        | Done s2 => Done (mkState (visited s2) (node :: sorted s2))
        | o => o
        end
  end.

Definition toposort_array (nodes : list A) (edges : list (A * A)) : outcome (list A) :=
  match each (λ n, visit (S (length nodes)) edges n []) (reverse nodes)
             (mkState [] []) with
  | Done s => Done (sorted s)
  | Cyclic n => Cyclic n
  | OutOfFuel => OutOfFuel
  end.

Definition toposort (edges : list (A * A)) : outcome (list A) :=
  toposort_array (uniqueNodes edges) edges.

(** Specification vocabulary.  [topo edges l]: [l] has no duplicates and
    every edge that leaves a member of [l] arrives later in [l]. *)
Fixpoint topo (edges : list (A * A)) (l : list A) : Prop :=
  match l with
  | [] => True
  | v :: l' => (∀ w, (v, w) ∈ edges → w ∈ l') ∧ (v ∉ l') ∧ topo edges l'
  end.

(** [before l a b]: [a] occurs in [l] and [b] occurs later. *)
Definition before (l : list A) (a b : A) : Prop :=
  ∃ l1 l2 l3, l = l1 ++ a :: l2 ++ b :: l3.

Definition edge_rel (edges : list (A * A)) : relation A :=
  λ a b, (a, b) ∈ edges.

Definition acyclic (edges : list (A * A)) : Prop :=
  ∀ n, ¬ tc (edge_rel edges) n n.

(** The invariant of the visit: a visited node is finished or on the
    current path. *)
Definition inv (nodes : list A) (edges : list (A * A)) (preds : list A)
    (s : state) : Prop :=
  (∀ v, v ∈ visited s → v ∈ sorted s ∨ v ∈ preds) ∧
  (∀ v, v ∈ sorted s → v ∈ visited s ∧ v ∈ nodes) ∧
  topo edges (sorted s).

Definition grows (s s' : state) : Prop :=
  (∀ v, v ∈ visited s → v ∈ visited s') ∧
  (∀ v, v ∈ sorted s → v ∈ sorted s') ∧
  (∀ v, v ∈ sorted s' → v ∈ sorted s ∨ v ∉ visited s).

(** [linked preds x]: [preds] is a path of edges that arrives at [x]. *)
Fixpoint linked (edges : list (A * A)) (preds : list A) (x : A) : Prop :=
  match preds with
  | [] => True
  | a :: l => (a, hd x l) ∈ edges ∧ linked edges l x
  end.

End toposort.
Arguments Done {A S} s.
Arguments Cyclic {A S} node.
Arguments OutOfFuel {A S}.
Arguments state A : clear implicits.
End Toposort.


(** ** Objects used as dictionaries, with their keys in insertion order *)

Module Obj.
Section obj.
Context {V : Type}.

Fixpoint get (k : string) (o : list (string * V)) : option V :=
  match o with
  | [] => None
  | (k', v) :: o' => if decide (k' = k) then Some v else get k o'
  end.

(** [o[k] = v]: an existing key keeps its place. *)
Fixpoint set (k : string) (v : V) (o : list (string * V)) : list (string * V) :=
  match o with
  | [] => [(k, v)]
  | (k', v') :: o' => if decide (k' = k) then (k, v) :: o' else (k', v') :: set k v o'
  end.

Definition keys (o : list (string * V)) : list string := o.*1.

(** [o[k]] for a [k] that may be [undefined]. *)
Definition at_name (o : list (string * V)) (k : option string) : option V :=
  get (Js.property_key k) o.

End obj.
End Obj.

(** ** The data of the loader *)

Module Data.

(** Free-form JSON carried through unchanged; an array or an object is
    kept as its text. *)
Inductive value :=
| VNull
| VBool (b : bool)
| VNum (n : Z)
| VStr (s : string)
| VJson (text : string).

(** A name as the code holds it: a string, or [undefined]. *)
Definition jsname := option string.

Record Acl := mkAcl {
  acl_property : option string;
  acl_accessType : option string;
  acl_principalType : option string;
  acl_principalId : option string;
  acl_permission : option string;
}.

(** A settings object: the structural keys, then every other key. *)
Record Settings := mkSettings {
  set_base : option string;
  set_super : option string;
  set_relations : option (list (string * list (string * value)));
  set_acls : option (list Acl);
  set_entries : list (string * value);
}.

Definition no_settings : Settings := mkSettings None None None None [].

(** The schema of one model (the content of a [.json] file): [name],
    [properties], [options], and the other top-level keys ([base],
    [relations], [acls], ...) in [def_top]. *)
Record ModelDefinition := mkModelDefinition {
  def_name : option string;
  def_properties : list (string * value);
  def_options : option Settings;
  def_top : Settings;
}.

Definition def_base (d : ModelDefinition) : option string := set_base (def_top d).

(** An entry of the definition registry: [{definition, sourceFile}]. *)
Record SourceEntry := mkSourceEntry {
  entry_definition : ModelDefinition;
  entry_sourceFile : option string;
}.

(** A field of a configuration object that must be of some shape: absent,
    [null], present with another shape, or well formed. *)
Inductive field (A : Type) :=
| Absent
| IsNull
| Malformed
| Given (a : A).
Arguments Absent {A}.
Arguments IsNull {A}.
Arguments Malformed {A}.
Arguments Given {A} a.

(** A datasource handle. *)
Record DataSource := mkDataSource { ds_name : string }.

(** [config.dataSource]. *)
Inductive dsref :=
| DsUndefined
| DsNull
| DsFalse
| DsName (n : string)
| DsHandle (d : DataSource).

(** The attachment configuration of one model. *)
Record Config := mkConfig {
  cfg_dataSource : dsref;
  cfg_relations : field (list (string * list (string * value)));
  cfg_acls : field (list Acl);
  cfg_options : field (list (string * value));
}.

(** [instruction.config]: what [options.models[name]] holds. *)
Inductive configval :=
| ConfigUndefined
| ConfigNull
| ConfigFalse
| ConfigObj (c : Config).

Definition config_truthy (c : configval) : bool :=
  match c with ConfigObj _ => true | _ => false end.

Record Instruction := mkInstruction {
  inst_name : jsname;
  inst_config : configval;
  inst_definition : option ModelDefinition;
  inst_sourceFile : option string;
}.

End Data.

(** ** Node's [path] module (POSIX) and the two lodash helpers

  External to the repository; modelled on ASCII strings after their
  documentation. *)

Module Path.
Import Ascii.

Definition chars (s : string) : list ascii := list_ascii_of_string s.
Definition text (cs : list ascii) : string := string_of_list_ascii cs.

Definition slash : ascii := ascii_of_nat 47.
Definition dot : ascii := ascii_of_nat 46.

Fixpoint drop_while {X} (p : X → bool) (l : list X) : list X :=
  match l with
  | [] => []
  | x :: l' => if p x then drop_while p l' else l
  end.

Fixpoint take_while {X} (p : X → bool) (l : list X) : list X :=
  match l with
  | [] => []
  | x :: l' => if p x then x :: take_while p l' else []
  end.

Definition is_slash (c : ascii) : bool := Ascii.eqb c slash.
Definition is_dot (c : ascii) : bool := Ascii.eqb c dot.

(** The last segment of a path, read from its end, trailing separators
    dropped; in reverse. *)
Definition last_segment_rev (p : string) : list ascii :=
  take_while (λ c, negb (is_slash c)) (drop_while is_slash (reverse (chars p))).

(** [path.extname]: from the last dot of the last segment, unless that dot
    starts the segment. *)
Definition extname (p : string) : string :=
  let seg := last_segment_rev p in
  let ext_rev := take_while (λ c, negb (is_dot c)) seg in
  match drop_while (λ c, negb (is_dot c)) seg with
  | [] => ""
  | _ :: before =>
      match before with
      | [] => ""
      | _ => if decide (text (reverse seg) = "..") then ""
             else text (dot :: reverse ext_rev)
      end
  end.

Definition ends_with (s ext : string) : bool :=
  let n := String.length s in
  let m := String.length ext in
  (m <=? n) && String.eqb (String.substring (n - m) m s) ext.

(** [path.basename(p, ext)]. *)
Definition basename (p ext : string) : string :=
  let f := text (reverse (last_segment_rev p)) in
  if Js.truthy ext && ends_with f ext
  then String.substring 0 (String.length f - String.length ext) f
  else f.

(** [path.dirname]. *)
Definition dirname (p : string) : string :=
  let r := drop_while is_slash (reverse (chars p)) in
  let dir := drop_while is_slash (drop_while (λ c, negb (is_slash c)) r) in
  match dir with
  | [] => if String.prefix "/" p then "/" else "."
  | _ => text (reverse dir)
  end.

End Path.

Module Lodash.
Import Ascii Path.

Definition is_upper (c : ascii) : bool :=
  (65 <=? nat_of_ascii c) && (nat_of_ascii c <=? 90).
Definition is_lower (c : ascii) : bool :=
  (97 <=? nat_of_ascii c) && (nat_of_ascii c <=? 122).
Definition is_digit (c : ascii) : bool :=
  (48 <=? nat_of_ascii c) && (nat_of_ascii c <=? 57).

Definition to_upper (c : ascii) : ascii :=
  if is_lower c then ascii_of_nat (nat_of_ascii c - 32) else c.
Definition to_lower (c : ascii) : ascii :=
  if is_upper c then ascii_of_nat (nat_of_ascii c + 32) else c.

Inductive kind := KNone | KUpper | KWord | KDigit.

Definition flush (k : kind) (cur : list ascii) (acc : list (list ascii)) :=
  match k with KNone => acc | _ => acc ++ [cur] end.

(** The words of a string: a run of capitals (less its last letter when
    small letters follow), an optional capital with small letters, or a
    run of digits. *)
Fixpoint words_from (cs : list ascii) (k : kind) (cur : list ascii)
    (acc : list (list ascii)) : list (list ascii) :=
  match cs with
  | [] => flush k cur acc
  | c :: cs' =>
      if is_lower c then
        match k with
        | KWord => words_from cs' KWord (cur ++ [c]) acc
        | KUpper =>
            match reverse cur with
            | [u] => words_from cs' KWord [u; c] acc
            | u :: front => words_from cs' KWord [u; c] (acc ++ [reverse front])
            | [] => words_from cs' KWord [c] acc
            end
        | _ => words_from cs' KWord [c] (flush k cur acc)
        end
      else if is_upper c then
        match k with
        | KUpper => words_from cs' KUpper (cur ++ [c]) acc
        | _ => words_from cs' KUpper [c] (flush k cur acc)
        end
      else if is_digit c then
        match k with
        | KDigit => words_from cs' KDigit (cur ++ [c]) acc
        | _ => words_from cs' KDigit [c] (flush k cur acc)
        end
      else words_from cs' KNone [] (flush k cur acc)
  end.

Definition words (s : string) : list (list ascii) := words_from (chars s) KNone [] [].

Definition upperFirst (cs : list ascii) : list ascii :=
  match cs with [] => [] | c :: cs' => to_upper c :: cs' end.

(** [_.camelCase]. *)
Definition camelCase (s : string) : string :=
  match map (map to_lower) (words s) with
  | [] => ""
  | w :: ws => text (w ++ concat (map upperFirst ws))
  end.

(** [_.capitalize] (lodash 3): the first character in upper case, the rest
    unchanged. *)
Definition capitalize (s : string) : string := text (upperFirst (chars s)).

End Lodash.

(** ** The state the loader works on *)

Module State.
Import Js Data.

(** A model class.  [isModel]: its prototype is an instance of the
    registry's [Model]. *)
Record ModelCtor := mkModelCtor {
  modelName : string;
  isModel : bool;
  settings : Settings;
  dataSource : option DataSource;
}.

(** What a customization script exports. *)
Inductive Script :=
| ScriptFunction (code : ModelCtor → res ModelCtor)
| ScriptOther.

(** What a mixin source exports: a function, a subclass of the base model
    class, or anything else. *)
Inductive MixinExport :=
| MixinFunction (id : string)
| MixinModel (id : string)
| MixinOther.

(** The diagnostics, [debug] and [console.warn]. *)
Inductive Event :=
| WarnRelationsNotObject (model : string)
| WarnAclsNotArray (model : string)
| WarnCannotReconfigure (property model : string)
| WarnOptionsNotObject (model : string)
| DebugAttached (model dataSource : string)
| DebugNotAttachedByConfiguration (model : string)
| WarnMissingDataSource (model : string)
| DebugDefiningMixin (name : string)
| DebugSkippingMixin (name : string)
| DebugConfiguringExisting (name : string)
| DebugCreatingModel (name : string)
| DebugLoadingScript (sourceFile : string)
| DebugCustomizing (name : string)
| DebugSkippingModelFile (sourceFile : string).

(** The registry of the line ([modelBuilder.models], [modelBuilder.mixins]),
    the line's datasources and exported models, and the diagnostics
    written so far.  A model class is referred to by the name it is
    registered under. *)
Record World := mkWorld {
  models : gmap string ModelCtor;
  mixins : option (list (string * MixinExport));
  dataSources : gmap string DataSource;
  exported : list string;
  log : list Event;
}.

Definition emit (e : Event) (w : World) : World :=
  mkWorld (models w) (mixins w) (dataSources w) (exported w) (log w ++ [e]).

Definition set_model (name : string) (m : ModelCtor) (w : World) : World :=
  mkWorld (<[name := m]> (models w)) (mixins w) (dataSources w) (exported w) (log w).

Definition set_mixins (ms : list (string * MixinExport)) (w : World) : World :=
  mkWorld (models w) (Some ms) (dataSources w) (exported w) (log w).

Definition export (name : string) (w : World) : World :=
  mkWorld (models w) (mixins w) (dataSources w) (exported w ++ [name]) (log w).

(** A call that may change the world and may throw; what was changed before
    the exception stays changed. *)
Definition M (A : Type) : Type := World → res A * World.

Definition ret {A} (a : A) : M A := λ w, (Ret a, w).
Definition throw {A} (e : error) : M A := λ w, (Throw e, w).
Definition bindM {A B} (m : M A) (k : A → M B) : M B :=
  λ w, match m w with
       | (Ret a, w') => k a w'
       | (Throw e, w') => (Throw e, w')
       end.
Definition lift {A} (r : res A) : M A := λ w, (r, w).
Definition tell (e : Event) : M unit := λ w, (Ret tt, emit e w).

(** [xs.forEach(f)]. *)
Fixpoint forEachM {X} (f : X → M unit) (xs : list X) : M unit :=
  match xs with
  | [] => ret tt
  | x :: xs' => bindM (f x) (λ _, forEachM f xs')
  end.

(** What the filesystem and the module system answer. *)
Record Host := mkHost {
  cwd : string;
  existsSync : string → bool;
  readdirSync : string → res (list string);
  statIsFile : string → res bool;
  extensions : list string;
  resolveModule : string → res string;
  requireDefinition : string → res ModelDefinition;
  requireScript : string → res Script;
  requireMixin : string → res MixinExport;
  globalPaths : list string;
  nodeModulePaths : string → list string;
  path_resolve : string → string → string;
  path_join : string → string → string;
  modelExtend : ModelCtor → string → list (string * value) → Settings → ModelCtor;
}.

End State.

Notation "'call' x := m 'in' k" := (State.bindM m (λ x, k))
(at level 10, x name, m at level 100, k at level 200, only parsing).

(** ** lib/registry.js *)

Module Registry.
Import Js Data State.

Definition findModel (modelOrName : jsname) : M (option ModelCtor) :=
  λ w, (Ret (models w !! property_key modelOrName), w).

Definition getModel (modelOrName : jsname) : M ModelCtor :=
  call model := findModel modelOrName in
  match model with
  | Some m => ret m
  | None => throw (Error ("Model not found: " +:+ property_key modelOrName))
  end.

Definition first_defined {X} (a b : option X) : option X :=
  match a with Some _ => a | None => b end.

(** [util._extend(target, source)], as a map: the keys it adds stand in the
    order of [source]. *)
Definition extend {V} (target source : list (string * V)) : list (string * V) :=
  foldl (λ o kv, Obj.set kv.1 kv.2 o) target source.

(** One round of the [for (key in config)] loop of
    [buildModelOptionsFromConfig]: [options[key] !== undefined] holds for a
    key of the options and for a name every object inherits. *)
Definition copyMissing (options : list (string * value)) (kv : string * value)
    : list (string * value) :=
  if bool_decide (is_Some (Obj.get kv.1 options)) || inherited kv.1 then options
  else Obj.set kv.1 kv.2 options.

(** The options are a copy of [config.options] ([util._extend] copies the
    keys of its source last to first); the keys of [config] are then copied
    into them, a key the options already define excepted. *)
Definition buildModelOptionsFromConfig (config : ModelDefinition) : Settings :=
  let options := default no_settings (def_options config) in
  let top := def_top config in
  mkSettings
    (first_defined (set_base options) (set_base top))
    (first_defined (set_super options) (set_super top))
    (first_defined (set_relations options) (set_relations top))
    (first_defined (set_acls options) (set_acls top))
    (foldl copyMissing (extend [] (reverse (set_entries options))) (set_entries top)).

(** [registry.createModel(config)]; the class is registered by
    [BaseModel.extend] under its name. *)
Definition createModel (h : Host) (config : ModelDefinition) : M string :=
  match def_name config with
  | None => throw (AssertionError "The model-config property `name` must be a string")
  | Some name =>
      let options := buildModelOptionsFromConfig config in
      let BaseModel := or_else (set_base options) (set_super options) in
      call base :=
        match BaseModel with
        | Some baseName =>
            call found := findModel (Some baseName) in
            match found with
            | Some b => ret b
            | None =>
                throw (Error ("Model not found: model `" +:+ name +:+
                              "` is extending an unknown model `" +:+ baseName +:+ "`."))
            end
        | None => getModel (Some "PersistedModel")
        end in
      let model := modelExtend h base name (def_properties config) options in
      λ w, (Ret name, set_model name model w)
  end.

Definition same_acl (a b : Acl) : bool :=
  bool_decide (acl_property a = acl_property b) &&
  bool_decide (acl_accessType a = acl_accessType b) &&
  bool_decide (acl_principalType a = acl_principalType b) &&
  bool_decide (acl_principalId a = acl_principalId b).

Fixpoint addACL (acls : list Acl) (acl : Acl) : list Acl :=
  match acls with
  | [] => [acl]
  | a :: acls' => if same_acl a acl then acl :: acls' else a :: addACL acls' acl
  end.

Definition excludedProperties : list string :=
  ["base"; "super"; "relations"; "acls"; "dataSource"].

(** [p in excludedProperties]: a key of the object literal, or a name it
    inherits. *)
Definition excluded (p : string) : bool :=
  bool_decide (p ∈ excludedProperties) || inherited p.

Definition with_relations (s : Settings) r : Settings :=
  mkSettings (set_base s) (set_super s) (Some r) (set_acls s) (set_entries s).
Definition with_acls (s : Settings) a : Settings :=
  mkSettings (set_base s) (set_super s) (set_relations s) (Some a) (set_entries s).
Definition with_entry (s : Settings) (p : string) (v : value) : Settings :=
  mkSettings (set_base s) (set_super s) (set_relations s) (set_acls s)
             (Obj.set p v (set_entries s)).
Definition with_settings (m : ModelCtor) (s : Settings) : ModelCtor :=
  mkModelCtor (modelName m) (isModel m) s (dataSource m).
Definition attachTo (m : ModelCtor) (d : DataSource) : ModelCtor :=
  mkModelCtor (modelName m) (isModel m) (settings m) (Some d).

(** The three merges of [configureModel], on the settings of the class;
    each returns the new settings and its diagnostics. *)
Definition mergeRelations (name : string) (config : Config) (s : Settings)
    : Settings * list Event :=
  match cfg_relations config with
  | Given rels =>
      (with_relations s
         (foldl (λ relations kv,
                   Obj.set kv.1 (extend (default [] (Obj.get kv.1 relations)) kv.2) relations)
                (default [] (set_relations s)) rels), [])
  | Malformed => (s, [WarnRelationsNotObject name])
  | Absent | IsNull => (s, [])
  end.

Definition mergeAcls (name : string) (config : Config) (s : Settings)
    : Settings * list Event :=
  match cfg_acls config with
  | Given acls => (with_acls s (foldl addACL (default [] (set_acls s)) acls), [])
  | Malformed => (s, [WarnAclsNotArray name])
  | Absent | IsNull => (s, [])
  end.

Definition mergeOption (name : string) (acc : Settings * list Event)
    (kv : string * value) : Settings * list Event :=
  if excluded kv.1
  then (acc.1, acc.2 ++ [WarnCannotReconfigure kv.1 name])
  else (with_entry acc.1 kv.1 kv.2, acc.2).

Definition mergeOptions (name : string) (config : Config) (s : Settings)
    : Settings * list Event :=
  match cfg_options config with
  | Given options => foldl (mergeOption name) (s, []) options
  | Malformed => (s, [WarnOptionsNotObject name])
  | Absent | IsNull => (s, [])
  end.

(** [registry.configureModel(ModelCtor, config)], on the class registered
    as [key]. *)
Definition configureModel (key : string) (ModelCtor : ModelCtor) (config : Config) : M unit :=
  let name := modelName ModelCtor in
  let '(s1, log1) := mergeRelations name config (settings ModelCtor) in
  let '(s2, log2) := mergeAcls name config s1 in
  let '(s3, log3) := mergeOptions name config s2 in
  let configured := with_settings ModelCtor s3 in
  let diagnostics := log1 ++ log2 ++ log3 in
  λ w,
    let w1 := foldl (λ w e, emit e w) (set_model key configured w) diagnostics in
    match cfg_dataSource config with
    | DsHandle d =>
        (Ret tt, emit (DebugAttached name (ds_name d))
                   (set_model key (attachTo configured d) w1))
    | DsName n =>
        if truthy n then
          (Throw (AssertionError ("Cannot configure " +:+ name +:+
                    ": config.dataSource must be an instance of DataSource")), w1)
        else (Ret tt, emit (WarnMissingDataSource name) w1)
    | DsNull | DsFalse => (Ret tt, emit (DebugNotAttachedByConfiguration name) w1)
    | DsUndefined => (Ret tt, emit (WarnMissingDataSource name) w1)
    end.

End Registry.

(** ** lib/line.js *)

Module Line.
Import Js Data State.

Definition with_dataSource (config : Config) (d : dsref) : Config :=
  mkConfig d (cfg_relations config) (cfg_acls config) (cfg_options config).

Definition empty_config : Config := mkConfig DsUndefined Absent Absent Absent.

(** [configureModel(ModelCtor, config, line)]. *)
Definition configureModel (key : string) (ModelCtor : ModelCtor) (config : Config) : M unit :=
  if negb (isModel ModelCtor) then
    throw (AssertionError (modelName ModelCtor +:+ " must be a descendant of loopline.Model"))
  else
    λ w,
      let resolved : res dsref :=
        match cfg_dataSource config with
        | DsName n =>
            if truthy n then
              match dataSources w !! n with
              | Some d => Ret (DsHandle d)
              | None =>
                  Throw (AssertionError
                           (modelName ModelCtor +:+
                            " is referencing a dataSource that does not exist: " +:+
                            dquote +:+ n +:+ dquote))
              end
            else Ret (DsName n)
        | d => Ret d
        end in
      match resolved with
      | Throw e => (Throw e, w)
      | Ret d => Registry.configureModel key ModelCtor (with_dataSource config d) w
      end.

(** [line.model(Model, config)] as the loader calls it: with both
    arguments, [Model] being the class registered as [key] ([undefined]
    when [None]).  The call with the name of a class to create, and the
    call with one argument, are other branches of the function and are not
    part of this definition. *)
Definition model (Model : option string) (config : configval) : M unit :=
  λ w,
    match Model ≫= (λ key, (key,.) <$> models w !! key) with
    | None => (Throw (TypeError "Cannot read property 'prototype' of undefined"), w)
    | Some (key, ModelCtor) =>
        let config := match config with ConfigObj c => c | _ => empty_config end in
        match configureModel key ModelCtor config w with
        | (Ret _, w') => (Ret tt, export key w')
        | (Throw e, w') => (Throw e, w')
        end
    end.

End Line.

(** ** lib/loader.js: ordering and assembling the instructions *)

Module Loader.
Import Js Data State.

Definition getBaseModelName (modelDefinition : option ModelDefinition) : jsname :=
  match modelDefinition with
  | None => None
  | Some d =>
      or_else (def_base d)
              (match def_options d with
               | None => None
               | Some o => set_base o
               end)
  end.

(** The [while (modelNames.length)] loop of [addAllBaseModels]; [fuel]
    bounds the number of iterations.  [visited] holds the keys the loop has
    set; [visited[name]] is truthy for them and for the names the object
    inherits, and so is [registry[base]] for a registered definition and
    for an inherited name.  A name that is not visited is not inherited, so
    [registry[name]] is its own entry or [undefined]. *)
Fixpoint addAllBaseModels_loop (fuel : nat) (registry : list (string * SourceEntry))
    (modelNames : list jsname) (result : list jsname) (visited : gset string)
    : option (list jsname) :=
  match fuel with
  | 0 => None
  | S fuel' =>
      match modelNames with
      | [] => Some result
      | name :: modelNames' =>
          if decide (property_key name ∈ visited ∨ property_key name ∈ object_prototype) then
            addAllBaseModels_loop fuel' registry modelNames' result visited
          else
            let visited' := {[property_key name]} ∪ visited in
            let result' := result ++ [name] in
            match Obj.at_name registry name with
            | None => addAllBaseModels_loop fuel' registry modelNames' result' visited'
            | Some entry =>
                let base := getBaseModelName (Some (entry_definition entry)) in
                if decide (is_Some (Obj.at_name registry base) ∨
                           property_key base ∈ object_prototype)
                then addAllBaseModels_loop fuel' registry (modelNames' ++ [base])
                       result' visited'
                else addAllBaseModels_loop fuel' registry modelNames' result' visited'
            end
      end
  end.

(** Every iteration either shortens the queue or visits a key of the
    registry for the first time: the keys not visited yet, counted. *)
Definition unvisited_keys (keys : list string) (visited : gset string) : nat :=
  length (filter (λ k, k ∉ visited) keys).

Definition unvisited (registry : list (string * SourceEntry)) (visited : gset string) : nat :=
  unvisited_keys (Obj.keys registry) visited.

Definition addAllBaseModels_fuel (registry : list (string * SourceEntry))
    (modelNames : list jsname) : nat :=
  S (length registry + length modelNames).

Definition addAllBaseModels (registry : list (string * SourceEntry))
    (modelNames : list jsname) : list jsname :=
  default [] (addAllBaseModels_loop (addAllBaseModels_fuel registry modelNames)
                registry modelNames [] ∅).

(** What one iteration of the loop appends to the queue. *)
Definition pushed (registry : list (string * SourceEntry)) (name : jsname) : list jsname :=
  match Obj.at_name registry name with
  | None => []
  | Some entry =>
      let base := getBaseModelName (Some (entry_definition entry)) in
      if decide (is_Some (Obj.at_name registry base) ∨ property_key base ∈ object_prototype)
      then [base]
      else []
  end.

(** A name that is a string other than ["undefined"], the key [undefined]
    itself is coerced to. *)
Definition ordinary (n : jsname) : Prop :=
  ∃ s, n = Some s ∧ s ≠ "undefined".

(** [b] extends [a]: the definition registered as [b] names [a] as its base. *)
Definition extends (registry : list (string * SourceEntry)) (a b : string) : Prop :=
  ∃ entry, Obj.get b registry = Some entry ∧
           getBaseModelName (Some (entry_definition entry)) = Some a.

Definition edge_of (inst : Instruction) : jsname * jsname :=
  (getBaseModelName (inst_definition inst), inst_name inst).

(** [JSON.stringify] of a node, for the message of [toposort]. *)
Definition stringify_name (n : jsname) : string :=
  match n with
  | None => "undefined"
  | Some s => dquote +:+ s +:+ dquote
  end.

Definition key_of (inst : Instruction) : string := property_key (inst_name inst).

Definition instructionsByModelName (instructions : list Instruction)
    : list (string * Instruction) :=
  foldl (λ o inst, Obj.set (property_key (inst_name inst)) inst o) [] instructions.

Definition sortByInheritance (instructions : list Instruction) : res (list Instruction) :=
  let edges := edge_of <$> instructions in
  match Toposort.toposort edges with
  | Toposort.Done sortedNames =>
      Ret (omap (Obj.at_name (instructionsByModelName instructions)) sortedNames)
  | Toposort.Cyclic n => Throw (Error ("Cyclic dependency: " +:+ stringify_name n))
  | Toposort.OutOfFuel => Throw (Error "toposort: out of fuel") (* never: [toposort_total] *)
  end.

(** [createModelInstructions] of [buildAllModelInstructions]. *)
Definition createModelInstructions (registry : list (string * SourceEntry))
    (modelsConfig : option (list (string * configval))) (dataSouce : option string)
    (name : jsname) : Instruction :=
  let config :=
    match modelsConfig with
    | Some cfg => default ConfigUndefined (Obj.at_name cfg name)
    | None =>
        ConfigObj (mkConfig (from_option DsName DsUndefined dataSouce) Absent Absent Absent)
    end in
  let definition := Obj.at_name registry name in
  mkInstruction name config
    (entry_definition <$> definition)
    (definition ≫= entry_sourceFile).

(** [buildAllModelInstructions], once the definitions are known. *)
Definition assembleInstructions (registry : list (string * SourceEntry))
    (modelsConfig : option (list (string * configval))) (dataSouce : option string)
    : list Instruction :=
  let keys :=
    match modelsConfig with
    | Some cfg => Obj.keys cfg
    | None => Obj.keys registry
    end in
  let modelNamesToBuild := addAllBaseModels registry (Some <$> keys) in
  createModelInstructions registry modelsConfig dataSouce <$> modelNamesToBuild.

(** *** Discovery *)

Definition FILE_EXTENSION_JSON : string := ".json".

Definition tryReadDir (h : Host) (dir : string) : list string :=
  match readdirSync h dir with
  | Ret files => files
  | Throw _ => []
  end.

Definition getExcludedExtensions : list string := [".json"; ".node"].

Definition isPreferredExtension (h : Host) (filename : string) : bool :=
  let ext := Path.extname filename in
  bool_decide (ext ∈ extensions h) && negb (bool_decide (ext ∈ getExcludedExtensions)).

Definition fixFileExtension (h : Host) (filepath : string) (files : list string)
    (onlyScriptsExportingFunction : bool) : res (option string) :=
  if isPreferredExtension h filepath then Ret (Some filepath)
  else
    let basename := Path.basename filepath FILE_EXTENSION_JSON in
    let sourceDir := Path.dirname filepath in
    results ← forEach
      (λ f results,
         let otherFile := path_resolve h sourceDir f in
         isFile ← statIsFile h otherFile;
         if isFile : bool then
           let otherFileExtension := Path.extname f in
           if negb (bool_decide (otherFileExtension ∈ getExcludedExtensions)) &&
              String.eqb (Path.basename f otherFileExtension) basename
           then
             if negb onlyScriptsExportingFunction then Ret (results ++ [otherFile])
             else if bool_decide (otherFileExtension ∈ extensions h)
                  then Ret (results ++ [otherFile])
                  else Ret results
           else Ret results
         else Ret results)
      files [];
    Ret (head results).

Definition with_sourceFile (e : SourceEntry) (f : option string) : SourceEntry :=
  mkSourceEntry (entry_definition e) f.

Definition with_name (d : ModelDefinition) (n : option string) : ModelDefinition :=
  mkModelDefinition n (def_properties d) (def_options d) (def_top d).

(** [verifyModelDefinitions]: the registry ([undefined] without
    definitions), and the caller's entries as the call leaves them, their
    [sourceFile] rewritten up to the entry that threw. *)
Fixpoint verifyEach (h : Host) (rootDir : string) (todo : list SourceEntry)
    (registry : list (string * SourceEntry))
    : res (list (string * SourceEntry)) * list SourceEntry :=
  match todo with
  | [] => (Ret registry, [])
  | definition :: todo' =>
      let fixed : res SourceEntry :=
        if truthy_opt (entry_sourceFile definition) then
          let fullPath := path_resolve h rootDir (default "" (entry_sourceFile definition)) in
          sourceFile ← fixFileExtension h fullPath
                         (tryReadDir h (Path.dirname fullPath)) true;
          Ret (with_sourceFile definition sourceFile)
        else Ret definition in
      match fixed with
      | Throw e => (Throw e, todo)
      | Ret definition' =>
          let modelName := def_name (entry_definition definition') in
          let registry' :=
            if truthy_opt modelName
            then Obj.set (default "" modelName) definition' registry
            else registry in
          let '(r, rest) := verifyEach h rootDir todo' registry' in
          (r, definition' :: rest)
      end
  end.

Definition verifyModelDefinitions (h : Host) (rootDir : string)
    (modelDefinitions : option (list SourceEntry))
    : res (option (list (string * SourceEntry))) * option (list SourceEntry) :=
  match modelDefinitions with
  | None => (Ret None, None)
  | Some [] => (Ret None, Some [])
  | Some defs =>
      let '(r, defs') := verifyEach h rootDir defs [] in
      (Some <$> r, Some defs')
  end.

Record ResolveOptions := mkResolveOptions {
  strict : bool;
  fullResolve : option bool;
}.

(** A candidate of the module search: the resolved file with the path it
    was resolved from, or the unresolved path alone. *)
Inductive candidate :=
| Resolved (filePath unresolvedPath : string)
| Plain (absPath : string).

Definition candidate_string (c : candidate) : string :=
  match c with Resolved f _ => f | Plain p => p end.

(** The second half of [tryResolveAppPath], "handle module-relative path":
    the first existing candidate among the module search directories. *)
Definition searchModulePaths (h : Host) (rootDir relativePath : string)
    (resolveOptions : ResolveOptions) : res (option string) :=
  let modulePaths := globalPaths h ++ nodeModulePaths h rootDir in
  candidates ← mapM
    (λ candidateDir,
       try_catch
         (filePath ← resolveModule h (path_join h candidateDir relativePath);
          Ret (Resolved filePath (path_join h candidateDir relativePath)))
         (λ _, Ret (Plain (path_join h candidateDir relativePath))))
    modulePaths;
  match head (filter (λ c, existsSync h (candidate_string c) = true) candidates) with
  | Some (Resolved filePath unresolvedPath) =>
      if truthy unresolvedPath && bool_decide (fullResolve resolveOptions = Some false)
      then Ret (Some unresolvedPath)
      else Ret (Some filePath)
  | Some (Plain absPath) =>
      if truthy absPath then Ret (Some absPath) else Ret None
  | None => Ret None
  end.

Definition tryResolveAppPath (h : Host) (rootDir relativePath : string)
    (resolveOptions : option ResolveOptions) : res (option string) :=
  let start := String.substring 0 2 relativePath in
  let resolveOptions := default (mkResolveOptions true None) resolveOptions in
  let '(fullPath, isModuleRelative) :=
    if String.prefix "/" relativePath then (Some relativePath, false)
    else if String.eqb start "./" || String.eqb start ".."
         then (Some (path_resolve h rootDir relativePath), false)
    else if negb (strict resolveOptions)
         then (Some (path_resolve h rootDir relativePath), true)
    else (None, false) in
  if truthy_opt fullPath then
    let fullPath := default "" fullPath in
    if existsSync h fullPath then Ret (Some fullPath)
    else
      try_catch
        (resolved ← resolveModule h fullPath; Ret (Some resolved))
        (λ _, if negb isModuleRelative then Ret None
              else searchModulePaths h rootDir relativePath resolveOptions)
  else searchModulePaths h rootDir relativePath resolveOptions.

Definition loadModelDefinition (h : Host) (rootDir jsonFile : string)
    (allFiles : list string) : res SourceEntry :=
  definition ← requireDefinition h jsonFile;
  let basename := Path.basename jsonFile (Path.extname jsonFile) in
  let definition :=
    with_name definition
      (if truthy_opt (def_name definition) then def_name definition
       else Some (Lodash.capitalize (Lodash.camelCase basename))) in
  sourceFile ← fixFileExtension h jsonFile allFiles true;
  Ret (mkSourceEntry definition sourceFile).

Definition is_definition_file (f : string) : bool :=
  negb (String.prefix "_" f) && String.eqb (Path.extname f) ".json".

(** One round of [sources.forEach] in [findModelDefinitions]. *)
Definition scanSource (h : Host) (rootDir : string) (src : string)
    (registry : list (string * SourceEntry)) : res (list (string * SourceEntry)) :=
  srcDir ← tryResolveAppPath h rootDir src (Some (mkResolveOptions false None));
  if negb (truthy_opt srcDir) then Ret registry
  else
    let srcDir := default "" srcDir in
    let files := tryReadDir h srcDir in
    forEach
      (λ f registry,
         let fullPath := path_resolve h srcDir f in
         entry ← loadModelDefinition h rootDir fullPath files;
         let modelName := def_name (entry_definition entry) in
         if negb (truthy_opt modelName) then Ret registry
         else Ret (Obj.set (default "" modelName) entry registry))
      (filter (λ f, is_definition_file f = true) files) registry.

Definition findModelDefinitions (h : Host) (rootDir : string) (sources : list string)
    : res (list (string * SourceEntry)) :=
  forEach (scanSource h rootDir) sources [].

(** *** The options of a call *)

Record MixinInstruction := mkMixinInstruction {
  mixin_name : string;
  mixin_sourceFile : string;
}.

Record Options := mkOptions {
  opt_root : option string;
  opt_dataSouce : option string;
  opt_dataSource : option string;
  opt_sources : option (list string);
  opt_modelDefinitions : option (list SourceEntry);
  opt_models : option (list (string * configval));
  opt_mixins : option (list MixinInstruction);
}.

Definition empty_options : Options := mkOptions None None None None None None None.

Definition with_root (o : Options) (r : option string) : Options :=
  mkOptions r (opt_dataSouce o) (opt_dataSource o) (opt_sources o)
            (opt_modelDefinitions o) (opt_models o) (opt_mixins o).
Definition with_dataSouce (o : Options) (d : option string) : Options :=
  mkOptions (opt_root o) d (opt_dataSource o) (opt_sources o)
            (opt_modelDefinitions o) (opt_models o) (opt_mixins o).
Definition with_modelDefinitions (o : Options) (d : option (list SourceEntry)) : Options :=
  mkOptions (opt_root o) (opt_dataSouce o) (opt_dataSource o) (opt_sources o)
            d (opt_models o) (opt_mixins o).

(** [verifyModelDefinitions(...) || findModelDefinitions(...)]: the
    definitions of the call; with them, the caller's [modelDefinitions] as
    the call leaves them. *)
Definition discover (h : Host) (rootDir : string) (sources : list string)
    (modelDefinitions : option (list SourceEntry))
    : res (list (string * SourceEntry)) * option (list SourceEntry) :=
  let '(verified, modelDefinitions') := verifyModelDefinitions h rootDir modelDefinitions in
  (v ← verified;
   match v with
   | Some registry => Ret registry
   | None => findModelDefinitions h rootDir sources
   end,
   modelDefinitions').

Definition buildAllModelInstructions (h : Host) (rootDir : string)
    (sources : list string) (modelDefinitions : option (list SourceEntry))
    (options : Options) : res (list Instruction) * option (list SourceEntry) :=
  let modelsConfig := opt_models options in
  let '(registry, modelDefinitions') := discover h rootDir sources modelDefinitions in
  (registry ← registry;
   sortByInheritance (assembleInstructions registry modelsConfig (opt_dataSouce options)),
   modelDefinitions').

Definition loadModelInstructions (h : Host) (root : string) (options : Options)
    : res (list Instruction) * option (list SourceEntry) :=
  let sources := default ["./models"] (opt_sources options) in
  buildAllModelInstructions h root sources (opt_modelDefinitions options) options.

(** *** Materializing *)

(** The [instructions] object handed to [setupModels]. *)
Record Instructions := mkInstructions {
  ins_models : list Instruction;
  ins_mixins : option (list MixinInstruction);
}.

Definition defineMixins (h : Host) (instructions : Instructions) : M unit :=
  let mixins := default [] (ins_mixins instructions) in
  λ w,
    match State.mixins w, mixins with
    | None, _ | _, [] => (Ret tt, w)
    | Some _, _ =>
        forEachM
          (λ obj,
             call mixin := lift (requireMixin h (mixin_sourceFile obj)) in
             match mixin with
             | MixinFunction _ | MixinModel _ =>
                 call _ := tell (DebugDefiningMixin (mixin_name obj)) in
                 λ w, (Ret tt, set_mixins (Obj.set (mixin_name obj) mixin
                                             (default [] (State.mixins w))) w)
             | MixinOther => tell (DebugSkippingMixin (mixin_name obj))
             end)
          mixins w
    end.

(** [defineModels]; the [_model] slot written into each instruction is
    returned keyed by the instruction's name, instructions of one name
    being one object.  [registry.getModel] throws for an unknown name, so
    the test [if (!model)] that follows it never succeeds. *)
Fixpoint defineModels (h : Host) (models : list Instruction)
    (slots : list (string * string)) : M (list (string * string)) :=
  match models with
  | [] => ret slots
  | data :: models' =>
      let name := inst_name data in
      call model :=
        match inst_definition data with
        | None =>
            call model := Registry.getModel name in
            call _ := tell (DebugConfiguringExisting (property_key name)) in
            ret (property_key name)
        | Some definition =>
            call _ := tell (DebugCreatingModel (property_key name)) in
            call model := Registry.createModel h definition in
            if truthy_opt (inst_sourceFile data) then
              let sourceFile := default "" (inst_sourceFile data) in
              call _ := tell (DebugLoadingScript sourceFile) in
              call code := lift (requireScript h sourceFile) in
              match code with
              | ScriptFunction code =>
                  call _ := tell (DebugCustomizing (property_key name)) in
                  call ModelCtor := Registry.getModel (Some model) in
                  call customized := lift (code ModelCtor) in
                  call _ := (λ w, (Ret tt, set_model model customized w)) in
                  ret model
              | ScriptOther =>
                  call _ := tell (DebugSkippingModelFile sourceFile) in
                  ret model
              end
            else ret model
        end in
      defineModels h models' (Obj.set (property_key name) model slots)
  end.

(** The body of the last loop of [setupModels]. *)
Definition attachModel (slots : list (string * string)) (data : Instruction) : M unit :=
  if negb (config_truthy (inst_config data)) then ret tt
  else Line.model (Obj.at_name slots (inst_name data)) (inst_config data).

Definition setupModels (h : Host) (instructions : Instructions) : M unit :=
  call _ := defineMixins h instructions in
  call slots := defineModels h (ins_models instructions) [] in
  forEachM (attachModel slots) (ins_models instructions).

(** *** The entry point *)

(** The second argument of [load]: a string, an options object, or
    nothing.  Objects live in a heap; the caller keeps the address. *)
Inductive RootArg :=
| RootString (root : string)
| RootOptions (address : nat)
| RootAbsent.

Definition fresh (heap : gmap nat Options) : nat :=
  S (max_list (elements (dom heap))).

Definition update (address : nat) (f : Options → Options) (heap : gmap nat Options)
    : gmap nat Options :=
  <[address := f (default empty_options (heap !! address))]> heap.

(** The first lines of the entry point: which object is [options], and the
    heap once [root] and [dataSouce] are written. *)
Definition normalize (h : Host) (root : RootArg) (options : option nat)
    (heap : gmap nat Options) : nat * gmap nat Options :=
  let '(root, options, heap) :=
    match root with
    | RootString r =>
        let '(address, heap) :=
          match options with
          | Some address => (address, heap)
          | None => (fresh heap, <[fresh heap := empty_options]> heap)
          end in
        (RootAbsent, Some address, update address (λ o, with_root o (Some r)) heap)
    | _ => (root, options, heap)
    end in
  let '(address, heap) :=
    match options, root with
    | Some address, _ => (address, heap)
    | None, RootOptions address => (address, heap)
    | None, _ => (fresh heap, <[fresh heap := empty_options]> heap)
    end in
  let heap :=
    update address
      (λ o, with_root o (if truthy_opt (opt_root o) then opt_root o else Some (cwd h)))
      heap in
  let heap :=
    update address
      (λ o, with_dataSouce o
              (if truthy_opt (opt_dataSouce o) then opt_dataSouce o else Some "default"))
      heap in
  (address, heap).

(** The options object the call works with, once normalized, and the
    definitions it discovers. *)
Definition call_options (h : Host) (root : RootArg) (options : option nat)
    (heap : gmap nat Options) : Options :=
  let '(address, heap) := normalize h root options heap in
  default empty_options (heap !! address).

Definition call_definitions (h : Host) (root : RootArg) (options : option nat)
    (heap : gmap nat Options) : res (list (string * SourceEntry)) :=
  let o := call_options h root options heap in
  (discover h (default "" (opt_root o)) (default ["./models"] (opt_sources o))
            (opt_modelDefinitions o)).1.

(** [load(line, root, options)], [line] being a line of the library; the
    world and the heap are returned as the call leaves them, exception or
    not. *)
Definition load (h : Host) (root : RootArg) (options : option nat)
    (w : World) (heap : gmap nat Options) : res unit * World * gmap nat Options :=
  let '(address, heap) := normalize h root options heap in
  let o := default empty_options (heap !! address) in
  let '(models, modelDefinitions') :=
    loadModelInstructions h (default "" (opt_root o)) o in
  let heap := update address (λ o, with_modelDefinitions o modelDefinitions') heap in
  match models with
  | Throw e => (Throw e, w, heap)
  | Ret models =>
      let '(r, w') := setupModels h (mkInstructions models None) w in
      (r, w', heap)
  end.

End Loader.

(** ** lib/registry.js: the in-memory datasources *)

Module Memory.
Import Js Data.

(** [registry._memoryDataSources] ([undefined] until the first call), and
    the number of datasources the registry has been asked to create so
    far; a datasource is known by the rank of its creation. *)
Record Store := mkStore {
  memoryDataSources : option (list (string * nat));
  created : nat;
}.

(** [registry.memory(name)], [createDataSource] answering for each
    creation whether the datasource is made or the constructor throws. *)
Definition memory (createDataSource : nat → res unit) (name : jsname) (s : Store)
    : res nat * Store :=
  let name := if truthy_opt name then default "" name else "default" in
  let cache := default [] (memoryDataSources s) in
  match Obj.get name cache with
  | Some memory => (Ret memory, mkStore (Some cache) (created s))
  | None =>
      match createDataSource (created s) with
      | Ret _ =>
          (Ret (created s),
           mkStore (Some (Obj.set name (created s) cache)) (S (created s)))
      | Throw e => (Throw e, mkStore (Some cache) (S (created s)))
      end
  end.

(** The name a call stands for. *)
Definition effective_name (name : jsname) : string :=
  if truthy_opt name then default "" name else "default".

(** Every cached datasource was created by the registry, for one name. *)
Definition well_formed (s : Store) : Prop :=
  (∀ k ds, Obj.get k (default [] (memoryDataSources s)) = Some ds → ds < created s) ∧
  (∀ k k' ds, Obj.get k (default [] (memoryDataSources s)) = Some ds →
              Obj.get k' (default [] (memoryDataSources s)) = Some ds → k = k').

End Memory.

(** ** Specification vocabulary and sample inputs *)

Module Spec.
Import Js Data State Loader.

(** No definition is registered under a name every object inherits. *)
Definition plain_names (registry : list (string * SourceEntry)) : Prop :=
  ∀ k, k ∈ Obj.keys registry → k ∉ object_prototype.

(** No definition names as its base a name every object inherits. *)
Definition plain_bases (registry : list (string * SourceEntry)) : Prop :=
  ∀ k entry b, (k, entry) ∈ registry →
    getBaseModelName (Some (entry_definition entry)) = Some b → b ∉ object_prototype.


(** Nothing resolves for a path expression: neither the expression as it
    stands nor the expression resolved against the root exists or is
    resolved by the module system, and under no directory of the module
    search does the expression exist, or resolve to a file that exists. *)
Definition unresolvable (h : Host) (rootDir relativePath : string) : Prop :=
  (∀ p, p ∈ [relativePath; path_resolve h rootDir relativePath] →
     existsSync h p = false ∧ ∃ e, resolveModule h p = Throw e) ∧
  (∀ candidateDir, candidateDir ∈ globalPaths h ++ nodeModulePaths h rootDir →
     existsSync h (path_join h candidateDir relativePath) = false ∧
     ∀ filePath, resolveModule h (path_join h candidateDir relativePath) = Ret filePath →
       existsSync h filePath = false).

(** The settings of a class once [configureModel] has merged the relations,
    the ACLs and the options of [config] into them, and the diagnostics of
    the three merges. *)
Definition merged_settings (name : string) (config : Config) (s : Settings) : Settings :=
  (Registry.mergeOptions name config
     (Registry.mergeAcls name config (Registry.mergeRelations name config s).1).1).1.

Definition merge_diagnostics (name : string) (config : Config) (s : Settings) : list Event :=
  (Registry.mergeRelations name config s).2 ++
  (Registry.mergeAcls name config (Registry.mergeRelations name config s).1).2 ++
  (Registry.mergeOptions name config
     (Registry.mergeAcls name config (Registry.mergeRelations name config s).1).1).2.

(** The attach step as the specification words it: every instruction with
    a [config] value, [null] and [false] included, goes to [line.model]. *)
Definition attachAsSpecified (slots : list (string * string)) (data : Instruction) : M unit :=
  match inst_config data with
  | ConfigUndefined => ret tt
  | config => Line.model (Obj.at_name slots (inst_name data)) config
  end.

(** A call leaves the mixin registry as it found it. *)
Definition keeps_mixins {A} (m : M A) : Prop :=
  ∀ w, mixins (m w).2 = mixins w.

(** The object a call takes as its options when the caller supplies one:
    the third argument, or the second when it is an object and there is no
    third. *)
Definition supplied (root : RootArg) (options : option nat) (address : nat) : Prop :=
  options = Some address ∨ (options = None ∧ root = RootOptions address).

(** What the first lines of the entry point leave in [options.root]: the
    root string given, else the [root] the object had, else the working
    directory; an empty string counts as absent. *)
Definition root_written (h : Host) (root : RootArg) (o : Options) : string :=
  match root with
  | RootString r => if truthy r then r else cwd h
  | _ => if truthy_opt (opt_root o) then default "" (opt_root o) else cwd h
  end.

(** What they leave in [options.dataSouce]. *)
Definition dataSouce_written (o : Options) : string :=
  if truthy_opt (opt_dataSouce o) then default "" (opt_dataSouce o) else "default".


(** *** Vocabulary of the further properties *)

(** A registry of definitions is keyed by name: no key twice, and every
    entry stands under the name of its definition, a non-empty string. *)
Definition keyed_by_name (registry : list (string * SourceEntry)) : Prop :=
  NoDup (Obj.keys registry) ∧
  ∀ k entry, (k, entry) ∈ registry →
    truthy k = true ∧ def_name (entry_definition entry) = Some k.

(** The file [f] of a directory listing is a source file for [filepath]: a
    regular file with the base name of [filepath], whose extension is
    neither [.json] nor [.node] and, when only scripts are wanted, is one
    the module system loads. *)
Definition is_sibling (h : Host) (filepath : string) (onlyScriptsExportingFunction : bool)
    (f : string) : bool :=
  match statIsFile h (path_resolve h (Path.dirname filepath) f) with
  | Ret true =>
      negb (bool_decide (Path.extname f ∈ getExcludedExtensions)) &&
      String.eqb (Path.basename f (Path.extname f)) (Path.basename filepath ".json") &&
      (negb onlyScriptsExportingFunction || bool_decide (Path.extname f ∈ extensions h))
  | _ => false
  end.

(** The name of the class [registry.createModel] extends: [base], else
    [super], of the options built from the definition, else
    [PersistedModel]. *)
Definition base_to_extend (config : ModelDefinition) : string :=
  let options := Registry.buildModelOptionsFromConfig config in
  default "PersistedModel" (or_else (set_base options) (set_super options)).


(** The body of the loop of [defineModels]: the class of one instruction,
    looked up when the instruction has no definition, created (and
    customized by its script) when it has one. *)
Definition defineModel (h : Host) (data : Instruction) : M string :=
  let name := inst_name data in
  match inst_definition data with
  | None =>
      call model := Registry.getModel name in
      call _ := tell (DebugConfiguringExisting (property_key name)) in
      ret (property_key name)
  | Some definition =>
      call _ := tell (DebugCreatingModel (property_key name)) in
      call model := Registry.createModel h definition in
      if truthy_opt (inst_sourceFile data) then
        let sourceFile := default "" (inst_sourceFile data) in
        call _ := tell (DebugLoadingScript sourceFile) in
        call code := lift (requireScript h sourceFile) in
        match code with
        | ScriptFunction code =>
            call _ := tell (DebugCustomizing (property_key name)) in
            call ModelCtor := Registry.getModel (Some model) in
            call customized := lift (code ModelCtor) in
            call _ := (λ w, (Ret tt, set_model model customized w)) in
            ret model
        | ScriptOther =>
            call _ := tell (DebugSkippingModelFile sourceFile) in
            ret model
        end
      else ret model
  end.

(** The registry of a world only grows. *)
Definition registered_stay (w w' : World) : Prop :=
  ∀ k, is_Some (models w !! k) → is_Some (models w' !! k).


(** The fields of the options the entry point never writes. *)
Definition same_requests (o o' : Options) : Prop :=
  opt_dataSource o' = opt_dataSource o ∧ opt_sources o' = opt_sources o ∧
  opt_models o' = opt_models o ∧ opt_mixins o' = opt_mixins o.

(** Two states of an options object with the same properties,
    [modelDefinitions] set aside. *)
Definition same_but_modelDefinitions (o o' : Options) : Prop :=
  opt_root o' = opt_root o ∧ opt_dataSouce o' = opt_dataSouce o ∧ same_requests o o'.

(** What [verifyModelDefinitions] may do to an entry of the caller:
    nothing to its definition, and nothing at all when it names no source
    file. *)
Definition sourceFile_rewritten (d d' : SourceEntry) : Prop :=
  entry_definition d' = entry_definition d ∧
  (truthy_opt (entry_sourceFile d) = false → d' = d).

(** The source file the verification writes into an entry. *)
Definition sourceFile_fixed (h : Host) (rootDir : string) (d d' : SourceEntry) : Prop :=
  truthy_opt (entry_sourceFile d) = true →
  let fullPath := path_resolve h rootDir (default "" (entry_sourceFile d)) in
  fixFileExtension h fullPath (tryReadDir h (Path.dirname fullPath)) true =
  Ret (entry_sourceFile d').

End Spec.

Module Examples.
Import Js Data State Loader.

(** A host with an empty disk and no module to resolve. *)
Definition bare_extend (base : ModelCtor) (name : string)
    (properties : list (string * value)) (options : Settings) : ModelCtor :=
  mkModelCtor name (String.eqb (modelName base) "Model" || isModel base) options
              (dataSource base).

Definition bare : Host :=
  {| cwd := "/app";
     existsSync := λ _, false;
     readdirSync := λ _, Throw (Error "ENOENT");
     statIsFile := λ _, Throw (Error "ENOENT");
     extensions := [".js"; ".json"; ".node"];
     resolveModule := λ p, Throw (Error ("Cannot find module '" +:+ p +:+ "'"));
     requireDefinition := λ p, Throw (Error ("Cannot find module '" +:+ p +:+ "'"));
     requireScript := λ p, Throw (Error ("Cannot find module '" +:+ p +:+ "'"));
     requireMixin := λ p, Throw (Error ("Cannot find module '" +:+ p +:+ "'"));
     globalPaths := ["/usr/lib/node_modules"];
     nodeModulePaths := λ dir, [dir +:+ "/node_modules"; "/node_modules"];
     path_resolve := λ dir p, if String.prefix "/" p then p else dir +:+ "/" +:+ p;
     path_join := λ dir p, dir +:+ "/" +:+ p;
     modelExtend := bare_extend |}.

Definition named (name : string) (base : option string) : SourceEntry :=
  mkSourceEntry
    (mkModelDefinition (Some name) [] None (mkSettings base None None None []))
    None.

Definition Model : ModelCtor := mkModelCtor "Model" false no_settings None.
Definition PersistedModel : ModelCtor := mkModelCtor "PersistedModel" true no_settings None.

(** A line whose registry holds the two built-in classes, with a mixin
    registry and the datasource [default]. *)
Definition line : World :=
  {| models := {[ "Model" := Model; "PersistedModel" := PersistedModel ]};
     mixins := Some [];
     dataSources := {[ "default" := mkDataSource "default" ]};
     exported := [];
     log := [] |}.

(** A configuration that names no datasource and sets two options, one of
    them structural. *)
Definition detached : Config :=
  mkConfig DsNull Absent Absent (Given [("base", VStr "User"); ("strict", VBool true)]).

Definition with_definitions (defs : list SourceEntry) : Options :=
  mkOptions None None None None (Some defs) None None.

(** A host whose disk holds the directory [/app/models] with two schema
    files without a [name], a script next to one of them, and a draft. *)
Definition shop : Host :=
  {| cwd := "/app";
     existsSync := λ p, bool_decide (p ∈ ["/app"; "/app/models"; "/app/models/foo.json";
                                          "/app/models/foo.js";
                                          "/app/models/customer-receipt.json";
                                          "/app/models/_draft.json"]);
     readdirSync := λ p, if String.eqb p "/app/models"
                         then Ret ["_draft.json"; "customer-receipt.json"; "foo.js"; "foo.json"]
                         else Throw (Error "ENOENT");
     statIsFile := λ _, Ret true;
     extensions := [".js"; ".json"; ".node"];
     resolveModule := λ p, Throw (Error ("Cannot find module '" +:+ p +:+ "'"));
     requireDefinition := λ _, Ret (mkModelDefinition None [] None no_settings);
     requireScript := λ _, Ret ScriptOther;
     requireMixin := λ _, Ret MixinOther;
     globalPaths := ["/usr/lib/node_modules"];
     nodeModulePaths := λ dir, [dir +:+ "/node_modules"; "/node_modules"];
     path_resolve := λ dir p,
       if String.prefix "/" p then p
       else if String.prefix "./" p
            then dir +:+ "/" +:+ String.substring 2 (String.length p - 2) p
            else dir +:+ "/" +:+ p;
     path_join := λ dir p, dir +:+ "/" +:+ p;
     modelExtend := bare_extend |}.

End Examples.

(** * Proofs *)

(** ** The contract of [toposort] *)

Module ToposortFacts.
Import Toposort.
Section facts.
Context {A : Type} `{EqDecision A}.

Lemma each_Done_ind {S X} (f : X → S → @outcome A S) (P : list X → S → Prop)
    (xs : list X) (t t' : S) :
  P [] t →
  (∀ pre x s0 s1, x ∈ xs → P pre s0 → f x s0 = Done s1 → P (pre ++ [x]) s1) →
  each f xs t = Done t' → P xs t'.
Proof.
  intros H0 Hstep.
  enough (G : ∀ pre, P pre t → each f xs t = Done t' → P (pre ++ xs) t')
    by (intros; apply (G []); auto).
  clear H0. revert t Hstep.
  induction xs as [|x xs IH]; intros s Hstep pre Hpre Heach; simpl in *.
  - rewrite app_nil_r. congruence.
  - destruct (f x s) as [s1| |] eqn:Hf; try discriminate.
    replace (pre ++ x :: xs) with ((pre ++ [x]) ++ xs) by (by rewrite <- app_assoc).
    apply (IH s1); auto.
    + intros pre' y s0 s2 Hy. apply Hstep. by right.
    + eapply Hstep; eauto. by left.
Qed.

Implicit Types (edges : list (A * A)) (l preds nodes : list A) (s : state A).

Lemma grows_refl s : grows s s.
Proof. repeat split; auto. Qed.

Lemma grows_trans s1 s2 s3 : grows s1 s2 → grows s2 s3 → grows s1 s3.
Proof.
  intros (V1 & S1 & N1) (V2 & S2 & N2). repeat split; auto.
  intros v Hv. destruct (N2 v Hv) as [Hin|Hnot]; [by apply N1|].
  right. intros Hc. apply Hnot. by apply V1.
Qed.

Lemma visit_Done nodes edges :
  (∀ a b, (a, b) ∈ edges → b ∈ nodes) →
  ∀ fuel node preds s s',
    inv nodes edges preds s → node ∈ nodes →
    visit fuel edges node preds s = Done s' →
    inv nodes edges preds s' ∧ grows s s' ∧ node ∈ sorted s'.
Proof.
  intros Hnodes. induction fuel as [|fuel IH]; intros node preds s s' Hinv Hnode; simpl.
  { discriminate. }
  destruct (decide (node ∈ preds)) as [Hp|Hp]; [discriminate|].
  destruct (decide (node ∈ visited s)) as [Hv|Hv].
  { intros [= <-]. split; [done|]. split; [apply grows_refl|].
    destruct Hinv as (I1 & _). by destruct (I1 node Hv). }
  set (s1 := mkState (node :: visited s) (sorted s)).
  destruct (each _ _ s1) as [s2| |] eqn:Heach; try discriminate.
  intros [= <-].
  destruct Hinv as (I1 & I2 & I3).
  assert (Hinv1 : inv nodes edges (preds ++ [node]) s1).
  { split; [|split]; simpl; auto.
    - intros v [->|Hv']%elem_of_cons.
      + right. apply elem_of_app. right. by left.
      + destruct (I1 v Hv'); [by left|right]. apply elem_of_app. by left.
    - intros v Hv'. destruct (I2 v Hv'). split; [by right|done]. }
  pose (P := λ (pre : list (A * A)) (s0 : state A),
    inv nodes edges (preds ++ [node]) s0 ∧ grows s1 s0 ∧
    ∀ e, e ∈ pre → e.2 ∈ sorted s0).
  assert (HP : P (reverse (outgoing edges node)) s2).
  { eapply (each_Done_ind _ P); [| |exact Heach].
    - split; [done|]. split; [apply grows_refl|]. intros e He. by apply elem_of_nil in He.
    - intros pre e s0 s3 He (Hi & Hg & Hpre) Hvis.
      apply elem_of_reverse, list_elem_of_filter in He as [He1 He2].
      destruct e as [a b]; simpl in *; subst a.
      destruct (IH b _ s0 s3 Hi (Hnodes _ _ He2) Hvis) as (Hi' & Hg' & Hb).
      split; [done|]. split; [by eapply grows_trans|].
      intros e [He|He%list_elem_of_singleton]%elem_of_app; [|by subst e].
      destruct Hg' as (_ & Hs & _). by apply Hs, Hpre. }
  destruct HP as ((J1 & J2 & J3) & (G1 & G2 & G3) & Hch).
  assert (Hfresh : node ∉ sorted s2).
  { intros Hc. destruct (G3 _ Hc) as [Hc'|Hc']; simpl in Hc'.
    - apply Hv. by apply I2.
    - apply Hc'. by left. }
  split; [|split]; simpl.
  - split; [|split]; simpl.
    + intros v Hv'. destruct (J1 v Hv') as [?|[?|Hvn%list_elem_of_singleton]%elem_of_app].
      * left. by right.
      * by right.
      * left. subst v. by left.
    + intros v [->|Hv']%elem_of_cons.
      * split; [|done]. apply G1. by left.
      * by apply J2.
    + split; [|done]. intros w Hw. apply (Hch (node, w)).
      apply elem_of_reverse, list_elem_of_filter. done.
  - split; [|split]; simpl.
    + intros v Hv'. apply G1. by right.
    + intros v Hv'. right. by apply G2.
    + intros v [->|Hv']%elem_of_cons; [by right|].
      destruct (G3 v Hv') as [?|Hn]; [by left|]. right.
      intros Hc. apply Hn. by right.
  - by left.
Qed.

Lemma each_not_Done {S X} (f : X → S → @outcome A S) (xs : list X) (t : S) o :
  each f xs t = o → (∀ t', o ≠ Done t') →
  ∃ x t0, x ∈ xs ∧ f x t0 = o.
Proof.
  revert t. induction xs as [|x xs IH]; intros t Heach Ho; simpl in *.
  - by destruct (Ho t).
  - destruct (f x t) as [t1| |] eqn:Hf.
    + destruct (IH t1 Heach Ho) as (y & t0 & Hy & Hf'). exists y, t0. split; [by right|done].
    + exists x, t. split; [by left|congruence].
    + exists x, t. split; [by left|congruence].
Qed.

(** *** The nodes of an edge list *)

Lemma elem_of_push_unique l x v : v ∈ push_unique l x ↔ v ∈ l ∨ v = x.
Proof.
  unfold push_unique. destruct (decide (x ∈ l)).
  - split; [by left|]. by intros [?| ->].
  - rewrite elem_of_app, list_elem_of_singleton. done.
Qed.

Lemma NoDup_push_unique l x : NoDup l → NoDup (push_unique l x).
Proof.
  intros Hl. unfold push_unique. destruct (decide (x ∈ l)); [done|].
  apply NoDup_app. split; [done|]. split; [|apply NoDup_singleton].
  intros y Hy ->%list_elem_of_singleton. done.
Qed.

Lemma elem_of_uniqueNodes_from edges l v :
  v ∈ uniqueNodes_from edges l ↔ v ∈ l ∨ ∃ e, e ∈ edges ∧ (v = e.1 ∨ v = e.2).
Proof.
  revert l. induction edges as [|e edges IH]; intros l; simpl.
  - split; [by left|]. intros [?|(e & He & _)]; [done|]. by apply elem_of_nil in He.
  - rewrite IH, !elem_of_push_unique. split.
    + intros [[[?| ->]| ->]|(e' & He' & Hv)].
      * by left.
      * right. exists e. split; [by left|by left].
      * right. exists e. split; [by left|by right].
      * right. exists e'. split; [by right|done].
    + intros [?|(e' & [->|He']%elem_of_cons & Hv)].
      * left. left. by left.
      * left. destruct Hv as [->| ->]; [left; by right|by right].
      * right. by exists e'.
Qed.

Lemma NoDup_uniqueNodes_from edges l : NoDup l → NoDup (uniqueNodes_from edges l).
Proof.
  revert l. induction edges as [|e edges IH]; intros l Hl; simpl; [done|].
  by apply IH, NoDup_push_unique, NoDup_push_unique.
Qed.

Lemma elem_of_uniqueNodes edges v :
  v ∈ uniqueNodes edges ↔ ∃ e, e ∈ edges ∧ (v = e.1 ∨ v = e.2).
Proof.
  unfold uniqueNodes. rewrite elem_of_uniqueNodes_from. split; [|by right].
  intros [Hv|?]; [|done]. by apply elem_of_nil in Hv.
Qed.

Lemma NoDup_uniqueNodes edges : NoDup (uniqueNodes edges).
Proof. apply NoDup_uniqueNodes_from, NoDup_nil_2. Qed.

(** *** The path of predecessors *)

Lemma linked_snoc edges preds x y :
  linked edges preds x → (x, y) ∈ edges → linked edges (preds ++ [x]) y.
Proof.
  induction preds as [|a l IH]; simpl; [done|].
  intros [Ha Hl] Hxy. split; [|by apply IH].
  by destruct l.
Qed.

Lemma linked_tc edges preds x a :
  linked edges preds x → a ∈ preds → tc (edge_rel edges) a x.
Proof.
  revert a. induction preds as [|a0 l IH]; intros a; simpl; [by intros _ ?%elem_of_nil|].
  intros [Ha Hl] [->|Hin]%elem_of_cons; [|by apply IH].
  destruct l as [|b l']; simpl in *; [by apply tc_once|].
  eapply tc_l; [exact Ha|]. apply IH; [done|by left].
Qed.

Lemma visit_Cyclic edges fuel : ∀ node preds s n,
  linked edges preds node →
  visit fuel edges node preds s = Cyclic n → tc (edge_rel edges) n n.
Proof.
  induction fuel as [|fuel IH]; intros node preds s n Hl; simpl; [discriminate|].
  destruct (decide (node ∈ preds)) as [Hp|Hp].
  { intros [= <-]. by eapply linked_tc. }
  destruct (decide (node ∈ visited s)); [discriminate|].
  destruct (each _ _ _) as [s2|m|] eqn:Heach; try discriminate.
  intros [= ->].
  apply each_not_Done in Heach as (e & s0 & He & Hv); [|discriminate].
  apply elem_of_reverse, list_elem_of_filter in He as [He1 He2].
  destruct e as [a b]; simpl in *; subst a.
  eapply IH; [|exact Hv]. by apply linked_snoc.
Qed.

Lemma visit_fuel nodes edges :
  (∀ a b, (a, b) ∈ edges → b ∈ nodes) →
  ∀ fuel node preds s,
    NoDup preds → (∀ v, v ∈ preds → v ∈ nodes) → node ∈ nodes →
    length nodes < fuel + length preds →
    visit fuel edges node preds s ≠ OutOfFuel.
Proof.
  intros Hnodes. induction fuel as [|fuel IH]; intros node preds s Hnd Hsub Hnode Hlen.
  { exfalso. pose proof (submseteq_length _ _ (NoDup_submseteq _ _ Hnd Hsub)). simpl in *. lia. }
  simpl. destruct (decide (node ∈ preds)) as [Hp|Hp]; [discriminate|].
  destruct (decide (node ∈ visited s)); [discriminate|].
  destruct (each _ _ _) as [s2|m|] eqn:Heach; try discriminate.
  apply each_not_Done in Heach as (e & s0 & He & Hv); [|discriminate].
  apply elem_of_reverse, list_elem_of_filter in He as [He1 He2].
  destruct e as [a b]; simpl in *; subst a.
  exfalso. revert Hv. apply IH.
  - apply NoDup_app. split; [done|]. split; [|apply NoDup_singleton].
    intros y Hy ->%list_elem_of_singleton. done.
  - intros v [?|Hv'%list_elem_of_singleton]%elem_of_app; [auto|by subst v].
  - by eapply Hnodes.
  - rewrite length_app. simpl. lia.
Qed.

(** *** The result *)

Lemma edge_target_node edges a b : (a, b) ∈ edges → b ∈ uniqueNodes edges.
Proof. intros He. apply elem_of_uniqueNodes. exists (a, b). split; [done|by right]. Qed.

Lemma edge_source_node edges a b : (a, b) ∈ edges → a ∈ uniqueNodes edges.
Proof. intros He. apply elem_of_uniqueNodes. exists (a, b). split; [done|by left]. Qed.

Lemma toposort_Done edges l :
  toposort edges = Done l →
  topo edges l ∧ ∀ v, v ∈ l ↔ v ∈ uniqueNodes edges.
Proof.
  unfold toposort, toposort_array. set (nodes := uniqueNodes edges).
  destruct (each _ _ _) as [s| |] eqn:Heach; try discriminate.
  intros [= <-].
  pose (P := λ (pre : list A) (s0 : state A),
    inv nodes edges [] s0 ∧ ∀ n, n ∈ pre → n ∈ sorted s0).
  assert (HP : P (reverse nodes) s).
  { eapply (each_Done_ind _ P); [| |exact Heach].
    - split.
      + split; [|split]; simpl; [| |done]; by intros v ?%elem_of_nil.
      + by intros v ?%elem_of_nil.
    - intros pre n s0 s1 Hn (Hi & Hpre) Hvis. rewrite elem_of_reverse in Hn.
      destruct (visit_Done nodes edges (edge_target_node edges) _ _ _ _ _ Hi Hn Hvis)
        as (Hi' & (_ & Hs & _) & Hin).
      split; [done|].
      intros v [Hv|Hv%list_elem_of_singleton]%elem_of_app; [by apply Hs, Hpre|by subst v]. }
  destruct HP as ((_ & I2 & I3) & Hall). split; [done|].
  intros v. split; [by intros (_ & ?)%I2|].
  intros Hv. by apply Hall, elem_of_reverse.
Qed.

Lemma toposort_total edges : toposort edges ≠ OutOfFuel.
Proof.
  unfold toposort, toposort_array.
  destruct (each _ _ _) as [s|n|] eqn:Heach; try discriminate.
  apply each_not_Done in Heach as (x & s0 & Hx & Hv); [|discriminate].
  rewrite elem_of_reverse in Hx. exfalso. revert Hv.
  apply (visit_fuel (uniqueNodes edges) edges (edge_target_node edges)).
  - apply NoDup_nil_2.
  - by intros v ?%elem_of_nil.
  - done.
  - simpl. lia.
Qed.

Lemma toposort_Cyclic edges n :
  toposort edges = Cyclic n → tc (edge_rel edges) n n.
Proof.
  unfold toposort, toposort_array.
  destruct (each _ _ _) as [s|m|] eqn:Heach; try discriminate.
  intros [= ->].
  apply each_not_Done in Heach as (x & s0 & _ & Hv); [|discriminate].
  by eapply (visit_Cyclic edges _ x []).
Qed.

Lemma topo_app edges l1 l2 : topo edges (l1 ++ l2) → topo edges l2.
Proof. induction l1 as [|a l1 IH]; simpl; [done|]. intros (_ & _ & ?). auto. Qed.

Lemma topo_NoDup edges l : topo edges l → NoDup l.
Proof.
  induction l as [|a l IH]; simpl; [intros; apply NoDup_nil_2|].
  intros (_ & Ha & Hl). apply NoDup_cons. auto.
Qed.

Lemma topo_tc edges l a b :
  topo edges l → tc (edge_rel edges) a b →
  ∀ l1 l2, l = l1 ++ a :: l2 → b ∈ l2.
Proof.
  intros Ht Htc. induction Htc as [a b Hab|a c b Hac Hcb IH]; intros l1 l2 ->.
  - apply topo_app in Ht as (Hsucc & _). by apply Hsucc.
  - pose proof Ht as (Hsucc & _)%topo_app.
    destruct (list_elem_of_split l2 c (Hsucc c Hac)) as (m1 & m2 & ->).
    apply elem_of_app. right. right.
    apply (IH (l1 ++ a :: m1) m2). by rewrite <- app_assoc.
Qed.

Lemma topo_before edges l a b :
  topo edges l → (a, b) ∈ edges → a ∈ l → before l a b.
Proof.
  intros Ht Hab (l1 & l2 & ->)%list_elem_of_split.
  pose proof Ht as (Hsucc & _)%topo_app.
  destruct (list_elem_of_split l2 b (Hsucc b Hab)) as (m1 & m2 & ->).
  by exists l1, m1, m2.
Qed.

Lemma toposort_Done_acyclic edges l : toposort edges = Done l → acyclic edges.
Proof.
  intros (Ht & Hnodes)%toposort_Done n Hn.
  assert (Hin : n ∈ l).
  { apply Hnodes. inversion Hn as [? ? Hnb|? b ? Hnb _]; subst; by eapply edge_source_node. }
  destruct (list_elem_of_split l n Hin) as (l1 & l2 & ->).
  pose proof (topo_tc edges _ n n Ht Hn l1 l2 eq_refl) as Hn2.
  apply topo_app in Ht as (_ & Hfresh & _). done.
Qed.

(** [toposort] returns an order when, and only when, no path of edges
    comes back to its start. *)
Lemma toposort_acyclic edges : acyclic edges → ∃ l, toposort edges = Done l.
Proof.
  intros Hac. destruct (toposort edges) as [l|n|] eqn:Hts.
  - by exists l.
  - destruct (Hac n). by apply toposort_Cyclic.
  - by destruct (toposort_total edges).
Qed.


End facts.
End ToposortFacts.

(** ** Dictionaries *)

Module ObjFacts.
Section facts.
Context {V : Type}.
Implicit Types (o : list (string * V)) (k : string) (v : V).

Lemma get_Some_elem o k v : Obj.get k o = Some v → (k, v) ∈ o.
Proof.
  induction o as [|[k' v'] o IH]; simpl; [discriminate|].
  destruct (decide (k' = k)) as [->|].
  - intros [= ->]. by left.
  - intros Hg. right. auto.
Qed.

Lemma get_Some_key o k v : Obj.get k o = Some v → k ∈ Obj.keys o.
Proof.
  intros Hg%get_Some_elem. unfold Obj.keys.
  apply list_elem_of_fmap. by exists (k, v).
Qed.

Lemma get_is_Some o k : k ∈ Obj.keys o → is_Some (Obj.get k o).
Proof.
  induction o as [|[k' v'] o IH]; simpl; [by intros ?%elem_of_nil|].
  destruct (decide (k' = k)); [by eexists|].
  intros [?|?]%elem_of_cons; [congruence|auto].
Qed.

Lemma get_set o k k' v :
  Obj.get k' (Obj.set k v o) = if decide (k = k') then Some v else Obj.get k' o.
Proof.
  induction o as [|[k0 v0] o IH]; simpl.
  - destruct (decide (k = k')); done.
  - destruct (decide (k0 = k)) as [->|Hne]; simpl.
    + destruct (decide (k = k')); done.
    + destruct (decide (k0 = k')) as [->|]; [|done].
      destruct (decide (k = k')); [congruence|done].
Qed.

End facts.
End ObjFacts.

(** ** The names to build *)

Module AddAllBaseModelsFacts.
Import Js Data Loader ObjFacts.

Lemma unvisited_keys_le keys visited k :
  unvisited_keys keys ({[k]} ∪ visited) ≤ unvisited_keys keys visited.
Proof.
  unfold unvisited_keys. induction keys as [|k' l IH]; simpl; [done|].
  rewrite !filter_cons.
  destruct (decide (k' ∉ {[k]} ∪ visited)), (decide (k' ∉ visited)); simpl; try lia.
  set_solver.
Qed.

Lemma unvisited_keys_lt keys visited k :
  k ∈ keys → k ∉ visited →
  unvisited_keys keys ({[k]} ∪ visited) < unvisited_keys keys visited.
Proof.
  induction keys as [|k' l IH]; [by intros ?%elem_of_nil|].
  intros Hin Hk. pose proof (unvisited_keys_le l visited k) as Hle.
  unfold unvisited_keys in *. rewrite !filter_cons.
  destruct (decide (k' = k)) as [->|Hne].
  - destruct (decide (k ∉ {[k]} ∪ visited)) as [Hc|_].
    { destruct Hc. apply elem_of_union. left. by apply elem_of_singleton. }
    destruct (decide (k ∉ visited)); [|done]. simpl. lia.
  - rewrite elem_of_cons in Hin. destruct Hin as [Heq|Hin']; [congruence|].
    specialize (IH Hin' Hk).
    destruct (decide (k' ∉ {[k]} ∪ visited)), (decide (k' ∉ visited)); simpl; try lia.
    set_solver.
Qed.

Lemma unvisited_le registry visited k :
  unvisited registry ({[k]} ∪ visited) ≤ unvisited registry visited.
Proof. apply unvisited_keys_le. Qed.

Lemma unvisited_lt registry visited k :
  k ∈ Obj.keys registry → k ∉ visited →
  unvisited registry ({[k]} ∪ visited) < unvisited registry visited.
Proof. apply unvisited_keys_lt. Qed.

Lemma at_name_key {V} (o : list (string * V)) (n : jsname) v :
  Obj.at_name o n = Some v → property_key n ∈ Obj.keys o.
Proof. apply get_Some_key. Qed.

Lemma addAllBaseModels_loop_terminates registry :
  ∀ fuel modelNames result visited,
    unvisited registry visited + length modelNames < fuel →
    is_Some (addAllBaseModels_loop fuel registry modelNames result visited).
Proof.
  induction fuel as [|fuel IH]; intros modelNames result visited Hlt; [lia|].
  cbn [addAllBaseModels_loop]. destruct modelNames as [|name modelNames]; [by eexists|].
  simpl in Hlt.
  destruct (decide (property_key name ∈ visited ∨ _)) as [Hv|Hv].
  { apply IH. lia. }
  pose proof (unvisited_le registry visited (property_key name)) as Hle.
  destruct (Obj.at_name registry name) as [entry|] eqn:Hentry; [|apply IH; lia].
  cbv zeta. destruct (decide (is_Some _ ∨ _)); [|apply IH; lia].
  apply IH. rewrite length_app. simpl.
  assert (Hfresh : property_key name ∉ visited) by (intros ?; apply Hv; by left).
  pose proof (unvisited_lt registry visited _ (at_name_key _ _ _ Hentry) Hfresh). lia.
Qed.

Lemma unvisited_empty registry : unvisited registry ∅ ≤ length registry.
Proof.
  unfold unvisited, unvisited_keys, Obj.keys.
  etrans; [apply length_filter|]. by rewrite length_fmap.
Qed.

(** The loop of [addAllBaseModels] ends within its bound: the function
    returns the list the loop has built. *)
Lemma addAllBaseModels_returns registry modelNames :
  addAllBaseModels_loop (addAllBaseModels_fuel registry modelNames)
    registry modelNames [] ∅ = Some (addAllBaseModels registry modelNames).
Proof.
  unfold addAllBaseModels.
  destruct (addAllBaseModels_loop_terminates registry
              (addAllBaseModels_fuel registry modelNames) modelNames [] ∅) as [r ->]; [|done].
  unfold addAllBaseModels_fuel. pose proof (unvisited_empty registry). lia.
Qed.

Lemma addAllBaseModels_loop_step fuel registry name modelNames result visited :
  addAllBaseModels_loop (S fuel) registry (name :: modelNames) result visited =
  if decide (property_key name ∈ visited ∨ property_key name ∈ object_prototype) then
    addAllBaseModels_loop fuel registry modelNames result visited
  else
    addAllBaseModels_loop fuel registry (modelNames ++ pushed registry name)
      (result ++ [name]) ({[property_key name]} ∪ visited).
Proof.
  cbn [addAllBaseModels_loop]. unfold pushed.
  destruct (decide _); [done|].
  destruct (Obj.at_name registry name) as [entry|]; [|by rewrite app_nil_r].
  cbv zeta. destruct (decide (is_Some _ ∨ _)); [done|by rewrite app_nil_r].
Qed.

(** An invariant of the loop holds of what it returns. *)
Lemma addAllBaseModels_loop_ind registry
    (P : list jsname → list jsname → gset string → Prop) :
  (∀ name q result visited,
      P (name :: q) result visited →
      property_key name ∈ visited ∨ property_key name ∈ object_prototype →
      P q result visited) →
  (∀ name q result visited,
      P (name :: q) result visited →
      property_key name ∉ visited → property_key name ∉ object_prototype →
      P (q ++ pushed registry name) (result ++ [name]) ({[property_key name]} ∪ visited)) →
  ∀ fuel q result visited r,
    P q result visited →
    addAllBaseModels_loop fuel registry q result visited = Some r →
    ∃ visited', P [] r visited'.
Proof.
  intros Hskip Hvisit. induction fuel as [|fuel IH]; intros q result visited r HP; [done|].
  destruct q as [|name q].
  { intros [= <-]. by exists visited. }
  rewrite addAllBaseModels_loop_step.
  destruct (decide _) as [Hv|Hv]; apply IH; [by eapply Hskip|].
  apply Hvisit; [done|..]; intros ?; apply Hv; auto.
Qed.

Lemma pushed_key registry name b :
  b ∈ pushed registry name →
  property_key b ∈ Obj.keys registry ∨ property_key b ∈ object_prototype.
Proof.
  unfold pushed. destruct (Obj.at_name registry name) as [entry|]; [|by intros ?%elem_of_nil].
  cbv zeta. destruct (decide _) as [[[e He]|Hp]|]; [| |by intros ?%elem_of_nil].
  - intros ->%list_elem_of_singleton. left. by eapply at_name_key.
  - intros ->%list_elem_of_singleton. by right.
Qed.

Lemma undefined_not_inherited : "undefined" ∉ object_prototype.
Proof.
  unfold object_prototype. intros H.
  repeat (apply elem_of_cons in H as [H|H]; [discriminate|]).
  by apply elem_of_nil in H.
Qed.

(** The names built have pairwise different keys. *)
Lemma addAllBaseModels_NoDup registry modelNames :
  NoDup (property_key <$> addAllBaseModels registry modelNames).
Proof.
  pose proof (addAllBaseModels_returns registry modelNames) as Hr.
  pose (P := λ (q result : list jsname) (visited : gset string),
    NoDup (property_key <$> result) ∧ ∀ n, n ∈ result → property_key n ∈ visited).
  destruct (addAllBaseModels_loop_ind registry P) with (4 := Hr) as (v & Hnd & _).
  - intros name q result visited HP _. exact HP.
  - intros name q result visited (Hnd & Hin) Hv _. split.
    + rewrite fmap_app. apply NoDup_app. split; [done|]. split; [|apply NoDup_singleton].
      intros k (n & -> & Hn)%list_elem_of_fmap Hk%list_elem_of_singleton.
      apply Hv. rewrite <- Hk. by apply Hin.
    + intros n [Hn|Hn%list_elem_of_singleton]%elem_of_app; [|subst n].
      * apply elem_of_union. right. by apply Hin.
      * apply elem_of_union. left. by apply elem_of_singleton.
  - split; [apply NoDup_nil_2|]. by intros n ?%elem_of_nil.
  - done.
Qed.

(** No name built is a name every object inherits. *)
Lemma addAllBaseModels_plain registry modelNames n :
  n ∈ addAllBaseModels registry modelNames → property_key n ∉ object_prototype.
Proof.
  pose proof (addAllBaseModels_returns registry modelNames) as Hr.
  pose (P := λ (q result : list jsname) (visited : gset string),
    ∀ n, n ∈ result → property_key n ∉ object_prototype).
  destruct (addAllBaseModels_loop_ind registry P) with (4 := Hr) as (v & HP).
  - intros name q result visited HP _. exact HP.
  - intros name q result visited HP _ Hplain n0
      [Hn|Hn%list_elem_of_singleton]%elem_of_app; [by apply HP|by subst n0].
  - by intros n0 ?%elem_of_nil.
  - apply HP.
Qed.

(** Without a definition registered as ["undefined"], ordinary names in:
    ordinary names out. *)
Lemma addAllBaseModels_ordinary registry modelNames :
  "undefined" ∉ Obj.keys registry →
  Forall ordinary modelNames →
  Forall ordinary (addAllBaseModels registry modelNames).
Proof.
  intros Hu Hq. pose proof (addAllBaseModels_returns registry modelNames) as Hr.
  pose (P := λ (q result : list jsname) (visited : gset string),
    Forall ordinary q ∧ Forall ordinary result).
  destruct (addAllBaseModels_loop_ind registry P) with (4 := Hr) as (v & _ & Hres).
  - intros name q result visited (Hq' & Hres) _. by inversion Hq'.
  - intros name q result visited (Hq' & Hres) _ _. inversion Hq' as [|? ? Hn Hq'']; subst.
    split; apply Forall_app; split; auto.
    apply Forall_forall. intros b Hb%pushed_key.
    destruct b as [s|]; simpl in Hb.
    + exists s. split; [done|]. intros ->.
      destruct Hb as [?|?]; [done|by apply undefined_not_inherited].
    + destruct Hb as [?|?]; [done|by destruct undefined_not_inherited].
  - split; [done|apply Forall_nil_2].
  - done.
Qed.

(** Without a definition registered as ["undefined"], no [undefined] joins
    the names. *)
Lemma addAllBaseModels_is_Some registry modelNames :
  "undefined" ∉ Obj.keys registry →
  Forall is_Some modelNames →
  Forall is_Some (addAllBaseModels registry modelNames).
Proof.
  intros Hu Hq. pose proof (addAllBaseModels_returns registry modelNames) as Hr.
  pose (P := λ (q result : list jsname) (visited : gset string),
    Forall is_Some q ∧ Forall is_Some result).
  destruct (addAllBaseModels_loop_ind registry P) with (4 := Hr) as (v & _ & Hres).
  - intros name q result visited (Hq' & Hres) _. by inversion Hq'.
  - intros name q result visited (Hq' & Hres) _ _. inversion Hq' as [|? ? Hn Hq'']; subst.
    split; apply Forall_app; split; auto.
    apply Forall_forall. intros b Hb%pushed_key.
    destruct b as [s|]; simpl in Hb; [by eexists|].
    destruct Hb as [?|?]; [done|by destruct undefined_not_inherited].
  - split; [done|apply Forall_nil_2].
  - done.
Qed.

(** Every name asked for is built, or a name with the same key is, unless
    it is a name every object inherits. *)
Lemma addAllBaseModels_requested registry modelNames n :
  n ∈ modelNames → property_key n ∉ object_prototype →
  ∃ n', n' ∈ addAllBaseModels registry modelNames ∧ property_key n' = property_key n.
Proof.
  intros Hn Hplain. pose proof (addAllBaseModels_returns registry modelNames) as Hr.
  pose (P := λ (q result : list jsname) (visited : gset string),
    (∀ k, k ∈ visited → ∃ n', n' ∈ result ∧ property_key n' = k) ∧
    (n ∈ q ∨ property_key n ∈ visited)).
  destruct (addAllBaseModels_loop_ind registry P) with (4 := Hr) as (v & Hv & [Hq|Hk]).
  - intros name q result visited (Hvis & Hq) Hname. split; [done|].
    destruct Hq as [[->|?]%elem_of_cons|?]; auto.
    destruct Hname; [by right|done].
  - intros name q result visited (Hvis & Hq) Hname _. split.
    + intros k [Hk%elem_of_singleton|Hk]%elem_of_union.
      * exists name. split; [|done]. apply elem_of_app. right. by left.
      * destruct (Hvis k Hk) as (n' & ? & ?). exists n'. split; [|done].
        apply elem_of_app. by left.
    + destruct Hq as [[->|?]%elem_of_cons|?].
      * right. apply elem_of_union. left. by apply elem_of_singleton.
      * left. apply elem_of_app. by left.
      * right. apply elem_of_union. by right.
  - split; [by intros k ?%elem_of_empty|by left].
  - by apply elem_of_nil in Hq.
  - by apply Hv.
Qed.

(** The names built are closed under the base reference: the base of a
    built definition is built too when it is a registered definition and
    not a name every object inherits. *)
Lemma addAllBaseModels_closed registry modelNames n b :
  n ∈ addAllBaseModels registry modelNames → b ∈ pushed registry n →
  property_key b ∉ object_prototype →
  ∃ n', n' ∈ addAllBaseModels registry modelNames ∧ property_key n' = property_key b.
Proof.
  intros Hn Hb Hplain.
  pose proof (addAllBaseModels_returns registry modelNames) as Hr.
  pose (P := λ (q result : list jsname) (visited : gset string),
    (∀ k, k ∈ visited → ∃ n', n' ∈ result ∧ property_key n' = k) ∧
    (∀ n, n ∈ result → b ∈ pushed registry n → b ∈ q ∨ property_key b ∈ visited)).
  destruct (addAllBaseModels_loop_ind registry P) with (4 := Hr) as (v & Hv & Hcl).
  - intros name q result visited (Hvis & Hq) Hname. split; [done|].
    intros n0 Hn0 Hb0. destruct (Hq n0 Hn0 Hb0) as [[->|?]%elem_of_cons|?]; auto.
    destruct Hname; [by right|done].
  - intros name q result visited (Hvis & Hq) Hname _. split.
    + intros k [Hk%elem_of_singleton|Hk]%elem_of_union.
      * exists name. split; [|done]. apply elem_of_app. right. by left.
      * destruct (Hvis k Hk) as (n' & ? & ?). exists n'. split; [|done].
        apply elem_of_app. by left.
    + intros n0 [Hn0|Hn0%list_elem_of_singleton]%elem_of_app Hb0.
      * destruct (Hq n0 Hn0 Hb0) as [[->|?]%elem_of_cons|?].
        -- right. apply elem_of_union. left. by apply elem_of_singleton.
        -- left. apply elem_of_app. by left.
        -- right. apply elem_of_union. by right.
      * subst n0. left. apply elem_of_app. by right.
  - split; [by intros k ?%elem_of_empty|]. by intros n0 ?%elem_of_nil.
  - destruct (Hcl n Hn Hb) as [Hq|Hk]; [by apply elem_of_nil in Hq|].
    by apply Hv.
Qed.

(** Without a [models] map every registered name is built, as the string
    it is registered under, unless it is a name every object inherits. *)
Lemma addAllBaseModels_all_keys registry k :
  k ∈ Obj.keys registry → k ∉ object_prototype →
  Some k ∈ addAllBaseModels registry (Some <$> Obj.keys registry).
Proof.
  intros Hk Hplain.
  pose proof (addAllBaseModels_returns registry (Some <$> Obj.keys registry)) as Hr.
  pose (P := λ (q result : list jsname) (visited : gset string),
    (∀ key, key ∈ visited → Some key ∈ result) ∧
    ∃ q1 q2, q = q1 ++ q2 ∧ (∀ n, n ∈ q1 → is_Some n) ∧
             (∀ b, b ∈ q2 → property_key b ∈ Obj.keys registry ∨
                            property_key b ∈ object_prototype) ∧
             (∀ key, key ∈ Obj.keys registry →
                     key ∈ visited ∨ Some key ∈ q1 ∨ key ∈ object_prototype)).
  destruct (addAllBaseModels_loop_ind registry P) with (4 := Hr)
    as (v & Hv & q1 & q2 & Hq & _ & _ & Hkeys).
  - intros name q result visited (Hvis & q1 & q2 & Hq & Hq1 & Hq2 & Hkeys) Hname.
    split; [done|]. destruct q1 as [|n q1]; simpl in Hq.
    + exists [], q. subst q2. split; [done|]. split; [done|]. split; [|done].
      intros b Hb. apply Hq2. by right.
    + injection Hq as <- ->. exists q1, q2. split; [done|]. split.
      { intros n' Hn'. apply Hq1. by right. }
      split; [done|]. intros key Hkey.
      destruct (Hkeys key Hkey) as [?|[[Hn|?]%elem_of_cons|?]]; auto.
      subst name. simpl in Hname. destruct Hname; auto.
  - intros name q result visited (Hvis & q1 & q2 & Hq & Hq1 & Hq2 & Hkeys) Hname Hplain'.
    destruct q1 as [|n q1]; simpl in Hq.
    { subst q2. exfalso. destruct (Hq2 name) as [Hreg|Hinh]; [by left| |done].
      destruct (Hkeys (property_key name) Hreg) as [?|[Hin|?]]; [done| |done].
      by apply elem_of_nil in Hin. }
    injection Hq as <- ->. destruct (Hq1 name) as [k0 ->]; [by left|]. simpl in *.
    split.
    + intros key [Hkey%elem_of_singleton|Hkey]%elem_of_union; apply elem_of_app.
      * right. subst key. by left.
      * left. by apply Hvis.
    + exists q1, (q2 ++ pushed registry (Some k0)). split; [by rewrite app_assoc|].
      split. { intros n' Hn'. apply Hq1. by right. }
      split.
      { intros b [Hb|Hb]%elem_of_app; [by apply Hq2|by eapply pushed_key]. }
      intros key Hkey. destruct (Hkeys key Hkey) as [?|[[Hn|?]%elem_of_cons|?]].
      * left. apply elem_of_union. by right.
      * left. injection Hn as ->. apply elem_of_union. left. by apply elem_of_singleton.
      * right. by left.
      * right. by right.
  - split; [by intros key ?%elem_of_empty|].
    exists (Some <$> Obj.keys registry), []. split; [by rewrite app_nil_r|].
    split. { intros n (k' & -> & _)%list_elem_of_fmap. by eexists. }
    split; [by intros b ?%elem_of_nil|].
    intros key Hkey. right. left. by apply list_elem_of_fmap_2.
  - symmetry in Hq. apply app_eq_nil in Hq as [-> ->].
    destruct (Hkeys k Hk) as [Hin|[Hin|Hin]];
      [by apply Hv|by apply elem_of_nil in Hin|done].
Qed.

End AddAllBaseModelsFacts.

(** ** Sorting by inheritance *)

Module SortFacts.
Import Js Data Loader ObjFacts AddAllBaseModelsFacts.

Implicit Types (instructions l : list Instruction) (i a b x : Instruction).

Lemma instructionsByModelName_snoc l x :
  instructionsByModelName (l ++ [x]) = Obj.set (key_of x) x (instructionsByModelName l).
Proof. unfold instructionsByModelName. by rewrite foldl_snoc. Qed.

Lemma instructionsByModelName_Some l k i :
  Obj.get k (instructionsByModelName l) = Some i → i ∈ l ∧ key_of i = k.
Proof.
  induction l as [|x l IH] using rev_ind; [done|].
  rewrite instructionsByModelName_snoc, get_set.
  destruct (decide (key_of x = k)) as [Hk|Hk].
  - intros [= ->]. split; [|done]. apply elem_of_app. right. by left.
  - intros (? & ?)%IH. split; [|done]. apply elem_of_app. by left.
Qed.

Lemma instructionsByModelName_elem l i :
  NoDup (key_of <$> l) → i ∈ l →
  Obj.get (key_of i) (instructionsByModelName l) = Some i.
Proof.
  induction l as [|x l IH] using rev_ind; [by intros _ ?%elem_of_nil|].
  rewrite fmap_app, NoDup_app. intros (Hnd & Hfresh & _) Hin.
  rewrite instructionsByModelName_snoc, get_set.
  apply elem_of_app in Hin as [Hin|Hin%list_elem_of_singleton].
  - destruct (decide (key_of x = key_of i)) as [Hk|Hk]; [|by apply IH].
    destruct (Hfresh (key_of i)).
    + by apply list_elem_of_fmap_2.
    + rewrite <- Hk. by left.
  - subst x. by destruct (decide _).
Qed.

Lemma NoDup_omap {X Y} (f : X → option Y) (l : list X) :
  (∀ (x x' : X) (y : Y), x ∈ l → x' ∈ l → f x = Some y → f x' = Some y → x = x') →
  NoDup l → NoDup (omap f l).
Proof.
  induction l as [|x0 l IH]; simpl; [intros; apply NoDup_nil_2|].
  intros Hinj [Hx Hl]%NoDup_cons.
  assert (Hrec : NoDup (omap f l)).
  { apply IH; [|done]. intros x1 x2 y ? ?. apply Hinj; by right. }
  destruct (f x0) as [y|] eqn:Hfx; [|done].
  apply NoDup_cons. split; [|done].
  intros (x' & Hx' & Hfx')%list_elem_of_omap.
  apply Hx. rewrite (Hinj x0 x' y); [done|by left|by right|done|done].
Qed.


Lemma edge_of_elem instructions i :
  i ∈ instructions →
  (getBaseModelName (inst_definition i), inst_name i) ∈ edge_of <$> instructions.
Proof. intros Hi. by apply (list_elem_of_fmap_2 edge_of). Qed.

Lemma ordinary_key_inj n n' :
  ordinary n → ordinary n' → property_key n = property_key n' → n = n'.
Proof. intros (s & -> & _) (s' & -> & _). simpl. by intros ->. Qed.

(** Instructions with pairwise different ordinary names and no cycle among
    their base references: the sort returns them all, each once, a base
    before the instructions that extend it. *)
Lemma sortByInheritance_order instructions :
  NoDup (inst_name <$> instructions) →
  Forall (λ i, ordinary (inst_name i)) instructions →
  Toposort.acyclic (edge_of <$> instructions) →
  ∃ sorted,
    sortByInheritance instructions = Ret sorted ∧
    sorted ≡ₚ instructions ∧
    ∀ a b, a ∈ instructions → b ∈ instructions →
      getBaseModelName (inst_definition b) = inst_name a →
      Toposort.before sorted a b.
Proof.
  intros Hnd Hord Hac. rewrite Forall_forall in Hord.
  unfold sortByInheritance.
  destruct (ToposortFacts.toposort_acyclic _ Hac) as (names & Hts). rewrite Hts.
  destruct (ToposortFacts.toposort_Done _ _ Hts) as (Htopo & Hnodes).
  eexists. split; [done|].
  set (f := Obj.at_name (instructionsByModelName instructions)).
  assert (Hkeys : NoDup (key_of <$> instructions)).
  { change (key_of <$> instructions) with ((property_key ∘ inst_name) <$> instructions).
    rewrite list_fmap_compose. apply NoDup_fmap_2_strong; [|done].
    intros n n' (i & -> & Hi)%list_elem_of_fmap (i' & -> & Hi')%list_elem_of_fmap.
    apply ordinary_key_inj; by apply Hord. }
  assert (Hf : ∀ i, i ∈ instructions → f (inst_name i) = Some i).
  { intros i Hi. by apply instructionsByModelName_elem. }
  assert (Hname : ∀ i, i ∈ instructions → inst_name i ∈ names).
  { intros i Hi. apply Hnodes. eapply ToposortFacts.edge_target_node.
    by apply edge_of_elem. }
  assert (Hfinv : ∀ n i, f n = Some i → i ∈ instructions ∧ n = inst_name i).
  { intros n i (Hi & Hk)%instructionsByModelName_Some. split; [done|].
    destruct (Hord i Hi) as (s' & Hs & Hne). unfold key_of in Hk. rewrite Hs in *.
    simpl in Hk. destruct n as [s''|]; simpl in Hk; congruence. }
  split.
  - apply NoDup_Permutation.
    + apply NoDup_omap; [|by eapply ToposortFacts.topo_NoDup].
      intros n n' i _ _ (_ & ->)%Hfinv (_ & ->)%Hfinv. done.
    + by eapply NoDup_fmap_1.
    + intros i. rewrite list_elem_of_omap. split.
      * intros (n & _ & (? & _)%Hfinv). done.
      * intros Hi. exists (inst_name i). auto.
  - intros a b Ha Hb Hbase.
    assert (Hedge : (inst_name a, inst_name b) ∈ edge_of <$> instructions).
    { rewrite <- Hbase. by apply edge_of_elem. }
    destruct (ToposortFacts.topo_before _ _ _ _ Htopo Hedge (Hname a Ha))
      as (l1 & l2 & l3 & ->).
    exists (omap f l1), (omap f l2), (omap f l3).
    rewrite omap_app. simpl. rewrite (Hf a Ha), omap_app. simpl. by rewrite (Hf b Hb).
Qed.

End SortFacts.


(** ** The instructions of a call *)

Module AssembleFacts.
Import Js Data State Loader Spec ObjFacts AddAllBaseModelsFacts SortFacts.

Lemma assembled_names registry modelsConfig dataSouce :
  inst_name <$> assembleInstructions registry modelsConfig dataSouce =
  addAllBaseModels registry
    (Some <$> match modelsConfig with
              | Some cfg => Obj.keys cfg
              | None => Obj.keys registry
              end).
Proof.
  unfold assembleInstructions. rewrite <- list_fmap_compose.
  rewrite (list_fmap_ext _ id); [by rewrite list_fmap_id|done].
Qed.

Lemma assembled_elem registry modelsConfig dataSouce (i : Instruction) :
  i ∈ assembleInstructions registry modelsConfig dataSouce →
  i = createModelInstructions registry modelsConfig dataSouce (inst_name i).
Proof. unfold assembleInstructions. by intros (n & -> & _)%list_elem_of_fmap. Qed.

(** A base reference between two registered definitions is an edge of the
    instructions built without a [models] map. *)
Lemma plain_names_Forall registry :
  Forall (λ k, k ∉ object_prototype) (Obj.keys registry) → plain_names registry.
Proof. intros Hall k Hk. rewrite Forall_forall in Hall. by apply Hall. Qed.

Lemma plain_bases_Forall registry :
  Forall (λ kv, from_option inherited false
                  (getBaseModelName (Some (entry_definition kv.2))) = false) registry →
  plain_bases registry.
Proof.
  intros Hall k entry b Hin Hb. rewrite Forall_forall in Hall.
  specialize (Hall _ Hin). cbn [snd] in Hall. rewrite Hb in Hall.
  by apply bool_decide_eq_false in Hall.
Qed.

Lemma extends_edge registry dataSouce a b :
  plain_names registry →
  extends registry a b →
  Toposort.edge_rel (edge_of <$> assembleInstructions registry None dataSouce)
    (Some a) (Some b).
Proof.
  intros Hplain (entry & Hentry & Hbase). unfold Toposort.edge_rel, assembleInstructions.
  rewrite <- list_fmap_compose. apply list_elem_of_fmap.
  exists (Some b). split.
  - unfold edge_of, createModelInstructions, Obj.at_name. simpl.
    rewrite Hentry. simpl. by rewrite <- Hbase.
  - apply get_Some_key in Hentry. apply addAllBaseModels_all_keys; [done|by apply Hplain].
Qed.

Lemma extends_cycle registry dataSouce n :
  plain_names registry →
  tc (extends registry) n n →
  tc (Toposort.edge_rel (edge_of <$> assembleInstructions registry None dataSouce))
     (Some n) (Some n).
Proof.
  intros Hplain. apply (tc_congruence Some). intros a b. by apply extends_edge.
Qed.







(** When no name is ["undefined"], and no base reference comes back to its
    model: the instructions are returned, each once, every base before the
    models that extend it. *)
Lemma assembled_bases_first registry modelsConfig dataSouce :
  "undefined" ∉ Obj.keys registry →
  (∀ cfg, modelsConfig = Some cfg → "undefined" ∉ Obj.keys cfg) →
  Toposort.acyclic (edge_of <$> assembleInstructions registry modelsConfig dataSouce) →
  ∃ sorted,
    sortByInheritance (assembleInstructions registry modelsConfig dataSouce) = Ret sorted ∧
    sorted ≡ₚ assembleInstructions registry modelsConfig dataSouce ∧
    ∀ a b, a ∈ sorted → b ∈ sorted →
      getBaseModelName (inst_definition b) = inst_name a →
      Toposort.before sorted a b.
Proof.
  intros Hreg Hcfg Hac.
  set (keys := match modelsConfig with
               | Some cfg => Obj.keys cfg
               | None => Obj.keys registry
               end).
  assert (Hkeys : "undefined" ∉ keys).
  { unfold keys. destruct modelsConfig; [by apply Hcfg|done]. }
  assert (Hord : Forall ordinary (inst_name <$> assembleInstructions registry modelsConfig dataSouce)).
  { rewrite assembled_names. apply addAllBaseModels_ordinary; [done|].
    apply Forall_forall. intros n (k & -> & Hk)%list_elem_of_fmap.
    exists k. split; [done|]. by intros ->. }
  destruct (sortByInheritance_order (assembleInstructions registry modelsConfig dataSouce))
    as (sorted & Hsort & Hperm & Hbefore).
  - rewrite assembled_names. eapply NoDup_fmap_1, addAllBaseModels_NoDup.
  - by rewrite Forall_fmap in Hord.
  - done.
  - exists sorted. split; [done|]. split; [done|].
    intros a b Ha Hb. apply Hbefore; by rewrite <- Hperm.
Qed.

(** The base a built definition names is built too when it is registered. *)
Lemma assembled_closed registry modelsConfig dataSouce (b : Instruction) (a : string) :
  "undefined" ∉ Obj.keys registry →
  b ∈ assembleInstructions registry modelsConfig dataSouce →
  getBaseModelName (inst_definition b) = Some a →
  a ∈ Obj.keys registry → a ∉ object_prototype →
  ∃ i, i ∈ assembleInstructions registry modelsConfig dataSouce ∧ inst_name i = Some a.
Proof.
  intros Hreg Hb Hbase Ha Hplain. pose proof (assembled_elem _ _ _ _ Hb) as Hb'.
  assert (Hn : inst_name b ∈ inst_name <$> assembleInstructions registry modelsConfig dataSouce)
    by by apply list_elem_of_fmap_2.
  rewrite assembled_names in Hn.
  rewrite Hb' in Hbase. unfold createModelInstructions in Hbase.
  cbn [inst_definition inst_name] in Hbase.
  destruct (Obj.at_name registry (inst_name b)) as [entry|] eqn:Hentry; [|done].
  change (getBaseModelName (Some (entry_definition entry)) = Some a) in Hbase.
  destruct (addAllBaseModels_closed registry _ (inst_name b) (Some a) Hn) as (n' & Hn' & Hk).
  { unfold pushed. rewrite Hentry. cbv zeta. rewrite Hbase.
    rewrite decide_True; [by left|]. left. by apply get_is_Some. }
  { done. }
  simpl in Hk. destruct n' as [s'|]; simpl in Hk.
  - subst s'. rewrite <- (assembled_names registry modelsConfig dataSouce) in Hn'.
    apply list_elem_of_fmap in Hn' as (i & Hi & Hin). by exists i.
  - subst a. done.
Qed.

End AssembleFacts.

(** ** Ordering by inheritance *)

Module Ordering.
Import Js Data State Loader Spec ObjFacts AddAllBaseModelsFacts SortFacts AssembleFacts.

Lemma load_unfold h root options w heap :
  load h root options w heap =
  let '(address, heap1) := normalize h root options heap in
  let o := call_options h root options heap in
  let '(models, modelDefinitions') :=
    loadModelInstructions h (default "" (opt_root o)) o in
  let heap2 := update address (λ o, with_modelDefinitions o modelDefinitions') heap1 in
  match models with
  | Throw e => (Throw e, w, heap2)
  | Ret models =>
      let '(r, w') := setupModels h (mkInstructions models None) w in
      (r, w', heap2)
  end.
Proof.
  unfold load, call_options. by destruct (normalize h root options heap).
Qed.





(** C1.  The definitions [{name: "undefined", base: "A"}] and [{name: "A"}]
    have no cycle and the first declares the second as its base, yet the
    instruction of the model named [undefined] is returned twice, first
    before the instruction of its base [A]: the node [undefined] that stands
    for "no base" in the edges is looked up under the key ["undefined"].
    [load] then fails to create the model, its base being unknown yet.
    (For definitions none of which is named [undefined], bases do come
    first: [assembled_bases_first].) *)
Theorem undefined_named_model_precedes_its_base :
  let heap : gmap nat Options :=
    {[ 0 := Examples.with_definitions
              [Examples.named "undefined" (Some "A"); Examples.named "A" None] ]} in
  let o := call_options Examples.bare (RootString "/app") (Some 0) heap in
  let registry := [("undefined", Examples.named "undefined" (Some "A"));
                   ("A", Examples.named "A" None)] in
  call_definitions Examples.bare (RootString "/app") (Some 0) heap = Ret registry ∧
  extends registry "A" "undefined" ∧
  (¬ ∃ n, tc (extends registry) n n) ∧
  (∃ sorted,
     (loadModelInstructions Examples.bare (default "" (opt_root o)) o).1 = Ret sorted ∧
     inst_name <$> sorted = [Some "undefined"; Some "A"; Some "undefined"]) ∧
  (load Examples.bare (RootString "/app") (Some 0) Examples.line heap).1.1 =
  Throw (Error "Model not found: model `undefined` is extending an unknown model `A`.").
Proof.
  split; [vm_compute; reflexivity|]. split; [|split; [|split]].
  - eexists. split; reflexivity.
  - intros (n & Hn).
    apply (extends_cycle _ (Some "default")) in Hn.
    2: { apply plain_names_Forall. apply (bool_decide_unpack _). vm_compute. exact I. }
    revert Hn.
    eapply ToposortFacts.toposort_Done_acyclic. vm_compute. reflexivity.
  - eexists. split; vm_compute; reflexivity.
  - vm_compute. reflexivity.
Qed.

End Ordering.

(** ** Materializing *)

Module Materializing.
Import Js Data State Loader.

Lemma message_differs (n : string) :
  "Model not found: " +:+ n ≠ "Cannot configure unknown model " +:+ n.
Proof. simpl. intros [=]. Qed.

(** C3.  For an instruction without a definition whose name no registered
    model has, [defineModels] throws what [registry.getModel] throws,
    [Model not found: <name>]: the message is not [Cannot configure unknown
    model <name>], whose [throw] is never reached. *)
Theorem defineModels_unknown_model h data rest slots w :
  inst_definition data = None →
  models w !! property_key (inst_name data) = None →
  ∃ e, defineModels h (data :: rest) slots w = (Throw e, w) ∧
       message e = "Model not found: " +:+ property_key (inst_name data) ∧
       message e ≠ "Cannot configure unknown model " +:+ property_key (inst_name data).
Proof.
  intros Hdef Hnone. eexists. split; [|split].
  - simpl. rewrite Hdef. unfold bindM, Registry.getModel, Registry.findModel, bindM.
    rewrite Hnone. reflexivity.
  - reflexivity.
  - apply message_differs.
Qed.

Lemma defineModels_unknown_model_witness :
  ∃ e,
    defineModels Examples.bare
      [mkInstruction (Some "Ghost") (ConfigObj (mkConfig DsNull Absent Absent Absent)) None None]
      [] Examples.line = (Throw e, Examples.line) ∧
    message e = "Model not found: Ghost" ∧
    message e ≠ "Cannot configure unknown model Ghost".
Proof.
  apply (defineModels_unknown_model Examples.bare
           (mkInstruction (Some "Ghost") (ConfigObj (mkConfig DsNull Absent Absent Absent))
                          None None) [] [] Examples.line).
  - reflexivity.
  - vm_compute. reflexivity.
Defined.

(** *** Configuring *)

Lemma foldl_emit_models (es : list Event) w :
  models (foldl (λ w e, emit e w) w es) = models w ∧
  mixins (foldl (λ w e, emit e w) w es) = mixins w ∧
  dataSources (foldl (λ w e, emit e w) w es) = dataSources w ∧
  exported (foldl (λ w e, emit e w) w es) = exported w ∧
  log (foldl (λ w e, emit e w) w es) = log w ++ es.
Proof.
  revert w. induction es as [|e es IH]; intros w; simpl.
  - by rewrite app_nil_r.
  - destruct (IH (emit e w)) as (-> & -> & -> & -> & ->). simpl.
    by rewrite <- app_assoc.
Qed.

Lemma configureModel_unfold key m config w :
  Registry.configureModel key m config w =
  let name := modelName m in
  let configured := Registry.with_settings m (Spec.merged_settings name config (settings m)) in
  let w1 := foldl (λ w e, emit e w) (set_model key configured w)
              (Spec.merge_diagnostics name config (settings m)) in
  match cfg_dataSource config with
  | DsHandle d =>
      (Ret tt, emit (DebugAttached name (ds_name d))
                 (set_model key (Registry.attachTo configured d) w1))
  | DsName n =>
      if truthy n then
        (Throw (AssertionError ("Cannot configure " +:+ name +:+
                  ": config.dataSource must be an instance of DataSource")), w1)
      else (Ret tt, emit (WarnMissingDataSource name) w1)
  | DsNull | DsFalse => (Ret tt, emit (DebugNotAttachedByConfiguration name) w1)
  | DsUndefined => (Ret tt, emit (WarnMissingDataSource name) w1)
  end.
Proof.
  unfold Registry.configureModel, Spec.merged_settings, Spec.merge_diagnostics.
  destruct (Registry.mergeRelations _ _ _) as [s1 log1]. simpl.
  destruct (Registry.mergeAcls _ _ _) as [s2 log2]. simpl.
  destruct (Registry.mergeOptions _ _ _) as [s3 log3]. reflexivity.
Qed.

(** The options merge, key by key: a key that is [in excludedProperties]
    leaves the settings as they are and a warning in the log; any other key
    is written. *)
Lemma mergeOptions_fold name (options : list (string * value)) s :
  let r := foldl (Registry.mergeOption name) (s, []) options in
  set_base r.1 = set_base s ∧ set_super r.1 = set_super s ∧
  set_relations r.1 = set_relations s ∧ set_acls r.1 = set_acls s ∧
  (∀ p, Obj.get p (set_entries r.1) =
        if Registry.excluded p then Obj.get p (set_entries s)
        else match Obj.get p (reverse options) with
             | Some v => Some v
             | None => Obj.get p (set_entries s)
             end) ∧
  r.2 = (λ kv, WarnCannotReconfigure kv.1 name) <$>
          filter (λ kv, Registry.excluded kv.1 = true) options.
Proof.
  induction options as [|[k v] options IH] using rev_ind; simpl.
  { repeat split; try done. intros p. by destruct (Registry.excluded p). }
  rewrite foldl_snoc, reverse_snoc, filter_app, fmap_app.
  destruct IH as (Hb & Hs & Hr & Ha & He & Hl).
  set (acc := foldl (Registry.mergeOption name) (s, []) options) in *.
  unfold Registry.mergeOption. cbn [fst snd].
  rewrite filter_cons, filter_nil. cbn [fst snd].
  destruct (Registry.excluded k) eqn:Hk.
  - rewrite decide_True by done. cbn [fst snd Obj.get]. repeat split; try done.
    + intros p. rewrite He. destruct (Registry.excluded p) eqn:Hp; [done|].
      destruct (decide (k = p)) as [->|]; [congruence|done].
    + by rewrite Hl.
  - rewrite decide_False by (by intros [=]). cbn [fst snd Obj.get set_base set_super
      set_relations set_acls set_entries Registry.with_entry].
    repeat split; try done.
    + intros p. rewrite ObjFacts.get_set, He.
      destruct (decide (k = p)) as [->|Hne].
      * by rewrite Hk.
      * done.
    + by rewrite Hl, app_nil_r.
Qed.

(** C8.  Configuring a model with an [options] object never throws on
    account of it, and each of the keys [base], [super], [relations], [acls]
    and [dataSource] found in it leaves a warning in the log and the
    settings untouched.  But the test is [p in excludedProperties], which
    also holds of every name the object literal inherits: an option called
    [toString] or [constructor] is warned about and not copied either.
    Every key the test does not hold of is copied into the settings. *)
Theorem configureModel_options key m config options w :
  cfg_options config = Given options →
  let r := Registry.configureModel key m config w in
  (∀ e, r.1 = Throw e → ∃ n, cfg_dataSource config = DsName n ∧ truthy n = true) ∧
  (∃ m', models r.2 !! key = Some m' ∧
    (∀ p, Registry.excluded p = true → p ∈ Obj.keys options →
          WarnCannotReconfigure p (modelName m) ∈ log r.2) ∧
    (∀ p, Registry.excluded p = true →
          Obj.get p (set_entries (settings m')) =
          Obj.get p (set_entries (Registry.mergeAcls (modelName m) config
                       (Registry.mergeRelations (modelName m) config (settings m)).1).1)) ∧
    set_base (settings m') = set_base (settings m) ∧
    set_super (settings m') = set_super (settings m) ∧
    set_relations (settings m') =
      set_relations (Registry.mergeAcls (modelName m) config
                       (Registry.mergeRelations (modelName m) config (settings m)).1).1 ∧
    set_acls (settings m') =
      set_acls (Registry.mergeAcls (modelName m) config
                  (Registry.mergeRelations (modelName m) config (settings m)).1).1 ∧
    (∀ p v, Registry.excluded p = false → Obj.get p (reverse options) = Some v →
            Obj.get p (set_entries (settings m')) = Some v)) ∧
  (∀ p, p ∈ Registry.excludedProperties → Registry.excluded p = true) ∧
  (∀ p, p ∈ object_prototype →
        Registry.excluded p = true ∧ p ∉ Registry.excludedProperties).
Proof.
  intros Hopt r. unfold r. rewrite configureModel_unfold. cbv zeta.
  set (name := modelName m).
  set (s2 := (Registry.mergeAcls name config (Registry.mergeRelations name config (settings m)).1).1).
  assert (Hs3 : Spec.merged_settings name config (settings m) =
                (foldl (Registry.mergeOption name) (s2, []) options).1).
  { unfold Spec.merged_settings, Registry.mergeOptions. by rewrite Hopt. }
  assert (Hlog : Spec.merge_diagnostics name config (settings m) =
                 (Registry.mergeRelations name config (settings m)).2 ++
                 (Registry.mergeAcls name config
                    (Registry.mergeRelations name config (settings m)).1).2 ++
                 (foldl (Registry.mergeOption name) (s2, []) options).2).
  { unfold Spec.merge_diagnostics, Registry.mergeOptions. by rewrite Hopt. }
  destruct (mergeOptions_fold name options s2) as (Hb & Hs & Hr & Ha & He & Hl).
  assert (Hbase2 : set_base s2 = set_base (settings m) ∧ set_super s2 = set_super (settings m)).
  { unfold s2, Registry.mergeAcls, Registry.mergeRelations.
    destruct (cfg_relations config), (cfg_acls config); done. }
  set (configured := Registry.with_settings m _).
  set (w1 := foldl _ _ _).
  assert (Hw1 : models w1 !! key = Some configured ∧
                log w1 = log w ++ Spec.merge_diagnostics name config (settings m)).
  { unfold w1. destruct (foldl_emit_models (Spec.merge_diagnostics name config (settings m))
                           (set_model key configured w)) as (-> & _ & _ & _ & ->).
    split; [apply lookup_insert_eq|done]. }
  destruct Hw1 as [Hm1 Hlog1].
  assert (Hwarn : ∀ p, Registry.excluded p = true → p ∈ Obj.keys options →
                       WarnCannotReconfigure p name ∈ log w1).
  { intros p Hp (kv & -> & Hkv)%list_elem_of_fmap.
    rewrite Hlog1, Hlog, Hl. rewrite !elem_of_app. right. right. right.
    apply (list_elem_of_fmap_2 (λ kv, WarnCannotReconfigure kv.1 name)).
    by apply list_elem_of_filter. }
  assert (Hsettings :
    (∀ p, Registry.excluded p = true →
          Obj.get p (set_entries (settings configured)) = Obj.get p (set_entries s2)) ∧
    set_base (settings configured) = set_base (settings m) ∧
    set_super (settings configured) = set_super (settings m) ∧
    set_relations (settings configured) = set_relations s2 ∧
    set_acls (settings configured) = set_acls s2 ∧
    (∀ p v, Registry.excluded p = false → Obj.get p (reverse options) = Some v →
            Obj.get p (set_entries (settings configured)) = Some v)).
  { unfold configured. simpl. rewrite Hs3, Hb, Hs, Hr, Ha. destruct Hbase2 as [-> ->].
    repeat split; try done.
    - intros p Hp. by rewrite He, Hp.
    - intros p v Hp Hv. by rewrite He, Hp, Hv. }
  destruct Hsettings as (E1 & E2 & E3 & E4 & E5 & E6).
  assert (Hfive : ∀ p, p ∈ Registry.excludedProperties → Registry.excluded p = true).
  { intros p Hp. unfold Registry.excluded. by rewrite bool_decide_eq_true_2. }
  assert (Hproto : ∀ p, p ∈ object_prototype →
                        Registry.excluded p = true ∧ p ∉ Registry.excludedProperties).
  { intros p Hp. split.
    - unfold Registry.excluded, inherited. rewrite (bool_decide_eq_true_2 _ Hp).
      apply orb_true_r.
    - unfold object_prototype in Hp. intros Hin. unfold Registry.excludedProperties in Hin.
      repeat (apply elem_of_cons in Hp as [->|Hp];
              [repeat (apply elem_of_cons in Hin as [Hin|Hin]; [discriminate|]);
               by apply elem_of_nil in Hin|]).
      by apply elem_of_nil in Hp. }
  split; [|split; [|by split]].
  - destruct (cfg_dataSource config) as [| | |n|d] eqn:Hds; simpl.
    4: destruct (truthy n) eqn:Hn; simpl.
    all: first [by intros e [=] | intros e _; by exists n].
  - destruct (cfg_dataSource config) as [| | |n|d] eqn:Hds; simpl.
    4: destruct (truthy n) eqn:Hn; simpl.
    all: eexists; (split; [first [exact Hm1 | apply lookup_insert_eq]|]).
    all: split; [intros p Hp Hk; simpl; rewrite ?elem_of_app; auto|].
    all: simpl; auto 10.
Qed.

Lemma configureModel_options_witness :
  let config := mkConfig DsNull Absent Absent
                  (Given [("base", VStr "User"); ("toString", VStr "text");
                          ("strict", VBool true)]) in
  let r := Registry.configureModel "PersistedModel" Examples.PersistedModel
             config Examples.line in
  r.1 = Ret tt ∧
  ∃ m', models r.2 !! "PersistedModel" = Some m' ∧
        WarnCannotReconfigure "base" "PersistedModel" ∈ log r.2 ∧
        set_base (settings m') = None ∧
        Obj.get "base" (set_entries (settings m')) = None ∧
        Obj.get "strict" (set_entries (settings m')) = Some (VBool true) ∧
        ("toString" ∉ Registry.excludedProperties) ∧
        WarnCannotReconfigure "toString" "PersistedModel" ∈ log r.2 ∧
        Obj.get "toString" (set_entries (settings m')) = None.
Proof.
  destruct (configureModel_options "PersistedModel" Examples.PersistedModel
              (mkConfig DsNull Absent Absent
                 (Given [("base", VStr "User"); ("toString", VStr "text");
                         ("strict", VBool true)]))
              [("base", VStr "User"); ("toString", VStr "text"); ("strict", VBool true)]
              Examples.line eq_refl)
    as (Hthrow & (m' & Hm' & Hwarn & Hkept & Hbase & _ & _ & _ & Hcopied) & _ & Hproto).
  split; [reflexivity|].
  exists m'. split; [exact Hm'|]. split; [|split; [|split; [|split; [|split; [|split]]]]].
  - apply Hwarn; [reflexivity|]. left.
  - exact Hbase.
  - rewrite (Hkept "base"); reflexivity.
  - apply Hcopied; reflexivity.
  - apply (Hproto "toString"). right. left.
  - apply Hwarn; [reflexivity|]. right. left.
  - rewrite (Hkept "toString"); reflexivity.
Defined.

(** *** Attaching *)

Lemma line_configureModel_detached key m c w :
  isModel m = true → cfg_dataSource c = DsNull ∨ cfg_dataSource c = DsFalse →
  Line.configureModel key m c w =
  (Ret tt,
   emit (DebugNotAttachedByConfiguration (modelName m))
     (foldl (λ w e, emit e w)
        (set_model key
           (Registry.with_settings m (Spec.merged_settings (modelName m) c (settings m))) w)
        (Spec.merge_diagnostics (modelName m) c (settings m)))).
Proof.
  intros Hm Hds. unfold Line.configureModel. rewrite Hm. simpl.
  assert (Hsame : ∀ d, Spec.merged_settings (modelName m) (Line.with_dataSource c d) (settings m)
                       = Spec.merged_settings (modelName m) c (settings m) ∧
                       Spec.merge_diagnostics (modelName m) (Line.with_dataSource c d) (settings m)
                       = Spec.merge_diagnostics (modelName m) c (settings m)) by done.
  destruct Hds as [Hds|Hds]; rewrite Hds; rewrite configureModel_unfold; cbv zeta; simpl;
    match goal with
    | |- context [Line.with_dataSource c ?d] => by destruct (Hsame d) as [-> ->]
    end.
Qed.

(** C5 (as the code has it).  The attach step passes to [line.model] the
    instructions whose [config] is an object and skips every other one, a
    [null] or [false] config included.  For an object whose [dataSource] is
    [null] or [false], the relations, ACLs and options are merged into the
    settings of the model, the model is left without a datasource, the
    diagnostic is written and the model is exported. *)
Theorem attachModel_follows_truthy_config slots data w :
  (config_truthy (inst_config data) = false → attachModel slots data w = (Ret tt, w)) ∧
  (∀ c, inst_config data = ConfigObj c →
        attachModel slots data w =
        Line.model (Obj.at_name slots (inst_name data)) (ConfigObj c) w) ∧
  (∀ c key m,
     inst_config data = ConfigObj c →
     Obj.at_name slots (inst_name data) = Some key →
     models w !! key = Some m → isModel m = true →
     cfg_dataSource c = DsNull ∨ cfg_dataSource c = DsFalse →
     ∃ w', attachModel slots data w = (Ret tt, w') ∧
           models w' !! key =
             Some (Registry.with_settings m
                     (Spec.merged_settings (modelName m) c (settings m))) ∧
           log w' = log w ++ Spec.merge_diagnostics (modelName m) c (settings m) ++
                    [DebugNotAttachedByConfiguration (modelName m)] ∧
           exported w' = exported w ++ [key]).
Proof.
  split; [|split].
  - intros Hfalsy. unfold attachModel. by rewrite Hfalsy.
  - intros c Hc. unfold attachModel. by rewrite Hc.
  - intros c key m Hc Hslot Hm Hmodel Hds. unfold attachModel. rewrite Hc. simpl.
    unfold Line.model. rewrite Hslot. simpl. rewrite Hm. simpl.
    rewrite (line_configureModel_detached key m c w Hmodel Hds).
    eexists. split; [reflexivity|].
    destruct (foldl_emit_models (Spec.merge_diagnostics (modelName m) c (settings m))
                (set_model key
                   (Registry.with_settings m
                      (Spec.merged_settings (modelName m) c (settings m))) w))
      as (Hmodels & _ & _ & Hexp & Hlog).
    simpl. rewrite Hmodels, Hexp, Hlog. simpl.
    split; [apply lookup_insert_eq|]. split; [by rewrite <- app_assoc|done].
Qed.

Lemma attachModel_follows_truthy_config_witness :
  let skipped := mkInstruction (Some "PersistedModel") ConfigFalse None None in
  let configured :=
    mkInstruction (Some "PersistedModel") (ConfigObj Examples.detached) None None in
  attachModel [("PersistedModel", "PersistedModel")] skipped Examples.line =
    (Ret tt, Examples.line) ∧
  ∃ w', attachModel [("PersistedModel", "PersistedModel")] configured Examples.line =
          (Ret tt, w') ∧
        log w' = [WarnCannotReconfigure "base" "PersistedModel";
                  DebugNotAttachedByConfiguration "PersistedModel"] ∧
        exported w' = ["PersistedModel"].
Proof.
  split.
  - apply (attachModel_follows_truthy_config [("PersistedModel", "PersistedModel")]
             (mkInstruction (Some "PersistedModel") ConfigFalse None None) Examples.line).
    reflexivity.
  - destruct (attachModel_follows_truthy_config [("PersistedModel", "PersistedModel")]
                (mkInstruction (Some "PersistedModel") (ConfigObj Examples.detached) None None)
                Examples.line) as (_ & _ & H).
    destruct (H Examples.detached "PersistedModel" Examples.PersistedModel)
      as (w' & Hw' & _ & Hlog & Hexp).
    + reflexivity.
    + reflexivity.
    + vm_compute. reflexivity.
    + reflexivity.
    + left. reflexivity.
    + exists w'. split; [exact Hw'|]. split; [exact Hlog|exact Hexp].
Defined.

(** C5 (as the specification words it) fails: an instruction whose config
    is [null] is not passed to [line.model]; the code leaves the world as it
    is, where the specified step exports the model and writes a diagnostic. *)
Lemma null_config_is_not_passed_on :
  let data := mkInstruction (Some "PersistedModel") ConfigNull None None in
  let slots := [("PersistedModel", "PersistedModel")] in
  inst_config data ≠ ConfigUndefined ∧
  attachModel slots data Examples.line = (Ret tt, Examples.line) ∧
  exported (Spec.attachAsSpecified slots data Examples.line).2 = ["PersistedModel"] ∧
  attachModel slots data Examples.line ≠ Spec.attachAsSpecified slots data Examples.line.
Proof.
  split; [done|]. split; [reflexivity|]. split; [vm_compute; reflexivity|].
  intros Heq. apply (f_equal (λ r, exported r.2)) in Heq. vm_compute in Heq. discriminate.
Qed.

(** *** Mixins *)

(** Given the mixins of its instructions, [defineMixins] registers the
    exports that are functions or model classes and logs the others. *)
Lemma defineMixins_one h obj reg w mixin :
  mixins w = Some reg →
  requireMixin h (mixin_sourceFile obj) = Ret mixin →
  defineMixins h (mkInstructions [] (Some [obj])) w =
  match mixin with
  | MixinOther => (Ret tt, emit (DebugSkippingMixin (mixin_name obj)) w)
  | _ => (Ret tt, set_mixins (Obj.set (mixin_name obj) mixin reg)
                    (emit (DebugDefiningMixin (mixin_name obj)) w))
  end.
Proof.
  intros Hreg Hreq. unfold defineMixins. simpl. rewrite Hreg. simpl.
  unfold bindM, lift. rewrite Hreq. destruct mixin; simpl; by rewrite ?Hreg.
Qed.

Lemma keeps_ret {A} (a : A) : Spec.keeps_mixins (ret a).
Proof. done. Qed.

Lemma keeps_throw {A} e : Spec.keeps_mixins (@throw A e).
Proof. done. Qed.

Lemma keeps_lift {A} (r : res A) : Spec.keeps_mixins (lift r).
Proof. done. Qed.

Lemma keeps_tell e : Spec.keeps_mixins (tell e).
Proof. done. Qed.

Lemma keeps_bind {A B} (m : M A) (k : A → M B) :
  Spec.keeps_mixins m → (∀ a, Spec.keeps_mixins (k a)) → Spec.keeps_mixins (bindM m k).
Proof.
  intros Hm Hk w. unfold bindM. specialize (Hm w).
  destruct (m w) as [[a|e] w']; simpl in *; [|done]. by rewrite Hk.
Qed.

Lemma keeps_forEachM {X} (f : X → M unit) (xs : list X) :
  (∀ x, Spec.keeps_mixins (f x)) → Spec.keeps_mixins (forEachM f xs).
Proof.
  intros Hf. induction xs as [|x xs IH]; simpl; [apply keeps_ret|].
  apply keeps_bind; [apply Hf|done].
Qed.

Lemma keeps_getModel n : Spec.keeps_mixins (Registry.getModel n).
Proof.
  apply keeps_bind; [done|]. intros [m|]; [apply keeps_ret|apply keeps_throw].
Qed.

Lemma keeps_createModel h d : Spec.keeps_mixins (Registry.createModel h d).
Proof.
  unfold Registry.createModel. destruct (def_name d); [|apply keeps_throw].
  apply keeps_bind; [|done].
  destruct (or_else _ _); [|apply keeps_getModel].
  apply keeps_bind; [done|]. intros [m|]; [apply keeps_ret|apply keeps_throw].
Qed.

Lemma keeps_registry_configureModel key m c :
  Spec.keeps_mixins (Registry.configureModel key m c).
Proof.
  intros w. rewrite configureModel_unfold. cbv zeta.
  match goal with
  | |- context [foldl ?f ?w0 ?es] =>
      destruct (foldl_emit_models es w0) as (_ & Hmix & _); set (w1 := foldl f w0 es) in *
  end.
  destruct (cfg_dataSource c) as [| | |n|d]; simpl; try done.
  destruct (truthy n); simpl; done.
Qed.

Lemma keeps_line_configureModel key m c : Spec.keeps_mixins (Line.configureModel key m c).
Proof.
  intros w. unfold Line.configureModel.
  destruct (negb (isModel m)); [done|].
  destruct (cfg_dataSource c) as [| | |n|d]; simpl;
    try apply keeps_registry_configureModel.
  destruct (truthy n); [|apply keeps_registry_configureModel].
  destruct (dataSources w !! n); [apply keeps_registry_configureModel|done].
Qed.

Lemma keeps_line_model key c : Spec.keeps_mixins (Line.model key c).
Proof.
  intros w. unfold Line.model.
  destruct (key ≫= _) as [[k m]|]; [|done].
  pose proof (keeps_line_configureModel k m
                match c with ConfigObj c0 => c0 | _ => Line.empty_config end w) as Hk.
  destruct (Line.configureModel k m _ w) as [[[]|e] w']; simpl in *; done.
Qed.

Lemma keeps_defineModels h models : ∀ slots, Spec.keeps_mixins (defineModels h models slots).
Proof.
  induction models as [|data models IH]; intros slots; simpl; [apply keeps_ret|].
  apply keeps_bind; [|done].
  destruct (inst_definition data) as [definition|].
  - apply keeps_bind; [apply keeps_tell|]. intros _.
    apply keeps_bind; [apply keeps_createModel|]. intros model.
    destruct (truthy_opt _); [|apply keeps_ret].
    apply keeps_bind; [apply keeps_tell|]. intros _.
    apply keeps_bind; [apply keeps_lift|]. intros [code|].
    + apply keeps_bind; [apply keeps_tell|]. intros _.
      apply keeps_bind; [apply keeps_getModel|]. intros ctor.
      apply keeps_bind; [apply keeps_lift|]. intros customized.
      apply keeps_bind; [done|]. intros _. apply keeps_ret.
    + apply keeps_bind; [apply keeps_tell|]. intros _. apply keeps_ret.
  - apply keeps_bind; [apply keeps_getModel|]. intros model.
    apply keeps_bind; [apply keeps_tell|]. intros _. apply keeps_ret.
Qed.

Lemma keeps_setupModels h models :
  Spec.keeps_mixins (setupModels h (mkInstructions models None)).
Proof.
  unfold setupModels. apply keeps_bind.
  { intros w. unfold defineMixins. simpl. by destruct (mixins w) eqn:E. }
  intros _. apply keeps_bind; [apply keeps_defineModels|]. intros slots.
  apply keeps_forEachM. intros data. unfold attachModel.
  destruct (negb _); [apply keeps_ret|apply keeps_line_model].
Qed.

(** C7.  Whatever the options of a call hold under [mixins], [load] never
    loads or registers a mixin: the instructions it hands to [setupModels]
    carry the models only, and the mixin registry of the line is after the
    call what it was before. *)
Theorem load_never_defines_mixins h root options w heap :
  mixins (load h root options w heap).1.2 = mixins w.
Proof.
  rewrite Ordering.load_unfold.
  destruct (normalize h root options heap) as [address heap1]. cbv zeta.
  destruct (loadModelInstructions _ _ _) as [[models|e] defs']; [|done].
  pose proof (keeps_setupModels h models w) as Hk.
  by destruct (setupModels _ _ _).
Qed.

(** At the input of C7: a mixin named in the options, whose source exports
    a function, is not registered by [load], while [defineMixins] registers
    it when it is handed the same list. *)
Lemma mixin_option_is_dropped :
  let h := mkHost (cwd Examples.bare) (existsSync Examples.bare) (readdirSync Examples.bare)
             (statIsFile Examples.bare) (extensions Examples.bare)
             (resolveModule Examples.bare) (requireDefinition Examples.bare)
             (requireScript Examples.bare) (λ _, Ret (MixinFunction "timestamps"))
             (globalPaths Examples.bare) (nodeModulePaths Examples.bare)
             (path_resolve Examples.bare) (path_join Examples.bare)
             (modelExtend Examples.bare) in
  let wanted := [mkMixinInstruction "TimeStamp" "/app/mixins/time-stamp.js"] in
  let o := mkOptions None None None None None None (Some wanted) in
  load h (RootString "/app") (Some 0) Examples.line {[ 0 := o ]} =
    (Ret tt, Examples.line,
     {[ 0 := mkOptions (Some "/app") (Some "default") None None None None (Some wanted) ]}) ∧
  mixins (defineMixins h (mkInstructions [] (Some wanted)) Examples.line).2 =
    Some [("TimeStamp", MixinFunction "timestamps")].
Proof.
  split; vm_compute; reflexivity.
Qed.

End Materializing.

(** ** The options of a call *)

Module OptionsFacts.
Import Js Data State Loader Spec.

Lemma lookup_update_eq (address : nat) f (heap : gmap nat Options) :
  update address f heap !! address = Some (f (default empty_options (heap !! address))).
Proof. unfold update. apply lookup_insert_eq. Qed.

Lemma lookup_update_ne (address address' : nat) f (heap : gmap nat Options) :
  address ≠ address' → update address f heap !! address' = heap !! address'.
Proof. intros Hne. unfold update. by apply lookup_insert_ne. Qed.

Lemma normalize_supplied h root options address heap o :
  supplied root options address → heap !! address = Some o →
  ∃ heap',
    normalize h root options heap = (address, heap') ∧
    heap' !! address =
      Some (with_dataSouce (with_root o (Some (root_written h root o)))
              (Some (dataSouce_written o))).
Proof.
  intros Hsup Ho. unfold normalize.
  destruct Hsup as [->|[-> ->]]; [destruct root as [r| |]|];
    (eexists; split; [reflexivity|]);
    rewrite !lookup_update_eq, ?Ho; unfold root_written, dataSouce_written;
    destruct o as [rt ds ? ? ? ? ?]; simpl;
    destruct rt as [rt|], ds as [ds|]; simpl;
    repeat match goal with |- context [truthy ?x] => destruct (truthy x) end;
    reflexivity.
Qed.

(** C10.  A call of [load] writes into the options object of its caller:
    when it returns or throws, the object holds in [root] the root string
    given (the working directory when there is none) and in [dataSouce] the
    value it had (['default'] when it had none). *)
Theorem load_writes_root_and_dataSouce h root options address w heap o :
  supplied root options address → heap !! address = Some o →
  ∃ o', (load h root options w heap).2 !! address = Some o' ∧
        opt_root o' = Some (root_written h root o) ∧
        opt_dataSouce o' = Some (dataSouce_written o).
Proof.
  intros Hsup Ho. rewrite Ordering.load_unfold.
  destruct (normalize_supplied h root options address heap o Hsup Ho) as (heap1 & -> & Hheap1).
  cbv zeta. destruct (loadModelInstructions _ _ _) as [models defs'].
  eexists. split.
  - destruct models as [models|e]; [destruct (setupModels _ _ _)|]; simpl;
      rewrite lookup_update_eq, Hheap1; reflexivity.
  - split; reflexivity.
Qed.

Lemma load_writes_root_and_dataSouce_witness :
  ∃ o', (load Examples.bare (RootString "/srv/shop") (Some 0) Examples.line
           {[ 0 := empty_options ]}).2 !! 0 = Some o' ∧
        opt_root o' = Some "/srv/shop" ∧
        opt_dataSouce o' = Some "default".
Proof.
  apply (load_writes_root_and_dataSouce Examples.bare (RootString "/srv/shop") (Some 0) 0
           Examples.line {[ 0 := empty_options ]} empty_options).
  - left. reflexivity.
  - vm_compute. reflexivity.
Defined.

Lemma call_options_supplied h root options address heap o :
  supplied root options address → heap !! address = Some o →
  call_options h root options heap =
  with_dataSouce (with_root o (Some (root_written h root o))) (Some (dataSouce_written o)).
Proof.
  intros Hsup Ho. unfold call_options.
  destruct (normalize_supplied h root options address heap o Hsup Ho) as (heap1 & -> & ->).
  reflexivity.
Qed.

(** C4.  The entry point reads the key [dataSouce] only: when the options
    hold no [dataSouce], whatever they hold under [dataSource], the models
    without explicit configuration are given the datasource ['default']. *)
Theorem dataSource_spelling_is_not_read h root options address heap o registry data :
  supplied root options address → heap !! address = Some o →
  opt_models o = None → opt_dataSouce o = None →
  let o' := call_options h root options heap in
  data ∈ assembleInstructions registry (opt_models o') (opt_dataSouce o') →
  inst_config data = ConfigObj (mkConfig (DsName "default") Absent Absent Absent).
Proof.
  intros Hsup Ho Hmodels Hds o'. unfold o'.
  rewrite (call_options_supplied h root options address heap o Hsup Ho).
  simpl. rewrite Hmodels. unfold dataSouce_written. rewrite Hds. simpl.
  unfold assembleInstructions. by intros (n & -> & _)%list_elem_of_fmap.
Qed.

Lemma dataSource_spelling_is_not_read_witness :
  let o := mkOptions None None (Some "db") None None None None in
  let o' := call_options Examples.bare (RootString "/app") (Some 0) {[ 0 := o ]} in
  let data := createModelInstructions [("Customer", Examples.named "Customer" None)]
                None (Some "default") (Some "Customer") in
  opt_dataSource o = Some "db" ∧
  inst_config data = ConfigObj (mkConfig (DsName "default") Absent Absent Absent).
Proof.
  split; [reflexivity|].
  apply (dataSource_spelling_is_not_read Examples.bare (RootString "/app") (Some 0) 0
           {[ 0 := mkOptions None None (Some "db") None None None None ]}
           (mkOptions None None (Some "db") None None None None)
           [("Customer", Examples.named "Customer" None)]).
  - left. reflexivity.
  - vm_compute. reflexivity.
  - reflexivity.
  - reflexivity.
  - vm_compute. left.
Defined.

End OptionsFacts.

(** ** Discovery *)

Module Discovery.
Import Js Data State Loader.

Lemma mapM_returns {X Y} (f : X → res Y) (xs : list X) :
  (∀ x, ∃ y, f x = Ret y) → ∃ ys, mapM f xs = Ret ys.
Proof.
  intros Hf. induction xs as [|x xs [ys IH]]; simpl; [by eexists|].
  destruct (Hf x) as [y ->]. simpl. rewrite IH. simpl. by eexists.
Qed.

Lemma searchModulePaths_returns h rootDir relativePath resolveOptions :
  ∃ v, searchModulePaths h rootDir relativePath resolveOptions = Ret v.
Proof.
  unfold searchModulePaths.
  destruct (mapM_returns
    (λ candidateDir,
       try_catch
         (filePath ← resolveModule h (path_join h candidateDir relativePath);
          Ret (Resolved filePath (path_join h candidateDir relativePath)))
         (λ _, Ret (Plain (path_join h candidateDir relativePath))))
    (globalPaths h ++ nodeModulePaths h rootDir)) as [cs Hcs].
  { intros dir. destruct (resolveModule h _); simpl; by eexists. }
  cbv zeta. rewrite Hcs. simpl.
  destruct (head _) as [[f u|a]|]; simpl; repeat case_match; by eexists.
Qed.

Lemma mapM_candidates_none h relativePath (dirs : list string) :
  (∀ candidateDir, candidateDir ∈ dirs →
     existsSync h (path_join h candidateDir relativePath) = false ∧
     ∀ filePath, resolveModule h (path_join h candidateDir relativePath) = Ret filePath →
       existsSync h filePath = false) →
  ∃ cs,
    mapM (λ candidateDir,
            try_catch
              (filePath ← resolveModule h (path_join h candidateDir relativePath);
               Ret (Resolved filePath (path_join h candidateDir relativePath)))
              (λ _, Ret (Plain (path_join h candidateDir relativePath)))) dirs = Ret cs ∧
    ∀ c, c ∈ cs → existsSync h (candidate_string c) = false.
Proof.
  induction dirs as [|dir dirs IH]; intros Hdirs.
  - exists []. split; [done|]. intros c Hc. by apply elem_of_nil in Hc.
  - destruct IH as (cs & Hcs & Hnone).
    { intros d Hd. apply Hdirs. by right. }
    destruct (Hdirs dir) as [Hdir Hfile]; [by left|].
    cbn [mapM]. rewrite Hcs.
    destruct (resolveModule h (path_join h dir relativePath)) as [filePath|e] eqn:Hres;
      simpl; eexists; (split; [reflexivity|]).
    + intros c [->|Hc]%elem_of_cons; [by apply Hfile|by apply Hnone].
    + intros c [->|Hc]%elem_of_cons; [done|by apply Hnone].
Qed.

Lemma searchModulePaths_nothing h rootDir relativePath resolveOptions :
  Spec.unresolvable h rootDir relativePath →
  searchModulePaths h rootDir relativePath resolveOptions = Ret None.
Proof.
  intros [_ Hdirs]. unfold searchModulePaths. cbv zeta.
  destruct (mapM_candidates_none h relativePath _ Hdirs) as (cs & -> & Hnone).
  simpl.
  assert (Hfilter : filter (λ c, existsSync h (candidate_string c) = true) cs = []).
  { clear -Hnone. induction cs as [|c cs IH]; [done|].
    rewrite filter_cons. rewrite decide_False.
    - apply IH. intros c' Hc'. apply Hnone. by right.
    - rewrite (Hnone c); [done|by left]. }
  by rewrite Hfilter.
Qed.

Lemma tryResolveAppPath_nothing h rootDir relativePath resolveOptions :
  Spec.unresolvable h rootDir relativePath →
  tryResolveAppPath h rootDir relativePath resolveOptions = Ret None.
Proof.
  intros Hun. unfold tryResolveAppPath. cbv zeta.
  rewrite (searchModulePaths_nothing h rootDir relativePath _ Hun).
  destruct Hun as [Hpaths _].
  destruct (Hpaths relativePath) as [Hrel [e1 Hrel']]; [by left|].
  destruct (Hpaths (path_resolve h rootDir relativePath)) as [Hfull [e2 Hfull']];
    [right; by left|].
  repeat case_match; simplify_eq; simpl in *; try done.
  all: try congruence.
  all: repeat match goal with
       | H : _ = Throw _ |- _ => rewrite H
       end; simpl; repeat case_match; done.
Qed.

Lemma scanSource_skips h rootDir src :
  Spec.unresolvable h rootDir src →
  ∀ registry, scanSource h rootDir src registry = Ret registry.
Proof.
  intros Hun registry. unfold scanSource.
  by rewrite (tryResolveAppPath_nothing h rootDir src _ Hun).
Qed.

Lemma forEach_skips {S X} (f : X → S → res S) (before after : list X) (x : X) :
  (∀ s, f x s = Ret s) →
  ∀ s, forEach f (before ++ x :: after) s = forEach f (before ++ after) s.
Proof.
  intros Hx. induction before as [|y before IH]; intros s; simpl.
  - by rewrite Hx.
  - destruct (f y s); simpl; [apply IH|done].
Qed.

(** C9.  The path resolver returns and never throws; it returns
    [undefined] when nothing resolves for the expression, that is when
    every path it probes (the expression itself, the expression resolved
    against the root, the expression under each directory of the module
    search) neither exists nor is resolved by the module system to a file
    that exists; a source directory it returns [undefined] for is skipped,
    the scan going on with the registry it had; and a list of sources with
    such an expression in it is scanned as the list without it is, so the
    load is not aborted. *)
Theorem tryResolveAppPath_never_throws h rootDir relativePath resolveOptions :
  (∃ v, tryResolveAppPath h rootDir relativePath resolveOptions = Ret v) ∧
  (Spec.unresolvable h rootDir relativePath →
   tryResolveAppPath h rootDir relativePath resolveOptions = Ret None) ∧
  (∀ registry,
     tryResolveAppPath h rootDir relativePath (Some (mkResolveOptions false None)) = Ret None →
     scanSource h rootDir relativePath registry = Ret registry) ∧
  (Spec.unresolvable h rootDir relativePath →
   ∀ before after,
     findModelDefinitions h rootDir (before ++ relativePath :: after) =
     findModelDefinitions h rootDir (before ++ after)).
Proof.
  split; [|split; [|split]].
  - unfold tryResolveAppPath. cbv zeta.
    destruct (searchModulePaths_returns h rootDir relativePath
                (default (mkResolveOptions true None) resolveOptions)) as [v Hv].
    rewrite Hv.
    repeat case_match; simplify_eq; simpl; try (by eexists).
    all: destruct (resolveModule h _); simpl; repeat case_match; by eexists.
  - apply tryResolveAppPath_nothing.
  - intros registry Hnone. unfold scanSource. by rewrite Hnone.
  - intros Hun before after. unfold findModelDefinitions.
    apply forEach_skips. by apply scanSource_skips.
Qed.

Lemma tryResolveAppPath_never_throws_witness :
  existsSync Examples.shop "/app/models" = true ∧
  Spec.unresolvable Examples.shop "/app" "./missing" ∧
  (∃ v, tryResolveAppPath Examples.shop "/app" "./missing"
          (Some (mkResolveOptions false None)) = Ret v) ∧
  tryResolveAppPath Examples.shop "/app" "./missing" (Some (mkResolveOptions false None)) =
    Ret None ∧
  scanSource Examples.shop "/app" "./missing" [] = Ret [] ∧
  Obj.keys <$> findModelDefinitions Examples.shop "/app" ["./missing"; "./models"] =
    Ret ["CustomerReceipt"; "Foo"].
Proof.
  assert (Hun : Spec.unresolvable Examples.shop "/app" "./missing").
  { split.
    - intros p Hp.
      repeat (apply elem_of_cons in Hp as [->|Hp];
              [split; [vm_compute; reflexivity|eexists; reflexivity]|]).
      by apply elem_of_nil in Hp.
    - intros dir Hdir. simpl in Hdir.
      repeat (apply elem_of_cons in Hdir as [->|Hdir];
              [split; [vm_compute; reflexivity|intros f Hf; discriminate Hf]|]).
      by apply elem_of_nil in Hdir. }
  destruct (tryResolveAppPath_never_throws Examples.shop "/app" "./missing"
              (Some (mkResolveOptions false None))) as (Hret & Hnone & Hskip & Hscan).
  split; [vm_compute; reflexivity|]. split; [exact Hun|].
  split; [exact Hret|]. split; [exact (Hnone Hun)|].
  split; [exact (Hskip [] (Hnone Hun))|].
  rewrite (Hscan Hun [] ["./models"] :
             findModelDefinitions Examples.shop "/app" ["./missing"; "./models"] = _).
  vm_compute. reflexivity.
Defined.



End Discovery.

(** ** The names to build, as a closure *)

Module BaseClosure.
Import Js Data Loader ObjFacts AddAllBaseModelsFacts.

(** X1.  The loop of [addAllBaseModels] ends within its bound.  The names it
    returns have pairwise different keys, and none of them is a name every
    object inherits ([toString], [constructor], ...): such a name counts as
    visited from the start.  Every other name asked for is among the names
    returned; and so is the base a returned definition names, when that
    base is a registered definition and not an inherited name. *)
Theorem addAllBaseModels_builds_the_closure registry modelNames :
  let built := addAllBaseModels registry modelNames in
  addAllBaseModels_loop (addAllBaseModels_fuel registry modelNames)
    registry modelNames [] ∅ = Some built ∧
  NoDup (property_key <$> built) ∧
  (∀ n, n ∈ built → property_key n ∉ object_prototype) ∧
  (∀ n, n ∈ modelNames → property_key n ∉ object_prototype →
        ∃ n', n' ∈ built ∧ property_key n' = property_key n) ∧
  (∀ n entry, n ∈ built → Obj.at_name registry n = Some entry →
     is_Some (Obj.at_name registry (getBaseModelName (Some (entry_definition entry)))) →
     property_key (getBaseModelName (Some (entry_definition entry))) ∉ object_prototype →
     ∃ n', n' ∈ built ∧
           property_key n' = property_key (getBaseModelName (Some (entry_definition entry)))).
Proof.
  cbv zeta. split; [apply addAllBaseModels_returns|].
  split; [apply addAllBaseModels_NoDup|].
  split; [intros n; apply addAllBaseModels_plain|].
  split; [intros n; apply addAllBaseModels_requested|].
  intros n entry Hn Hentry Hb Hplain.
  apply (addAllBaseModels_closed registry modelNames n); [done| |done].
  unfold pushed. rewrite Hentry. cbv zeta. rewrite decide_True; [by left|by left].
Qed.



End BaseClosure.

(** ** Bases first *)

Module Inheritance.
Import Js Data State Loader Spec ObjFacts AddAllBaseModelsFacts SortFacts AssembleFacts.

(** An edge of the instructions of a call ends in a name that is built;
    when it starts from a string, the definition registered under its end
    names that string as its base. *)
Lemma assembled_edge registry modelsConfig dataSouce (x y : jsname) :
  Toposort.edge_rel (edge_of <$> assembleInstructions registry modelsConfig dataSouce) x y →
  y ∈ inst_name <$> assembleInstructions registry modelsConfig dataSouce ∧
  ∀ a, x = Some a → extends registry a (property_key y).
Proof.
  unfold Toposort.edge_rel. intros (i & Hxy & Hi)%list_elem_of_fmap.
  injection Hxy as -> ->. split; [by apply list_elem_of_fmap_2|].
  intros a Ha. rewrite (assembled_elem _ _ _ _ Hi) in Ha.
  unfold createModelInstructions in Ha. cbn [inst_definition inst_name] in Ha.
  unfold Obj.at_name in Ha.
  destruct (Obj.get (property_key (inst_name i)) registry) as [entry|] eqn:Hentry; [|done].
  by exists entry.
Qed.

Lemma assembled_string registry modelsConfig dataSouce (y : jsname) :
  "undefined" ∉ Obj.keys registry →
  y ∈ inst_name <$> assembleInstructions registry modelsConfig dataSouce →
  ∃ b, y = Some b.
Proof.
  intros Hu Hy. rewrite assembled_names in Hy.
  assert (Hall : Forall is_Some
            (addAllBaseModels registry
               (Some <$> match modelsConfig with
                         | Some cfg => Obj.keys cfg
                         | None => Obj.keys registry
                         end))).
  { apply addAllBaseModels_is_Some; [done|].
    apply Forall_forall. intros n (k & -> & _)%list_elem_of_fmap. by eexists. }
  rewrite Forall_forall in Hall. exact (Hall y Hy).
Qed.

Lemma assembled_path registry modelsConfig dataSouce (x y : jsname) :
  "undefined" ∉ Obj.keys registry →
  tc (Toposort.edge_rel (edge_of <$> assembleInstructions registry modelsConfig dataSouce)) x y →
  (∃ b, y = Some b) ∧
  ∀ a, x = Some a → ∃ b, y = Some b ∧ tc (extends registry) a b.
Proof.
  intros Hu. induction 1 as [x y Hxy|x z y Hxz _ IH].
  - destruct (assembled_edge _ _ _ _ _ Hxy) as (Hy & Hext).
    destruct (assembled_string _ _ _ _ Hu Hy) as (b & ->).
    split; [by eexists|]. intros a Ha. exists b. split; [done|].
    apply tc_once. by apply (Hext a).
  - destruct IH as (Hy & IH). split; [done|]. intros a Ha.
    destruct (assembled_edge _ _ _ _ _ Hxz) as (Hz & Hext).
    destruct (assembled_string _ _ _ _ Hu Hz) as (c & ->).
    destruct (IH c eq_refl) as (b & -> & Hcb).
    exists b. split; [done|]. eapply tc_l; [|exact Hcb]. by apply (Hext a).
Qed.

(** Definitions whose base references never come back to their start give
    instructions without a cycle. *)
Lemma assembled_acyclic registry modelsConfig dataSouce :
  "undefined" ∉ Obj.keys registry →
  (¬ ∃ n, tc (extends registry) n n) →
  Toposort.acyclic (edge_of <$> assembleInstructions registry modelsConfig dataSouce).
Proof.
  intros Hu Hac node Hnode.
  destruct (assembled_path _ _ _ _ _ Hu Hnode) as ((b & ->) & Hpath).
  destruct (Hpath b eq_refl) as (b' & [= <-] & Htc). apply Hac. by exists b.
Qed.

(** X3.  When no definition and no key of the [models] map is called
    ["undefined"], no definition is registered under a name every object
    inherits or names such a name as its base, and the base references of
    the definitions never come back to their start, the sort returns the
    instructions assembled, each once, and the instruction of a registered
    base stands before the instruction of every model that names it. *)
Theorem registered_bases_are_defined_first registry modelsConfig dataSouce :
  "undefined" ∉ Obj.keys registry →
  (∀ cfg, modelsConfig = Some cfg → "undefined" ∉ Obj.keys cfg) →
  plain_names registry → plain_bases registry →
  (¬ ∃ n, tc (extends registry) n n) →
  ∃ sorted,
    sortByInheritance (assembleInstructions registry modelsConfig dataSouce) = Ret sorted ∧
    sorted ≡ₚ assembleInstructions registry modelsConfig dataSouce ∧
    ∀ (b : Instruction) (a : string),
      b ∈ sorted → getBaseModelName (inst_definition b) = Some a →
      a ∈ Obj.keys registry →
      ∃ base, inst_name base = Some a ∧ Toposort.before sorted base b.
Proof.
  intros Hu Hcfg Hnames Hbases Hac.
  destruct (assembled_bases_first registry modelsConfig dataSouce Hu Hcfg)
    as (sorted & Hsort & Hperm & Hbefore); [by apply assembled_acyclic|].
  exists sorted. split; [done|]. split; [done|].
  intros b a Hb Hbase Ha.
  destruct (assembled_closed registry modelsConfig dataSouce b a Hu) as (i & Hi & Hname);
    [by rewrite <- Hperm|done|done|by apply Hnames|].
  exists i. split; [done|]. apply Hbefore; [by rewrite Hperm|done|congruence].
Qed.

Lemma registered_bases_are_defined_first_witness :
  let registry := [("Manager", Examples.named "Manager" (Some "Employee"));
                   ("Employee", Examples.named "Employee" (Some "User"))] in
  ∃ sorted,
    sortByInheritance (assembleInstructions registry None (Some "db")) = Ret sorted ∧
    sorted ≡ₚ assembleInstructions registry None (Some "db") ∧
    ∀ (b : Instruction) (a : string),
      b ∈ sorted → getBaseModelName (inst_definition b) = Some a →
      a ∈ Obj.keys registry →
      ∃ base, inst_name base = Some a ∧ Toposort.before sorted base b.
Proof.
  apply (registered_bases_are_defined_first
           [("Manager", Examples.named "Manager" (Some "Employee"));
            ("Employee", Examples.named "Employee" (Some "User"))] None (Some "db")).
  - intros H. repeat (apply elem_of_cons in H as [H|H]; [discriminate|]).
    by apply elem_of_nil in H.
  - intros cfg H. discriminate.
  - apply plain_names_Forall. apply (bool_decide_unpack _). vm_compute. exact I.
  - apply plain_bases_Forall. apply (bool_decide_unpack _). vm_compute. exact I.
  - intros (n & Hn). apply (extends_cycle _ (Some "db")) in Hn.
    2: { apply plain_names_Forall. apply (bool_decide_unpack _). vm_compute. exact I. }
    revert Hn.
    eapply ToposortFacts.toposort_Done_acyclic. vm_compute. reflexivity.
Defined.

End Inheritance.

(** ** Loops and dictionaries, once more *)

Module LoopFacts.
Import Js.

Lemma forEach_inv {S X} (P : S → Prop) (f : X → S → res S) (xs : list X) :
  (∀ x s s', x ∈ xs → P s → f x s = Ret s' → P s') →
  ∀ s s', P s → forEach f xs s = Ret s' → P s'.
Proof.
  induction xs as [|x xs IH]; simpl; intros Hstep s s' Hs.
  - by intros [= <-].
  - destruct (f x s) as [s1|e] eqn:Hfx; simpl; [|done].
    apply IH.
    + intros x' t t' Hx'. apply Hstep. by right.
    + eapply Hstep; [by left|done|done].
Qed.

Lemma forEach_app {S X} (f : X → S → res S) (xs ys : list X) (s : S) :
  forEach f (xs ++ ys) s = bind (forEach f xs s) (forEach f ys).
Proof.
  revert s. induction xs as [|x xs IH]; intros s; simpl; [done|].
  destruct (f x s); simpl; [apply IH|done].
Qed.

Lemma forEach_throws {S X} (f : X → S → res S) (xs : list X) (x : X) :
  x ∈ xs → (∀ s, ∃ e, f x s = Throw e) →
  ∀ s, ∃ e, forEach f xs s = Throw e.
Proof.
  intros Hx Hf. induction xs as [|y xs IH]; [by apply elem_of_nil in Hx|].
  intros s. simpl. apply elem_of_cons in Hx as [<-|Hx].
  - destruct (Hf s) as [e ->]. by exists e.
  - destruct (f y s) as [s1|e]; simpl; [by apply IH|by exists e].
Qed.

Lemma mapM_elem {X Y} (f : X → res Y) (xs : list X) (ys : list Y) (y : Y) :
  mapM f xs = Ret ys → y ∈ ys → ∃ x, x ∈ xs ∧ f x = Ret y.
Proof.
  revert ys. induction xs as [|x xs IH]; simpl; intros ys.
  - intros [= <-] ?%elem_of_nil. done.
  - destruct (f x) as [y0|] eqn:Hfx; simpl; [|done].
    destruct (mapM f xs) as [ys0|]; simpl; [|done].
    intros [= <-] [->|Hy]%elem_of_cons.
    + exists x. split; [by left|done].
    + destruct (IH ys0 eq_refl Hy) as (x' & ? & ?). exists x'. split; [by right|done].
Qed.

Section obj.
Context {V : Type}.
Implicit Types (o : list (string * V)) (k : string) (v : V).

Lemma elem_of_set o k v k' v' :
  (k', v') ∈ Obj.set k v o → (k', v') = (k, v) ∨ (k', v') ∈ o.
Proof.
  induction o as [|[k0 v0] o IH]; simpl.
  - intros ->%list_elem_of_singleton. by left.
  - destruct (decide (k0 = k)) as [->|Hne].
    + intros [?|?]%elem_of_cons; [by left|right; by right].
    + intros [->|?]%elem_of_cons; [right; by left|].
      destruct IH as [?|?]; [done|by left|right; by right].
Qed.

Lemma keys_set o k v :
  Obj.keys (Obj.set k v o) = if decide (k ∈ Obj.keys o) then Obj.keys o else Obj.keys o ++ [k].
Proof.
  unfold Obj.keys. induction o as [|[k0 v0] o IH].
  - cbn. destruct (decide (k ∈ [])) as [Hin|]; [by apply elem_of_nil in Hin|done].
  - cbn [Obj.set]. destruct (decide (k0 = k)) as [->|Hne].
    + cbn. destruct (decide (k ∈ k :: o.*1)) as [|Hin]; [done|]. destruct Hin. by left.
    + cbn [fmap list_fmap fst]. change (list_fmap _ _ fst ?l) with (l.*1). rewrite IH.
      destruct (decide (k ∈ o.*1)) as [Hin|Hin].
      * destruct (decide (k ∈ k0 :: o.*1)) as [|Hin']; [done|]. destruct Hin'. by right.
      * destruct (decide (k ∈ k0 :: o.*1)) as [Hin'|]; [|done].
        apply elem_of_cons in Hin' as [?|?]; [congruence|done].
Qed.

Lemma NoDup_keys_set o k v : NoDup (Obj.keys o) → NoDup (Obj.keys (Obj.set k v o)).
Proof.
  intros Hnd. rewrite keys_set. destruct (decide _) as [|Hk]; [done|].
  apply NoDup_app. split; [done|]. split; [|apply NoDup_singleton].
  intros k' Hk' ->%list_elem_of_singleton. done.
Qed.

End obj.
End LoopFacts.

(** ** What discovery returns *)

Module Scanning.
Import Js Data State Loader Spec ObjFacts LoopFacts.

Lemma keyed_by_name_nil : keyed_by_name [].
Proof. split; [apply NoDup_nil_2|]. by intros k e ?%elem_of_nil. Qed.

Lemma keyed_by_name_set registry (entry : SourceEntry) :
  keyed_by_name registry →
  truthy_opt (def_name (entry_definition entry)) = true →
  keyed_by_name (Obj.set (default "" (def_name (entry_definition entry))) entry registry).
Proof.
  intros (Hnd & Hkeys) Hname. split; [by apply NoDup_keys_set|].
  intros k e [Heq|Hin]%elem_of_set; [|by apply Hkeys].
  injection Heq as -> ->.
  destruct (def_name (entry_definition entry)) as [n|]; [|done]. by split.
Qed.

Lemma verifyEach_keyed h rootDir todo :
  ∀ registry registry',
    keyed_by_name registry →
    (verifyEach h rootDir todo registry).1 = Ret registry' →
    keyed_by_name registry'.
Proof.
  induction todo as [|definition todo IH]; intros registry registry' Hk.
  - simpl. by intros [= <-].
  - cbn [verifyEach].
    match goal with |- context [match ?fixed with Ret _ => _ | Throw _ => _ end] =>
      destruct fixed as [definition'|e] eqn:Hfixed end; [|done].
    destruct (verifyEach h rootDir todo _) as [r rest] eqn:Hrec. simpl. intros ->.
    eapply IH; [|by rewrite Hrec].
    destruct (truthy_opt (def_name (entry_definition definition'))) eqn:Hname; [|done].
    by apply keyed_by_name_set.
Qed.

Lemma scanSource_keyed h rootDir src registry registry' :
  keyed_by_name registry →
  scanSource h rootDir src registry = Ret registry' →
  keyed_by_name registry'.
Proof.
  intros Hk. unfold scanSource.
  destruct (tryResolveAppPath h rootDir src _) as [srcDir|e]; simpl; [|done].
  destruct (negb (truthy_opt srcDir)); [by intros [= <-]|].
  apply forEach_inv; [|done].
  intros f s s' _ Hs.
  destruct (loadModelDefinition h rootDir _ _) as [entry|e]; simpl; [|done].
  destruct (truthy_opt (def_name (entry_definition entry))) eqn:Hname; simpl.
  - intros [= <-]. by apply keyed_by_name_set.
  - by intros [= <-].
Qed.

Lemma discover_keyed h rootDir sources modelDefinitions registry :
  (discover h rootDir sources modelDefinitions).1 = Ret registry →
  keyed_by_name registry.
Proof.
  unfold discover, verifyModelDefinitions.
  assert (Hfind : findModelDefinitions h rootDir sources = Ret registry →
                  keyed_by_name registry).
  { unfold findModelDefinitions. apply forEach_inv; [|apply keyed_by_name_nil].
    intros src s s' _. apply scanSource_keyed. }
  destruct modelDefinitions as [[|d defs]|]; [done| |done].
  pose proof (verifyEach_keyed h rootDir (d :: defs) [] registry keyed_by_name_nil) as Hv.
  destruct (verifyEach h rootDir (d :: defs) []) as [r defs'].
  simpl in *. destruct r as [r|e]; simpl; [|done]. intros [= <-]. by apply Hv.
Qed.

(** X4.  Whatever the explicit definitions and the directories hold, the
    registry that discovery returns is keyed by name: no name twice, no
    definition without a name, every entry under the name of its
    definition. *)
Theorem discovered_registry_is_keyed_by_name h rootDir sources modelDefinitions registry :
  (discover h rootDir sources modelDefinitions).1 = Ret registry →
  keyed_by_name registry.
Proof. apply discover_keyed. Qed.

Lemma discovered_registry_is_keyed_by_name_witness :
  keyed_by_name
    [("CustomerReceipt",
      mkSourceEntry (mkModelDefinition (Some "CustomerReceipt") [] None no_settings) None);
     ("Foo",
      mkSourceEntry (mkModelDefinition (Some "Foo") [] None no_settings)
                    (Some "/app/models/foo.js"))].
Proof.
  apply (discovered_registry_is_keyed_by_name Examples.shop "/app" ["./models"] None).
  vm_compute. reflexivity.
Defined.


Lemma verifyEach_nameless h rootDir defs registry :
  Forall (λ d, truthy_opt (def_name (entry_definition d)) = false ∧
               truthy_opt (entry_sourceFile d) = false) defs →
  verifyEach h rootDir defs registry = (Ret registry, defs).
Proof.
  induction 1 as [|d defs (Hname & Hfile) _ IH]; [done|].
  cbn [verifyEach]. rewrite Hfile, Hname, IH. done.
Qed.

(** X5.  Explicit definitions stand in for the scan even when none of them can
    be used: a non-empty [modelDefinitions] whose definitions have no name
    gives the empty registry, the source directories are not read, and the
    caller's list is left as it was. *)
Theorem nameless_definitions_stop_the_scan h rootDir sources d defs :
  Forall (λ d, truthy_opt (def_name (entry_definition d)) = false ∧
               truthy_opt (entry_sourceFile d) = false) (d :: defs) →
  discover h rootDir sources (Some (d :: defs)) = (Ret [], Some (d :: defs)).
Proof.
  intros Hall. unfold discover, verifyModelDefinitions.
  by rewrite (verifyEach_nameless h rootDir (d :: defs) [] Hall).
Qed.

Lemma nameless_definitions_stop_the_scan_witness :
  discover Examples.shop "/app" ["./models"]
    (Some [mkSourceEntry (mkModelDefinition None [] None no_settings) None]) =
  (Ret [], Some [mkSourceEntry (mkModelDefinition None [] None no_settings) None]) ∧
  Obj.keys <$> (discover Examples.shop "/app" ["./models"] (Some [])).1 =
  Ret ["CustomerReceipt"; "Foo"].
Proof.
  split.
  - apply (nameless_definitions_stop_the_scan Examples.shop "/app" ["./models"]
             (mkSourceEntry (mkModelDefinition None [] None no_settings) None) []).
    apply Forall_cons. split; [split; reflexivity|apply Forall_nil_2].
  - vm_compute. reflexivity.
Defined.

(** X6.  A source directory that resolves but cannot be listed counts as empty:
    the scan goes on with the registry it had, and nothing is thrown. *)
Theorem unreadable_directory_is_skipped h rootDir src dir e registry :
  tryResolveAppPath h rootDir src (Some (mkResolveOptions false None)) = Ret (Some dir) →
  readdirSync h dir = Throw e →
  scanSource h rootDir src registry = Ret registry.
Proof.
  intros Hdir Hread. unfold scanSource. rewrite Hdir. simpl.
  destruct (truthy dir); [|done]. simpl. unfold tryReadDir. by rewrite Hread.
Qed.

Lemma unreadable_directory_is_skipped_witness :
  scanSource Examples.shop "/app" "/app" [("A", Examples.named "A" None)] =
  Ret [("A", Examples.named "A" None)].
Proof.
  apply (unreadable_directory_is_skipped Examples.shop "/app" "/app" "/app" (Error "ENOENT")).
  - vm_compute. reflexivity.
  - vm_compute. reflexivity.
Defined.

(** X7.  A schema file that [require] cannot load is not skipped: the error
    leaves the scan of its directory, and with it the whole discovery. *)
Theorem unloadable_definition_aborts_discovery h rootDir sources src dir files f e :
  src ∈ sources →
  tryResolveAppPath h rootDir src (Some (mkResolveOptions false None)) = Ret (Some dir) →
  truthy dir = true →
  readdirSync h dir = Ret files →
  f ∈ files → is_definition_file f = true →
  requireDefinition h (path_resolve h dir f) = Throw e →
  ∃ e', findModelDefinitions h rootDir sources = Throw e'.
Proof.
  intros Hsrc Hdir Htruthy Hread Hf Hdef Hreq. unfold findModelDefinitions.
  apply (forEach_throws _ _ src Hsrc). intros registry.
  unfold scanSource. rewrite Hdir. simpl. rewrite Htruthy. simpl.
  unfold tryReadDir. rewrite Hread.
  apply (forEach_throws _ _ f).
  - apply list_elem_of_filter. by split.
  - intros s. unfold loadModelDefinition. rewrite Hreq. simpl. by eexists.
Qed.

Lemma unloadable_definition_aborts_discovery_witness :
  let h := {| cwd := cwd Examples.shop;
              existsSync := existsSync Examples.shop;
              readdirSync := readdirSync Examples.shop;
              statIsFile := statIsFile Examples.shop;
              extensions := extensions Examples.shop;
              resolveModule := resolveModule Examples.shop;
              requireDefinition := λ p, if String.eqb p "/app/models/foo.json"
                                        then Throw (Error "Unexpected token }")
                                        else requireDefinition Examples.shop p;
              requireScript := requireScript Examples.shop;
              requireMixin := requireMixin Examples.shop;
              globalPaths := globalPaths Examples.shop;
              nodeModulePaths := nodeModulePaths Examples.shop;
              path_resolve := path_resolve Examples.shop;
              path_join := path_join Examples.shop;
              modelExtend := modelExtend Examples.shop |} in
  ∃ e', findModelDefinitions h "/app" ["./models"] = Throw e'.
Proof.
  cbv zeta.
  eapply (unloadable_definition_aborts_discovery _ "/app" ["./models"] "./models"
            "/app/models" ["_draft.json"; "customer-receipt.json"; "foo.js"; "foo.json"]
            "foo.json" (Error "Unexpected token }")).
  - by left.
  - vm_compute. reflexivity.
  - reflexivity.
  - vm_compute. reflexivity.
  - do 3 right. by left.
  - vm_compute. reflexivity.
  - vm_compute. reflexivity.
Defined.

Lemma fixFileExtension_loop h filepath only files :
  (∀ f, f ∈ files → ∃ b, statIsFile h (path_resolve h (Path.dirname filepath) f) = Ret b) →
  ∀ results,
  forEach
    (λ f results,
       let otherFile := path_resolve h (Path.dirname filepath) f in
       isFile ← statIsFile h otherFile;
       if isFile : bool then
         let otherFileExtension := Path.extname f in
         if negb (bool_decide (otherFileExtension ∈ getExcludedExtensions)) &&
            String.eqb (Path.basename f otherFileExtension)
                       (Path.basename filepath FILE_EXTENSION_JSON)
         then
           if negb only then Ret (results ++ [otherFile])
           else if bool_decide (otherFileExtension ∈ extensions h)
                then Ret (results ++ [otherFile])
                else Ret results
         else Ret results
       else Ret results)
    files results =
  Ret (results ++ (path_resolve h (Path.dirname filepath) <$>
                   filter (λ f, is_sibling h filepath only f = true) files)).
Proof.
  intros Hstat.
  match goal with |- ∀ results, forEach ?F0 _ _ = _ => set (F := F0) end.
  assert (Hstep : ∀ f results b,
            statIsFile h (path_resolve h (Path.dirname filepath) f) = Ret b →
            F f results =
            Ret (results ++ if is_sibling h filepath only f
                            then [path_resolve h (Path.dirname filepath) f] else [])).
  { intros f results b Hb. unfold F, is_sibling. cbv zeta. rewrite Hb.
    cbn [mbind res_bind bind]. unfold FILE_EXTENSION_JSON.
    destruct b; [|by rewrite app_nil_r].
    destruct (negb (bool_decide (Path.extname f ∈ getExcludedExtensions)));
      destruct (String.eqb (Path.basename f (Path.extname f)) (Path.basename filepath ".json"));
      destruct only; destruct (bool_decide (Path.extname f ∈ extensions h));
      cbn; by rewrite ?app_nil_r. }
  clearbody F.
  induction files as [|f files IH]; intros results.
  - simpl. by rewrite app_nil_r.
  - cbn [forEach]. destruct (Hstat f) as [b Hb]; [by left|].
    rewrite (Hstep f results b Hb). cbn [bind]. rewrite IH.
    2: { intros f' Hf'. apply Hstat. by right. }
    rewrite filter_cons.
    destruct (decide (is_sibling h filepath only f = true)) as [Hyes|Hno].
    + rewrite Hyes. by rewrite <- app_assoc.
    + destruct (is_sibling h filepath only f); [done|]. by rewrite app_nil_r.
Qed.

(** X8.  The source file of a definition: the path itself when the module
    system loads its extension and it is neither [.json] nor [.node];
    otherwise the first file of the listing, in the order of the listing,
    that is a regular file with the same base name and a wanted extension,
    resolved against the directory of the path; [undefined] when there is
    none.  This, as long as every file of the listing can be examined. *)
Theorem fixFileExtension_picks_first_sibling h filepath files only :
  (∀ f, f ∈ files → ∃ b, statIsFile h (path_resolve h (Path.dirname filepath) f) = Ret b) →
  fixFileExtension h filepath files only =
  Ret (if isPreferredExtension h filepath then Some filepath
       else head (path_resolve h (Path.dirname filepath) <$>
                  filter (λ f, is_sibling h filepath only f = true) files)).
Proof.
  intros Hstat. unfold fixFileExtension.
  destruct (isPreferredExtension h filepath); [done|].
  pose proof (fixFileExtension_loop h filepath only files Hstat []) as Hloop.
  cbv zeta in Hloop |- *. by rewrite Hloop.
Qed.

Lemma fixFileExtension_picks_first_sibling_witness :
  fixFileExtension Examples.shop "/app/models/foo.json"
    ["_draft.json"; "customer-receipt.json"; "foo.js"; "foo.json"] true =
  Ret (Some "/app/models/foo.js").
Proof.
  apply (fixFileExtension_picks_first_sibling Examples.shop "/app/models/foo.json"
           ["_draft.json"; "customer-receipt.json"; "foo.js"; "foo.json"] true).
  intros f _. exists true. reflexivity.
Defined.

(** X9.  A file of the listing that cannot be examined (a dangling link, a
    file removed meanwhile) makes the search for a source file throw,
    unless the path is acceptable as it is. *)
Theorem fixFileExtension_throws_on_unreadable_file h filepath files only f e :
  isPreferredExtension h filepath = false →
  f ∈ files →
  statIsFile h (path_resolve h (Path.dirname filepath) f) = Throw e →
  ∃ e', fixFileExtension h filepath files only = Throw e'.
Proof.
  intros Hpref Hf Hstat. unfold fixFileExtension. rewrite Hpref. cbv zeta.
  match goal with |- context [forEach ?F files []] =>
    destruct (forEach_throws F files f Hf) with (s := @nil string) as [e' He'] end.
  - intros s. rewrite Hstat. by eexists.
  - rewrite He'. by eexists.
Qed.

Lemma fixFileExtension_throws_on_unreadable_file_witness :
  ∃ e', fixFileExtension Examples.bare "/app/models/foo.json" ["foo.js"] true = Throw e'.
Proof.
  apply (fixFileExtension_throws_on_unreadable_file Examples.bare "/app/models/foo.json"
           ["foo.js"] true "foo.js" (Error "ENOENT")).
  - vm_compute. reflexivity.
  - by left.
  - reflexivity.
Defined.

End Scanning.

(** ** Paths the resolver returns *)

Module Resolving.
Import Js Data State Loader LoopFacts.

Lemma searchModulePaths_sound h rootDir relativePath resolveOptions p :
  searchModulePaths h rootDir relativePath resolveOptions = Ret (Some p) →
  existsSync h p = true ∨
  ∃ f, resolveModule h p = Ret f ∧ existsSync h f = true.
Proof.
  unfold searchModulePaths. cbv zeta.
  destruct (mapM _ _) as [cs|e] eqn:Hcs; [|done]. cbn [mbind res_bind bind].
  destruct (filter _ cs) as [|c l] eqn:Hfilter; [done|]. cbn [head].
  assert (Hc : c ∈ filter (λ c, existsSync h (candidate_string c) = true) cs)
    by (rewrite Hfilter; by left).
  apply list_elem_of_filter in Hc as (Hexists & Hc).
  destruct (mapM_elem _ _ _ _ Hcs Hc) as (dir & _ & Hdir).
  destruct (resolveModule h (path_join h dir relativePath)) as [f|e] eqn:Hres;
    simpl in Hdir; injection Hdir as <-; simpl in *.
  - destruct (truthy _ && _); intros [= <-]; [right; by exists f|by left].
  - destruct (truthy _); intros [= <-]. by left.
Qed.

(** X10.  A path the resolver returns is there: it exists, or it is what the
    module system resolved some path to, or (module search without full
    resolution) the module system resolves it to a file that exists. *)
Theorem tryResolveAppPath_returns_paths_that_exist h rootDir relativePath resolveOptions p :
  tryResolveAppPath h rootDir relativePath resolveOptions = Ret (Some p) →
  existsSync h p = true ∨
  (∃ q, resolveModule h q = Ret p) ∨
  (∃ f, resolveModule h p = Ret f ∧ existsSync h f = true).
Proof.
  unfold tryResolveAppPath. cbv zeta.
  assert (Hsearch : searchModulePaths h rootDir relativePath
                      (default (mkResolveOptions true None) resolveOptions) = Ret (Some p) →
                    existsSync h p = true ∨
                    (∃ q, resolveModule h q = Ret p) ∨
                    (∃ f, resolveModule h p = Ret f ∧ existsSync h f = true)).
  { intros [?|?]%searchModulePaths_sound; auto. }
  destruct (if String.prefix "/" relativePath then _ else _) as [fullPath isModuleRelative].
  destruct (truthy_opt fullPath); [|done].
  destruct (existsSync h (default "" fullPath)) eqn:Hexists.
  { intros [= <-]. by left. }
  destruct (resolveModule h (default "" fullPath)) as [r|e] eqn:Hres; simpl.
  { intros [= <-]. right. left. by eexists. }
  destruct (negb isModuleRelative); [done|done].
Qed.

Lemma tryResolveAppPath_returns_paths_that_exist_witness :
  existsSync Examples.shop "/app/models" = true ∨
  (∃ q, resolveModule Examples.shop q = Ret "/app/models") ∨
  (∃ f, resolveModule Examples.shop "/app/models" = Ret f ∧ existsSync Examples.shop f = true).
Proof.
  apply (tryResolveAppPath_returns_paths_that_exist Examples.shop "/app" "./models"
           (Some (mkResolveOptions false None))).
  vm_compute. reflexivity.
Defined.

End Resolving.

(** ** Explicit definitions *)

Module Verifying.
Import Js Data State Loader Spec.

Lemma verifyEach_rewrites h rootDir defs :
  ∀ registry,
    Forall2 sourceFile_rewritten defs (verifyEach h rootDir defs registry).2 ∧
    (∀ registry', (verifyEach h rootDir defs registry).1 = Ret registry' →
       Forall2 (sourceFile_fixed h rootDir) defs (verifyEach h rootDir defs registry).2).
Proof.
  induction defs as [|d defs IH]; intros registry; [by split; constructor|].
  cbn [verifyEach].
  destruct (truthy_opt (entry_sourceFile d)) eqn:Hfile.
  - destruct (fixFileExtension h _ _ true) as [sourceFile|e] eqn:Hfix; cbn.
    + match goal with |- context [verifyEach h rootDir defs ?r] =>
        destruct (IH r) as (IH1 & IH2); destruct (verifyEach h rootDir defs r) as [res rest]
      end.
      cbn in *. split.
      * constructor; [|done]. split; [done|]. by rewrite Hfile.
      * intros registry' Hret. constructor; [|by eapply IH2].
        intros _. exact Hfix.
    + split; [|done]. apply Forall2_same_length_lookup_2; [done|].
      intros i x y Hx Hy. assert (x = y) as -> by congruence. by split.
  - match goal with |- context [verifyEach h rootDir defs ?r] =>
      destruct (IH r) as (IH1 & IH2); destruct (verifyEach h rootDir defs r) as [res rest]
    end.
    cbn in *. split.
    + constructor; [|done]. by split.
    + intros registry' Hret. constructor; [|by eapply IH2].
      intros Htrue. congruence.
Qed.

(** X11.  Verifying explicit definitions writes into the caller's list, and
    into the [sourceFile] of its entries only: the list keeps its length,
    every definition is untouched, an entry without a source file is
    untouched, and when the verification returns, an entry with a source
    file holds what [fixFileExtension] found for it. *)
Theorem verifyModelDefinitions_rewrites_sourceFile_only h rootDir defs :
  ∃ defs',
    (verifyModelDefinitions h rootDir (Some defs)).2 = Some defs' ∧
    Forall2 sourceFile_rewritten defs defs' ∧
    (∀ registry, (verifyModelDefinitions h rootDir (Some defs)).1 = Ret registry →
       Forall2 (sourceFile_fixed h rootDir) defs defs').
Proof.
  unfold verifyModelDefinitions. destruct defs as [|d defs].
  { exists []. split; [done|]. split; [constructor|]. intros _ _. constructor. }
  destruct (verifyEach_rewrites h rootDir (d :: defs) []) as (H1 & H2).
  destruct (verifyEach h rootDir (d :: defs) []) as [r defs'].
  exists defs'. split; [done|]. split; [done|].
  intros registry Hret. destruct r as [r|e]; [|done]. by eapply H2.
Qed.

End Verifying.

(** ** Creating classes *)

Module Creating.
Import Js Data State Loader Spec.

Lemma createModel_unfold h d w :
  Registry.createModel h d w =
  match def_name d with
  | None => (Throw (AssertionError "The model-config property `name` must be a string"), w)
  | Some name =>
      match models w !! base_to_extend d with
      | Some base =>
          (Ret name,
           set_model name
             (modelExtend h base name (def_properties d)
                (Registry.buildModelOptionsFromConfig d)) w)
      | None =>
          (Throw (Error
             match or_else (set_base (Registry.buildModelOptionsFromConfig d))
                           (set_super (Registry.buildModelOptionsFromConfig d)) with
             | Some baseName =>
                 "Model not found: model `" +:+ name +:+
                 "` is extending an unknown model `" +:+ baseName +:+ "`."
             | None => "Model not found: PersistedModel"
             end), w)
      end
  end.
Proof.
  unfold Registry.createModel, base_to_extend.
  destruct (def_name d) as [name|]; [|done]. cbv zeta.
  destruct (or_else _ _) as [baseName|]; simpl.
  - unfold bindM, Registry.findModel. simpl. by destruct (models w !! baseName).
  - unfold bindM, Registry.getModel, Registry.findModel, bindM. simpl.
    by destruct (models w !! "PersistedModel").
Qed.

(** X12.  What [registry.createModel] needs in order to return: when it
    returns, the definition has a name, the one returned, and the class to
    extend ([options.base], else [options.super], else [PersistedModel])
    was registered before the call. *)
Theorem createModel_extends_a_registered_class h d name w w' :
  Registry.createModel h d w = (Ret name, w') →
  def_name d = Some name ∧ is_Some (models w !! base_to_extend d).
Proof.
  rewrite createModel_unfold. destruct (def_name d) as [n|]; [|done].
  destruct (models w !! base_to_extend d) as [base|] eqn:Hbase; [|done].
  intros [= -> _]. split; [done|]. by eexists.
Qed.

Lemma createModel_extends_a_registered_class_witness :
  let d := entry_definition (Examples.named "Customer" (Some "Model")) in
  base_to_extend d = "Model" ∧
  def_name d = Some "Customer" ∧ is_Some (models Examples.line !! base_to_extend d).
Proof.
  cbv zeta. split; [reflexivity|].
  apply (createModel_extends_a_registered_class Examples.bare
           (entry_definition (Examples.named "Customer" (Some "Model")))
           "Customer" Examples.line
           (set_model "Customer"
              (Examples.bare_extend Examples.Model "Customer" []
                 (mkSettings (Some "Model") None None None [])) Examples.line)).
  reflexivity.
Defined.

(** X13.  [registry.createModel] checks before it extends.  A definition
    without a name is refused with the assertion on [name]; a definition
    with a name whose class to extend is not registered (its name not being
    one every object inherits) is refused with an error [Model not found],
    which names the model and the unknown class when the definition chose
    the class, and [PersistedModel] when it did not.  In both cases the
    registry, the log and the rest of the state are those before the
    call. *)
Theorem createModel_checks_before_extending h d w :
  (def_name d = None →
   Registry.createModel h d w =
   (Throw (AssertionError "The model-config property `name` must be a string"), w)) ∧
  (∀ name, def_name d = Some name →
     base_to_extend d ∉ object_prototype →
     models w !! base_to_extend d = None →
     Registry.createModel h d w =
     (Throw (Error
        match or_else (set_base (Registry.buildModelOptionsFromConfig d))
                      (set_super (Registry.buildModelOptionsFromConfig d)) with
        | Some baseName =>
            "Model not found: model `" +:+ name +:+
            "` is extending an unknown model `" +:+ baseName +:+ "`."
        | None => "Model not found: PersistedModel"
        end), w)).
Proof.
  split.
  - intros Hname. unfold Registry.createModel. by rewrite Hname.
  - intros name Hname _ Hbase. rewrite createModel_unfold. by rewrite Hname, Hbase.
Qed.

Lemma createModel_checks_before_extending_witness :
  Registry.createModel Examples.bare
    (mkModelDefinition None [] None no_settings) Examples.line =
  (Throw (AssertionError "The model-config property `name` must be a string"),
   Examples.line) ∧
  Registry.createModel Examples.bare
    (entry_definition (Examples.named "Customer" (Some "Person"))) Examples.line =
  (Throw (Error "Model not found: model `Customer` is extending an unknown model `Person`."),
   Examples.line) ∧
  Registry.createModel Examples.bare
    (entry_definition (Examples.named "Customer" None)) (set_model "Model" Examples.Model
       (mkWorld ∅ (Some []) ∅ [] [])) =
  (Throw (Error "Model not found: PersistedModel"),
   set_model "Model" Examples.Model (mkWorld ∅ (Some []) ∅ [] [])).
Proof.
  split; [|split].
  - apply (createModel_checks_before_extending Examples.bare
             (mkModelDefinition None [] None no_settings) Examples.line).
    reflexivity.
  - apply (proj2 (createModel_checks_before_extending Examples.bare
             (entry_definition (Examples.named "Customer" (Some "Person"))) Examples.line)
             "Customer").
    + reflexivity.
    + apply (bool_decide_unpack _). vm_compute. exact I.
    + reflexivity.
  - apply (proj2 (createModel_checks_before_extending Examples.bare
             (entry_definition (Examples.named "Customer" None))
             (set_model "Model" Examples.Model (mkWorld ∅ (Some []) ∅ [] [])))
             "Customer").
    + reflexivity.
    + apply (bool_decide_unpack _). vm_compute. exact I.
    + reflexivity.
Defined.

(** X14.  The loader and the registry read the base of a definition in opposite
    orders.  For a definition that names one class in [base] and another
    in [options.base], the loader sorts by [base], and the registry
    extends [options.base]: the class of [options.base] must be registered
    when the model is created, whatever the order has put first. *)
Theorem loader_and_registry_read_the_base_differently h d name top inner o w :
  def_name d = Some name →
  set_base (def_top d) = Some top → truthy top = true →
  def_options d = Some o → set_base o = Some inner → truthy inner = true →
  getBaseModelName (Some d) = Some top ∧
  base_to_extend d = inner ∧
  (models w !! inner = None →
   Registry.createModel h d w =
   (Throw (Error ("Model not found: model `" +:+ name +:+
                  "` is extending an unknown model `" +:+ inner +:+ "`.")), w)).
Proof.
  intros Hname Htop Htruthy Ho Hinner Htruthy'.
  assert (Hbase : or_else (set_base (Registry.buildModelOptionsFromConfig d))
                          (set_super (Registry.buildModelOptionsFromConfig d)) = Some inner).
  { unfold Registry.buildModelOptionsFromConfig. rewrite Ho. simpl. rewrite Hinner. simpl.
    unfold or_else. simpl. by rewrite Htruthy'. }
  split; [|split].
  - unfold getBaseModelName, def_base, or_else. rewrite Htop. simpl. by rewrite Htruthy.
  - unfold base_to_extend. cbv zeta. by rewrite Hbase.
  - intros Hnone. rewrite createModel_unfold, Hname.
    assert (Hextend : base_to_extend d = inner).
    { unfold base_to_extend. cbv zeta. by rewrite Hbase. }
    by rewrite Hextend, Hnone, Hbase.
Qed.

Lemma loader_and_registry_read_the_base_differently_witness :
  let d := mkModelDefinition (Some "Manager") []
             (Some (mkSettings (Some "Person") None None None []))
             (mkSettings (Some "Model") None None None []) in
  getBaseModelName (Some d) = Some "Model" ∧
  base_to_extend d = "Person" ∧
  (models Examples.line !! "Person" = None →
   Registry.createModel Examples.bare d Examples.line =
   (Throw (Error "Model not found: model `Manager` is extending an unknown model `Person`."),
    Examples.line)).
Proof.
  apply (loader_and_registry_read_the_base_differently Examples.bare _ "Manager" "Model"
           "Person" (mkSettings (Some "Person") None None None []) Examples.line);
    reflexivity.
Defined.

End Creating.

(** ** Options, ACLs and relations *)

Module SettingsFacts.
Import Js Data State Loader Spec ObjFacts LoopFacts.


Lemma get_filter {V} (P : string * V → Prop) `{∀ kv, Decision (P kv)}
    (o : list (string * V)) k :
  (∀ v, P (k, v)) → Obj.get k (filter P o) = Obj.get k o.
Proof.
  intros HP. induction o as [|[k' v'] o IH]; [done|].
  rewrite filter_cons. destruct (decide (P (k', v'))) as [Hp|Hp]; simpl.
  - by destruct (decide (k' = k)).
  - destruct (decide (k' = k)) as [->|]; [by destruct Hp|done].
Qed.

Lemma keys_filter_subseteq {V} (P : string * V → Prop) `{∀ kv, Decision (P kv)}
    (o : list (string * V)) k :
  k ∈ Obj.keys (filter P o) → ∃ v, (k, v) ∈ o ∧ P (k, v).
Proof.
  unfold Obj.keys. intros ([k' v] & -> & Hin)%list_elem_of_fmap.
  apply list_elem_of_filter in Hin as [? ?]. by exists v.
Qed.

Lemma get_extend {V} (target source : list (string * V)) k :
  Obj.get k (Registry.extend target source) =
  match Obj.get k (reverse source) with
  | Some v => Some v
  | None => Obj.get k target
  end.
Proof.
  unfold Registry.extend. induction source as [|[k' v'] source IH] using rev_ind; [done|].
  rewrite foldl_snoc, reverse_snoc. simpl. rewrite get_set.
  by destruct (decide (k' = k)).
Qed.

Lemma NoDup_keys_extend {V} (target source : list (string * V)) :
  NoDup (Obj.keys target) → NoDup (Obj.keys (Registry.extend target source)).
Proof.
  unfold Registry.extend. revert target.
  induction source as [|[k v] source IH]; intros target Hnd; [done|].
  simpl. apply IH. by apply NoDup_keys_set.
Qed.

Lemma get_copyMissing (top options : list (string * value)) k :
  Obj.get k (foldl Registry.copyMissing options top) =
  match Obj.get k options with
  | Some v => Some v
  | None => if inherited k then None else Obj.get k top
  end.
Proof.
  revert options. induction top as [|[k' v'] top IH]; intros options.
  - simpl. by repeat case_match.
  - cbn [foldl]. rewrite IH. unfold Registry.copyMissing. cbn [fst snd Obj.get].
    destruct (bool_decide (is_Some (Obj.get k' options))) eqn:Hsome; simpl.
    + apply bool_decide_eq_true in Hsome as [x Hx].
      destruct (Obj.get k options) as [v|] eqn:Hk; [done|].
      destruct (inherited k); [done|].
      destruct (decide (k' = k)) as [->|]; [congruence|done].
    + apply bool_decide_eq_false in Hsome.
      destruct (inherited k') eqn:Hk'.
      * destruct (Obj.get k options) as [v|] eqn:Hk; [done|].
        destruct (inherited k) eqn:Hin; [done|].
        destruct (decide (k' = k)) as [->|]; [congruence|done].
      * rewrite get_set. destruct (decide (k' = k)) as [->|]; [|done].
        rewrite Hk'. destruct (Obj.get k options) as [v|] eqn:Hk; [|done].
        destruct Hsome. by eexists.
Qed.

Lemma NoDup_keys_copyMissing (top options : list (string * value)) :
  NoDup (Obj.keys options) → NoDup (Obj.keys (foldl Registry.copyMissing options top)).
Proof.
  revert options. induction top as [|[k v] top IH]; intros options Hnd; [done|].
  cbn [foldl]. apply IH. unfold Registry.copyMissing.
  destruct (_ || _); [done|]. by apply NoDup_keys_set.
Qed.

(** X15.  The options a class is created with, when [options] has no key
    [__proto__]: a key of [options] keeps its value; a top-level key of the
    definition is copied when [options] does not define it and it is not a
    name every object inherits ([toString], [constructor], ...), and is
    not copied otherwise; no key is written twice.  In particular [base]
    is that of [options] when defined, the top-level one otherwise. *)
Theorem buildModelOptionsFromConfig_prefers_options (config : ModelDefinition) :
  let options := default no_settings (def_options config) in
  let built := Registry.buildModelOptionsFromConfig config in
  "__proto__" ∉ Obj.keys (set_entries options) →
  (∀ k, Obj.get k (set_entries built) =
        match Obj.get k (set_entries options) with
        | Some v => Some v
        | None => if inherited k then None else Obj.get k (set_entries (def_top config))
        end) ∧
  NoDup (Obj.keys (set_entries built)) ∧
  (set_base options = None → set_base built = set_base (def_top config)) ∧
  (is_Some (set_base options) → set_base built = set_base options).
Proof.
  cbv zeta. intros _. unfold Registry.buildModelOptionsFromConfig.
  cbn [set_entries set_base].
  set (options := default no_settings (def_options config)).
  split; [|split; [|split]].
  - intros k. rewrite get_copyMissing, get_extend, reverse_involutive. simpl.
    by destruct (Obj.get k (set_entries options)).
  - apply NoDup_keys_copyMissing, NoDup_keys_extend. apply NoDup_nil_2.
  - intros Hnone. unfold Registry.first_defined. by rewrite Hnone.
  - intros [b Hb]. unfold Registry.first_defined. by rewrite Hb.
Qed.

Lemma buildModelOptionsFromConfig_prefers_options_witness :
  let config :=
    mkModelDefinition (Some "Person") []
      (Some (mkSettings None None None None
               [("strict", VBool true); ("idInjection", VBool false)]))
      (mkSettings (Some "Model") None None None
         [("toString", VStr "text"); ("strict", VBool false); ("plural", VStr "people")]) in
  let built := Registry.buildModelOptionsFromConfig config in
  set_entries built =
    [("idInjection", VBool false); ("strict", VBool true); ("plural", VStr "people")] ∧
  (∀ k, Obj.get k (set_entries built) =
        match Obj.get k [("strict", VBool true); ("idInjection", VBool false)] with
        | Some v => Some v
        | None => if inherited k then None
                  else Obj.get k [("toString", VStr "text"); ("strict", VBool false);
                                  ("plural", VStr "people")]
        end) ∧
  NoDup (Obj.keys (set_entries built)) ∧
  set_base built = Some "Model".
Proof.
  cbv zeta. split; [vm_compute; reflexivity|].
  destruct (buildModelOptionsFromConfig_prefers_options
              (mkModelDefinition (Some "Person") []
                 (Some (mkSettings None None None None
                          [("strict", VBool true); ("idInjection", VBool false)]))
                 (mkSettings (Some "Model") None None None
                    [("toString", VStr "text"); ("strict", VBool false);
                     ("plural", VStr "people")])))
    as (Hget & Hnd & Hbase & _).
  { apply (bool_decide_unpack _). vm_compute. exact I. }
  split; [exact Hget|]. split; [exact Hnd|]. exact (Hbase eq_refl).
Defined.





End SettingsFacts.

(** ** Defining the models of a call *)

Module Defining.
Import Js Data State Loader Spec ObjFacts LoopFacts.

Lemma defineModels_cons h data rest slots :
  defineModels h (data :: rest) slots =
  call model := defineModel h data in
  defineModels h rest (Obj.set (property_key (inst_name data)) model slots).
Proof. reflexivity. Qed.

Lemma registered_stay_refl w : registered_stay w w.
Proof. by intros k. Qed.

Lemma registered_stay_trans w1 w2 w3 :
  registered_stay w1 w2 → registered_stay w2 w3 → registered_stay w1 w3.
Proof. intros H12 H23 k Hk. by apply H23, H12. Qed.

Lemma registered_stay_set name m w : registered_stay w (set_model name m w).
Proof.
  intros k Hk. simpl. destruct (decide (name = k)) as [->|Hne].
  - rewrite lookup_insert_eq. by eexists.
  - by rewrite lookup_insert_ne.
Qed.

Lemma defineModel_registered h data w key w' :
  defineModel h data w = (Ret key, w') →
  is_Some (models w' !! key) ∧ registered_stay w w'.
Proof.
  unfold defineModel. cbv zeta. destruct (inst_definition data) as [definition|].
  - unfold bindM at 1. unfold tell at 1. unfold bindM at 1.
    rewrite Creating.createModel_unfold.
    destruct (def_name definition) as [model|]; [|done].
    destruct (models _ !! base_to_extend definition) as [base|]; [|done].
    set (w1 := set_model model _ _).
    assert (Hmodel : is_Some (models w1 !! model)).
    { unfold w1. simpl. rewrite lookup_insert_eq. by eexists. }
    assert (Hstay : registered_stay w w1).
    { unfold w1. intros k Hk. by apply registered_stay_set. }
    clearbody w1.
    destruct (truthy_opt (inst_sourceFile data)).
    + unfold bindM at 1. unfold tell at 1. unfold bindM at 1. unfold lift at 1.
      destruct (requireScript h _) as [[code|]|e]; [| |done].
      * unfold bindM at 1. unfold tell at 1. unfold bindM at 1.
        unfold Registry.getModel, Registry.findModel. unfold bindM at 1. simpl.
        destruct (models w1 !! model) as [ctor|]; [|done]. simpl.
        unfold bindM at 1. unfold lift at 1.
        destruct (code ctor) as [customized|e]; [|done].
        unfold bindM. simpl. intros [= <- <-]. simpl. split.
        -- rewrite lookup_insert_eq. by eexists.
        -- intros k Hk. simpl. destruct (decide (model = k)) as [->|Hne].
           ++ rewrite lookup_insert_eq. by eexists.
           ++ rewrite lookup_insert_ne; [|done]. by apply Hstay.
      * unfold bindM, tell, ret. intros [= <- <-]. by split.
    + unfold ret. intros [= <- <-]. by split.
  - unfold Registry.getModel, Registry.findModel, bindM, tell, ret. simpl.
    destruct (models w !! property_key (inst_name data)) as [m|] eqn:Hm; [|done].
    intros [= <- <-]. simpl. split; [by eexists|by intros k].
Qed.

Lemma defineModels_slots h models :
  ∀ slots w slots' w',
    defineModels h models slots w = (Ret slots', w') →
    (∀ k key, Obj.get k slots = Some key → is_Some (State.models w !! key)) →
    (∀ k key, Obj.get k slots' = Some key → is_Some (State.models w' !! key)) ∧
    (∀ k, is_Some (Obj.get k slots) → is_Some (Obj.get k slots')) ∧
    (∀ data, data ∈ models → is_Some (Obj.at_name slots' (inst_name data))) ∧
    registered_stay w w'.
Proof.
  induction models as [|data models IH]; intros slots w slots' w'.
  - simpl. unfold ret. intros [= <- <-] Hslots.
    split; [done|]. split; [done|]. split; [by intros d ?%elem_of_nil|].
    apply registered_stay_refl.
  - rewrite defineModels_cons. unfold bindM at 1.
    destruct (defineModel h data w) as [[key|e] w1] eqn:Hstep; [|done].
    destruct (defineModel_registered _ _ _ _ _ Hstep) as (Hkey & Hstay).
    intros Hrec Hslots.
    destruct (IH _ _ _ _ Hrec) as (H1 & H2 & H3 & H4).
    { intros k key'. rewrite get_set. destruct (decide _).
      - by intros [= <-].
      - intros Hk. by eapply Hstay, Hslots. }
    split; [done|]. split; [|split].
    + intros k Hk. apply H2. rewrite get_set. destruct (decide _); [by eexists|done].
    + intros d [->|Hd]%elem_of_cons; [|by apply H3].
      apply H2. rewrite get_set. destruct (decide _); [by eexists|done].
    + by eapply registered_stay_trans.
Qed.

(** X18.  When [defineModels] returns, every instruction carries a class that is
    registered, so the attach step never meets an instruction without one;
    and no class registered before the call has been removed. *)
Theorem defineModels_fills_every_slot h models w slots w' :
  defineModels h models [] w = (Ret slots, w') →
  (∀ data, data ∈ models →
     ∃ key, Obj.at_name slots (inst_name data) = Some key ∧
            is_Some (State.models w' !! key)) ∧
  registered_stay w w'.
Proof.
  intros Hdef. destruct (defineModels_slots _ _ _ _ _ _ Hdef) as (H1 & _ & H3 & H4).
  { intros k key. done. }
  split; [|done]. intros data Hdata. destruct (H3 data Hdata) as [key Hkey].
  exists key. split; [done|]. by eapply H1.
Qed.

Lemma defineModels_fills_every_slot_witness :
  let models := [mkInstruction (Some "Customer") ConfigUndefined
                   (Some (entry_definition (Examples.named "Customer" (Some "Model")))) None;
                 mkInstruction (Some "Model") ConfigUndefined None None] in
  let w' := (defineModels Examples.bare models [] Examples.line).2 in
  (∀ data, data ∈ models →
     ∃ key, Obj.at_name [("Customer", "Customer"); ("Model", "Model")] (inst_name data) =
              Some key ∧
            is_Some (State.models w' !! key)) ∧
  registered_stay Examples.line w'.
Proof.
  cbv zeta.
  apply (defineModels_fills_every_slot Examples.bare
           [mkInstruction (Some "Customer") ConfigUndefined
              (Some (entry_definition (Examples.named "Customer" (Some "Model")))) None;
            mkInstruction (Some "Model") ConfigUndefined None None] Examples.line
           [("Customer", "Customer"); ("Model", "Model")]).
  reflexivity.
Defined.

End Defining.

(** ** Configuring and exporting *)

Module Exporting.
Import Js Data State Loader.
Import Materializing.

Lemma merges_ignore_dataSource name c d s :
  Spec.merged_settings name (Line.with_dataSource c d) s = Spec.merged_settings name c s ∧
  Spec.merge_diagnostics name (Line.with_dataSource c d) s = Spec.merge_diagnostics name c s.
Proof. done. Qed.

(** X19.  Called with a datasource that is a non-empty string, not a
    [DataSource], [registry.configureModel] throws its assertion only
    after the merges: the relations, ACLs and options of the configuration
    are in the settings of the class, and their warnings in the log. *)
Theorem configureModel_asserts_after_merging key m config n w :
  cfg_dataSource config = DsName n → truthy n = true →
  ∃ w',
    Registry.configureModel key m config w =
      (Throw (AssertionError ("Cannot configure " +:+ modelName m +:+
                ": config.dataSource must be an instance of DataSource")), w') ∧
    models w' !! key =
      Some (Registry.with_settings m
              (Spec.merged_settings (modelName m) config (settings m))) ∧
    log w' = log w ++ Spec.merge_diagnostics (modelName m) config (settings m) ∧
    exported w' = exported w.
Proof.
  intros Hds Hn. rewrite configureModel_unfold. cbv zeta. rewrite Hds, Hn.
  eexists. split; [reflexivity|].
  match goal with
  | |- context [foldl ?f ?w0 ?es] =>
      destruct (foldl_emit_models es w0) as (-> & _ & _ & -> & ->)
  end.
  simpl. by rewrite lookup_insert_eq.
Qed.

Lemma configureModel_asserts_after_merging_witness :
  let config := mkConfig (DsName "db") Absent Absent (Given [("strict", VBool true)]) in
  ∃ w',
    Registry.configureModel "PersistedModel" Examples.PersistedModel config Examples.line =
      (Throw (AssertionError
         "Cannot configure PersistedModel: config.dataSource must be an instance of DataSource"),
       w') ∧
    models w' !! "PersistedModel" =
      Some (Registry.with_settings Examples.PersistedModel
              (mkSettings None None None None [("strict", VBool true)])) ∧
    log w' = [] ∧ exported w' = [].
Proof.
  apply (configureModel_asserts_after_merging "PersistedModel" Examples.PersistedModel
           (mkConfig (DsName "db") Absent Absent (Given [("strict", VBool true)]))
           "db" Examples.line); reflexivity.
Defined.

Lemma registry_configureModel_returns key m c w :
  (∀ n, cfg_dataSource c = DsName n → truthy n = false) →
  ∃ w', Registry.configureModel key m c w = (Ret tt, w').
Proof.
  intros Hds. rewrite configureModel_unfold. cbv zeta.
  destruct (cfg_dataSource c) as [| | |n|d]; try by eexists.
  rewrite (Hds n eq_refl). by eexists.
Qed.

(** X20.  [line.model] called with a class and a configuration refuses
    before it writes: without a class it throws a [TypeError]; for a class
    that does not descend from [Model] it throws the assertion
    [must be a descendant]; for a configuration whose [dataSource] is a
    name the line has no datasource for, it throws the assertion
    [is referencing a dataSource that does not exist]; and in the three
    cases the registry, the log and the exported models are what they
    were. *)
Theorem line_model_refuses_without_effect key ModelCtor config w :
  (∃ msg, Line.model None config w = (Throw (TypeError msg), w)) ∧
  (models w !! key = Some ModelCtor → isModel ModelCtor = false →
   Line.model (Some key) config w =
   (Throw (AssertionError (modelName ModelCtor +:+
                           " must be a descendant of loopline.Model")), w)) ∧
  (∀ c n,
     models w !! key = Some ModelCtor → isModel ModelCtor = true →
     config = ConfigObj c → cfg_dataSource c = DsName n → truthy n = true →
     dataSources w !! n = None →
     Line.model (Some key) config w =
     (Throw (AssertionError (modelName ModelCtor +:+
                             " is referencing a dataSource that does not exist: " +:+
                             dquote +:+ n +:+ dquote)), w)).
Proof.
  split; [|split].
  - eexists. reflexivity.
  - intros Hkey Hmodel. unfold Line.model. simpl. rewrite Hkey. simpl.
    unfold Line.configureModel. by rewrite Hmodel.
  - intros c n Hkey Hmodel -> Hds Hn Hnone. unfold Line.model. simpl. rewrite Hkey. simpl.
    unfold Line.configureModel. rewrite Hmodel. cbn beta iota.
    rewrite Hds, Hn. cbn [negb]. cbn beta iota. by rewrite Hnone.
Qed.

Lemma line_model_refuses_without_effect_witness :
  Line.model (Some "Model") ConfigNull Examples.line =
  (Throw (AssertionError "Model must be a descendant of loopline.Model"), Examples.line) ∧
  Line.model (Some "PersistedModel")
    (ConfigObj (mkConfig (DsName "db") Absent Absent Absent)) Examples.line =
  (Throw (AssertionError ("PersistedModel is referencing a dataSource that does not exist: " +:+
                          dquote +:+ "db" +:+ dquote)), Examples.line).
Proof.
  split.
  - apply (proj1 (proj2 (line_model_refuses_without_effect "Model" Examples.Model
                           ConfigNull Examples.line))); reflexivity.
  - apply (proj2 (proj2 (line_model_refuses_without_effect "PersistedModel"
                           Examples.PersistedModel
                           (ConfigObj (mkConfig (DsName "db") Absent Absent Absent))
                           Examples.line))
             (mkConfig (DsName "db") Absent Absent Absent) "db"); reflexivity.
Defined.

(** X21.  [line.model] with the name of a datasource of the line: the name is
    replaced by the datasource, the configuration is merged into the
    settings of the class, the class is attached to the datasource, and
    the model is exported. *)
Theorem line_model_attaches_named_dataSource key m c n d w :
  models w !! key = Some m → isModel m = true →
  cfg_dataSource c = DsName n → truthy n = true →
  dataSources w !! n = Some d →
  ∃ w',
    Line.model (Some key) (ConfigObj c) w = (Ret tt, w') ∧
    models w' !! key =
      Some (Registry.attachTo
              (Registry.with_settings m (Spec.merged_settings (modelName m) c (settings m))) d) ∧
    (∀ k, k ≠ key → models w' !! k = models w !! k) ∧
    log w' = log w ++ Spec.merge_diagnostics (modelName m) c (settings m) ++
             [DebugAttached (modelName m) (ds_name d)] ∧
    exported w' = exported w ++ [key].
Proof.
  intros Hm Hmodel Hds Hn Hd. unfold Line.model. simpl. rewrite Hm. simpl.
  unfold Line.configureModel. rewrite Hmodel. simpl. rewrite Hds, Hn, Hd.
  rewrite configureModel_unfold. cbv zeta. cbn [Line.with_dataSource cfg_dataSource].
  destruct (merges_ignore_dataSource (modelName m) c (DsHandle d) (settings m)) as [-> ->].
  eexists. split; [reflexivity|].
  match goal with
  | |- context [foldl ?f ?w0 ?es] =>
      destruct (foldl_emit_models es w0) as (Hmodels & _ & _ & Hexp & Hlog);
      set (w1 := foldl f w0 es) in *
  end.
  simpl. rewrite Hexp, Hlog. simpl. split; [by rewrite lookup_insert_eq|].
  split; [|split; [by rewrite <- app_assoc|done]].
  intros k Hk. rewrite lookup_insert_ne; [|done]. rewrite Hmodels. simpl.
  by rewrite lookup_insert_ne.
Qed.

Lemma line_model_attaches_named_dataSource_witness :
  ∃ w',
    Line.model (Some "PersistedModel")
      (ConfigObj (mkConfig (DsName "default") Absent Absent Absent)) Examples.line =
      (Ret tt, w') ∧
    models w' !! "PersistedModel" =
      Some (Registry.attachTo
              (Registry.with_settings Examples.PersistedModel no_settings)
              (mkDataSource "default")) ∧
    (∀ k, k ≠ "PersistedModel" → models w' !! k = models Examples.line !! k) ∧
    log w' = [DebugAttached "PersistedModel" "default"] ∧
    exported w' = ["PersistedModel"].
Proof.
  apply (line_model_attaches_named_dataSource "PersistedModel" Examples.PersistedModel
           (mkConfig (DsName "default") Absent Absent Absent) "default"
           (mkDataSource "default") Examples.line); reflexivity.
Defined.

End Exporting.

(** ** What a call exports *)

Module SetupFacts.
Import Js Data State Loader Spec ObjFacts LoopFacts.
Import Materializing.












End SetupFacts.

(** ** What a call writes *)

Module Frame.
Import Js Data State Loader Spec.
Import OptionsFacts.

Lemma lookup_fresh (heap : gmap nat Options) : heap !! fresh heap = None.
Proof.
  destruct (heap !! fresh heap) as [o|] eqn:Ho; [|done]. exfalso.
  assert (Hin : fresh heap ∈ elements (dom heap)).
  { apply elem_of_elements, elem_of_dom. by eexists. }
  apply max_list_elem_of_le in Hin. unfold fresh in Hin. lia.
Qed.

Lemma update_frame address f (heap0 heap1 : gmap nat Options) o1 :
  (∀ a, a ≠ address → heap1 !! a = heap0 !! a) →
  heap1 !! address = Some o1 →
  (∀ a, a ≠ address → update address f heap1 !! a = heap0 !! a) ∧
  update address f heap1 !! address = Some (f o1).
Proof.
  intros Hothers Hat. split.
  - intros a Ha. rewrite lookup_update_ne; [|done]. by apply Hothers.
  - by rewrite lookup_update_eq, Hat.
Qed.

Lemma normalize_frame h root options heap :
  let address := (normalize h root options heap).1 in
  let heap1 := (normalize h root options heap).2 in
  (∀ a, a ≠ address → heap1 !! a = heap !! a) ∧
  (options = None → (∀ a, root ≠ RootOptions a) → heap !! address = None) ∧
  (∀ a, supplied root options a → address = a) ∧
  ∃ o1, heap1 !! address = Some o1 ∧
        same_requests (default empty_options (heap !! address)) o1.
Proof.
  cbv zeta. unfold normalize.
  destruct root as [r|a0|], options as [a1|]; cbn [fst snd].
  all: repeat split.
  all: try (intros a Ha; rewrite ?lookup_update_ne by done;
            rewrite ?lookup_insert_ne by done; done).
  all: try done.
  all: try (intros _ _; apply lookup_fresh).
  all: try (intros Hn Hr; by destruct (Hr a0)).
  all: try (intros a [[= <-]|[? ?]]; congruence).
  all: try (eexists; split;
            [rewrite !lookup_update_eq, ?lookup_insert_eq; reflexivity|];
            rewrite ?lookup_fresh; done).
Qed.

(** X23.  Among the options objects, a call of [load] writes the properties
    of one only, the options object it works with, which is the caller's
    when the caller supplies one and a new one otherwise: in every other
    options object the properties [root], [dataSouce], [dataSource],
    [sources], [models] and [mixins] keep their values, and in the options
    object of the call [dataSource], [sources], [models] and [mixins] do.
    ([modelDefinitions] is set aside: its entries are objects the call
    writes the [sourceFile] of.) *)
Theorem load_writes_the_properties_of_its_options_only h root options w heap :
  let address := (normalize h root options heap).1 in
  let heap' := (load h root options w heap).2 in
  (∀ a o, a ≠ address → heap !! a = Some o →
     ∃ o', heap' !! a = Some o' ∧ same_but_modelDefinitions o o') ∧
  (options = None → (∀ a, root ≠ RootOptions a) → heap !! address = None) ∧
  (∀ a, supplied root options a → address = a) ∧
  ∃ o', heap' !! address = Some o' ∧
        same_requests (default empty_options (heap !! address)) o'.
Proof.
  cbv zeta. destruct (normalize_frame h root options heap) as (Hothers & Hnew & Hsup & o1 & Ho1 & Hsame).
  rewrite Ordering.load_unfold.
  destruct (normalize h root options heap) as [address heap1]. cbn [fst snd] in *.
  cbv zeta. destruct (loadModelInstructions _ _ _) as [models defs'].
  assert (Hheap : ∀ heap2, heap2 = update address (λ o, with_modelDefinitions o defs') heap1 →
            (∀ a o, a ≠ address → heap !! a = Some o →
               ∃ o', heap2 !! a = Some o' ∧ same_but_modelDefinitions o o') ∧
            ∃ o', heap2 !! address = Some o' ∧
                  same_requests (default empty_options (heap !! address)) o').
  { intros heap2 ->.
    destruct (update_frame address (λ o, with_modelDefinitions o defs') heap heap1 o1
                Hothers Ho1) as (H1 & H2).
    split.
    - intros a o Ha Ho. exists o. rewrite (H1 a Ha). done.
    - eexists. split; [exact H2|]. exact Hsame. }
  destruct models as [models|e]; [destruct (setupModels _ _ _)|]; cbn [snd];
    (destruct (Hheap _ eq_refl) as (H1 & H2); split; [exact H1|]; split; [exact Hnew|];
     split; [exact Hsup|exact H2]).
Qed.

End Frame.

(** ** Mixins, when they are given *)

Module Mixing.
Import Js Data State Loader ObjFacts.

Lemma forEachM_inv {X} (P : World → Prop) (f : X → M unit) (xs : list X) :
  (∀ x w, x ∈ xs → P w → P (f x w).2) →
  ∀ w, P w → P (forEachM f xs w).2.
Proof.
  induction xs as [|x xs IH]; intros Hstep w Hw; [done|].
  cbn [forEachM]. unfold bindM.
  assert (Hx : P (f x w).2) by (apply Hstep; [by left|done]).
  destruct (f x w) as [[[]|e] w1]; [|done].
  apply IH; [|done]. intros y w2 Hy. apply Hstep. by right.
Qed.

(** X24.  [defineMixins] works on the mixin registry alone, and only when there
    is one: the models, the datasources and the exported models are left
    as they were, and a mixin found in the registry afterwards was there
    before or is what the source file of one of the instructions exports,
    a function or a model class; any other export is never registered. *)
Theorem defineMixins_registers_functions_and_models_only h instructions w :
  let r := defineMixins h instructions w in
  models r.2 = models w ∧ dataSources r.2 = dataSources w ∧ exported r.2 = exported w ∧
  (mixins w = None → r = (Ret tt, w)) ∧
  ∀ name mixin,
    Obj.get name (default [] (mixins r.2)) = Some mixin →
    Obj.get name (default [] (mixins w)) = Some mixin ∨
    (mixin ≠ MixinOther ∧
     ∃ obj, obj ∈ default [] (ins_mixins instructions) ∧ mixin_name obj = name ∧
            requireMixin h (mixin_sourceFile obj) = Ret mixin).
Proof.
  cbv zeta. unfold defineMixins.
  destruct (mixins w) as [reg|] eqn:Hreg.
  2: { simpl. repeat split; try done. intros name mixin Hget. by rewrite Hreg in Hget. }
  destruct (default [] (ins_mixins instructions)) as [|obj0 ms0] eqn:Hms.
  { simpl. repeat split; try done. intros name mixin Hget. rewrite Hreg in Hget. by left. }
  rewrite <- Hms. set (ms := default [] (ins_mixins instructions)) in *. clearbody ms.
  set (P := λ w' : World,
    models w' = models w ∧ dataSources w' = dataSources w ∧ exported w' = exported w ∧
    ∀ name mixin,
      Obj.get name (default [] (mixins w')) = Some mixin →
      Obj.get name reg = Some mixin ∨
      (mixin ≠ MixinOther ∧
       ∃ obj, obj ∈ ms ∧ mixin_name obj = name ∧
              requireMixin h (mixin_sourceFile obj) = Ret mixin)).
  match goal with |- context [forEachM ?f ms w] =>
    assert (HP : P (forEachM f ms w).2) end.
  { apply forEachM_inv.
    - intros obj w1 Hobj (Hm & Hd & He & Hmix). unfold bindM, lift.
      destruct (requireMixin h (mixin_sourceFile obj)) as [mixin|e] eqn:Hreq; [|done].
      assert (Hset : P (set_mixins (Obj.set (mixin_name obj) mixin (default [] (mixins w1)))
                         (emit (DebugDefiningMixin (mixin_name obj)) w1)) ∨
                     mixin = MixinOther).
      { assert (Hcase : mixin = MixinOther ∨ mixin ≠ MixinOther)
          by (destruct mixin; auto).
        destruct Hcase as [|Hne]; [by right|left].
        split; [done|]. split; [done|]. split; [done|].
        intros name mixin'. simpl. rewrite get_set.
        destruct (decide (mixin_name obj = name)) as [Hname|_]; [|apply Hmix].
        intros [= <-]. right. split; [done|]. by exists obj. }
      destruct mixin; simpl.
      + by destruct Hset.
      + by destruct Hset.
      + done.
    - split; [done|]. split; [done|]. split; [done|]. rewrite Hreg. simpl. auto. }
  destruct HP as (Hm & Hd & He & Hmix). split; [done|]. split; [done|]. split; [done|].
  split; [done|]. exact Hmix.
Qed.

End Mixing.

(** ** In-memory datasources *)

Module MemoryFacts.
Import Js Data Memory ObjFacts.

Lemma memory_well_formed c name s :
  well_formed s → well_formed (memory c name s).2.
Proof.
  intros (Hlt & Hinj). unfold memory. cbv zeta.
  destruct (Obj.get _ _) as [ds|] eqn:Hget; [by split|].
  destruct (c (created s)); simpl.
  - split.
    + intros k ds. simpl. rewrite get_set. destruct (decide _).
      * intros [= <-]. lia.
      * intros Hk. specialize (Hlt k ds Hk). lia.
    + intros k k' ds. simpl. rewrite !get_set.
      destruct (decide _) as [<-|Hk], (decide _) as [<-|Hk']; try done.
      * intros [= <-] Hk''. specialize (Hlt _ _ Hk''). lia.
      * intros Hk'' [= <-]. specialize (Hlt _ _ Hk''). lia.
      * apply Hinj.
  - split; simpl; [|done]. intros k ds Hk. specialize (Hlt k ds Hk). lia.
Qed.

Lemma memory_cached c name s ds s' :
  memory c name s = (Ret ds, s') →
  Obj.get (effective_name name) (default [] (memoryDataSources s')) = Some ds.
Proof.
  unfold memory. fold (effective_name name). cbv zeta.
  destruct (Obj.get (effective_name name) _) as [m|] eqn:Hget.
  - by intros [= <- <-].
  - destruct (c (created s)); [|done]. intros [= <- <-]. simpl.
    rewrite get_set. by rewrite decide_True.
Qed.

Lemma memory_keeps_cached c name s k ds :
  Obj.get k (default [] (memoryDataSources s)) = Some ds →
  Obj.get k (default [] (memoryDataSources (memory c name s).2)) = Some ds.
Proof.
  intros Hk. unfold memory. fold (effective_name name). cbv zeta.
  destruct (Obj.get (effective_name name) _) as [m|] eqn:Hget; [done|].
  destruct (c (created s)); [|done]. simpl. rewrite get_set.
  destruct (decide _) as [Heq|]; [|done]. rewrite Heq in Hget. congruence.
Qed.

Lemma memory_hit c name s ds :
  Obj.get (effective_name name) (default [] (memoryDataSources s)) = Some ds →
  memory c name s = (Ret ds, mkStore (Some (default [] (memoryDataSources s))) (created s)).
Proof. intros Hget. unfold memory. fold (effective_name name). cbv zeta. by rewrite Hget. Qed.

(** X25.  [registry.memory] creates one datasource per name and then returns
    it.  A call that returns leaves a store in which the same call, and
    any call whose name stands for the same name ([undefined] and the
    empty string stand for ['default']), returns the same datasource and
    creates nothing.  In a store whose datasources were each created by
    the registry for one name, the store stays so, and a later call for
    another name does not return that datasource. *)
Theorem memory_creates_one_dataSource_per_name c name s ds s' :
  memory c name s = (Ret ds, s') →
  (∀ name', effective_name name' = effective_name name →
            memory c name' s' = (Ret ds, s')) ∧
  (well_formed s →
   well_formed s' ∧
   ∀ name' ds' s'', effective_name name' ≠ effective_name name →
                    memory c name' s' = (Ret ds', s'') → ds' ≠ ds).
Proof.
  intros Hcall. pose proof (memory_cached _ _ _ _ _ Hcall) as Hcached. split.
  - intros name' Hname. rewrite (memory_hit c name' s' ds); [|by rewrite Hname].
    f_equal. destruct s' as [[cache|] n]; [done|]. by simpl in Hcached.
  - intros Hwf.
    assert (Hwf' : well_formed s').
    { pose proof (memory_well_formed c name s Hwf) as H. by rewrite Hcall in H. }
    split; [done|]. intros name' ds' s'' Hname Hcall' ->.
    pose proof (memory_cached _ _ _ _ _ Hcall') as Hcached'.
    pose proof (memory_well_formed c name' s' Hwf') as (_ & Hinj). rewrite Hcall' in Hinj.
    simpl in Hinj. apply Hname. apply (Hinj _ _ ds); [done|].
    pose proof (memory_keeps_cached c name' s' _ _ Hcached) as Hkept.
    by rewrite Hcall' in Hkept.
Qed.

Lemma memory_creates_one_dataSource_per_name_witness :
  let c := λ _ : nat, Ret tt in
  let s' := mkStore (Some [("default", 0)]) 1 in
  (∀ name', effective_name name' = effective_name None →
            memory c name' s' = (Ret 0, s')) ∧
  (well_formed (mkStore None 0) →
   well_formed s' ∧
   ∀ name' ds' s'', effective_name name' ≠ effective_name None →
                    memory c name' s' = (Ret ds', s'') → ds' ≠ 0).
Proof.
  cbv zeta.
  apply (memory_creates_one_dataSource_per_name (λ _, Ret tt) None (mkStore None 0)).
  reflexivity.
Defined.

End MemoryFacts.
